(** * Antigravity multi-account plugin

    A shallow embedding of

    - the account pool, [AccountManager] of [src/plugin/accounts.ts] (the
      storage-backed copy of the class has the same methods);
    - the request translator and the response normaliser of
      [src/plugin/request.ts] (the line numbers given below are those of the
      file that holds it together with [src/plugin/cli.ts]);
    - the plugin's [fetch] in [src/plugin.ts], with its loop over the
      accounts and the endpoints;

    followed by the properties the specification states about them.  The
    definitions come first, the proofs after them.  Modules the sources
    import but do not contain ([src/plugin/auth.ts], [src/constants.ts],
    [src/plugin/request-helpers.ts]) are parameters. *)

From Stdlib Require Import ZArith Lia Ascii String List DecimalString.
From stdpp Require Import base list gmap strings.

Local Open Scope Z_scope.


(** ** JavaScript strings

    A JavaScript string is a finite sequence of code units.  The model keeps
    them as a list of 8-bit characters: every character the code inspects
    (separators, line feeds, white space, the [data:] prefix, digits) lies in
    that range. *)
Module JsString.

Abbreviation jsstring := (list ascii).

Definition lit (s : string) : jsstring := list_ascii_of_string s.

Definition LF : ascii := "010"%char.

(** [s.startsWith(p)] *)
Fixpoint startsWith (s p : jsstring) {struct p} : bool :=
  match p, s with
  | [], _ => true
  | _ :: _, [] => false
  | a :: p', b :: s' => bool_decide (a = b) && startsWith s' p'
  end.

(** [s.indexOf(sep)]: position of the leftmost occurrence of [sep]. *)
Fixpoint indexOf (s sep : jsstring) : option nat :=
  if startsWith s sep then Some 0%nat
  else match s with
       | [] => None
       | _ :: s' => S <$> indexOf s' sep
       end.

(** [s.includes(t)] *)
Definition includes (s t : jsstring) : bool :=
  bool_decide (is_Some (indexOf s t)).

(** [s.split(sep)] for a non-empty separator: the pieces between the
    successive leftmost, non-overlapping occurrences of [sep].  Every cut
    consumes at least one character, so [length s] cuts are enough. *)
Fixpoint split_fuel (fuel : nat) (s sep : jsstring) : list jsstring :=
  match fuel with
  | O => [s]
  | S f =>
      match indexOf s sep with
      | None => [s]
      | Some i => take i s :: split_fuel f (drop (i + length sep) s) sep
      end
  end.

Definition split (s sep : jsstring) : list jsstring :=
  split_fuel (length s) s sep.

(** [pieces.join(sep)] *)
Fixpoint join (pieces : list jsstring) (sep : jsstring) : jsstring :=
  match pieces with
  | [] => []
  | x :: rest =>
      match rest with
      | [] => x
      | _ :: _ => x ++ sep ++ join rest sep
      end
  end.

(** White space and line terminators removed by [trim]. *)
Definition isWhiteSpace (c : ascii) : bool :=
  match c with
  | "009" | "010" | "011" | "012" | "013" | " " | "160" => true
  | _ => false
  end%char.

Fixpoint trimStart (s : jsstring) : jsstring :=
  match s with
  | [] => []
  | c :: s' => if isWhiteSpace c then trimStart s' else s
  end.

Definition trimEnd (s : jsstring) : jsstring :=
  reverse (trimStart (reverse s)).

(** [s.trim()] *)
Definition trim (s : jsstring) : jsstring := trimEnd (trimStart s).

(** JavaScript truthiness of a string: non-empty. *)
Definition truthy (s : jsstring) : bool :=
  match s with [] => false | _ :: _ => true end.

(** [s.slice(n)] for [0 <= n]. *)
Definition slice_from (n : nat) (s : jsstring) : jsstring := drop n s.

(** [arr.pop()]: the last element, and the array without it. *)
Definition pop {A} (l : list A) : option A * list A :=
  (last l, removelast l).

End JsString.

(** ** The account pool: [AccountManager] of [src/plugin/accounts.ts]

    Both copies of the class in the repository (the plain one and the
    storage-backed one) share the methods modelled here verbatim. *)
Module Accounts.
Import JsString.

Record RefreshParts := {
  refreshToken : jsstring;
  projectId : option jsstring;
  managedProjectId : option jsstring;
}.

Record ManagedAccount := {
  index : nat;
  parts : RefreshParts;
  access : option jsstring;
  expires : option Z;
  isRateLimited : bool;
  rateLimitResetTime : Z;
  lastUsed : Z;
}.

(** Field assignments [a.isRateLimited = b], [a.rateLimitResetTime = t],
    [a.lastUsed = t]. *)
Definition set_isRateLimited (b : bool) (a : ManagedAccount) : ManagedAccount :=
  {| index := index a; parts := parts a; access := access a;
     expires := expires a; isRateLimited := b;
     rateLimitResetTime := rateLimitResetTime a; lastUsed := lastUsed a |}.

Definition set_rateLimitResetTime (t : Z) (a : ManagedAccount) : ManagedAccount :=
  {| index := index a; parts := parts a; access := access a;
     expires := expires a; isRateLimited := isRateLimited a;
     rateLimitResetTime := t; lastUsed := lastUsed a |}.

Definition set_lastUsed (t : Z) (a : ManagedAccount) : ManagedAccount :=
  {| index := index a; parts := parts a; access := access a;
     expires := expires a; isRateLimited := isRateLimited a;
     rateLimitResetTime := rateLimitResetTime a; lastUsed := t |}.

(** The manager owns the account objects in its [accounts] array; callers
    hold them by reference.  A reference is modelled by the position of the
    object in the array, which [getNext] and [markRateLimited] never
    change.  The cursor [currentIndex] is a natural number: it starts at 0
    (or at the stored [activeIndex], which [save] writes as a remainder) and
    is only ever incremented. *)
Record AccountManager := {
  accounts : list ManagedAccount;
  currentIndex : nat;
}.

Definition getAccountCount (m : AccountManager) : nat := length (accounts m).

(** The callback of the [filter] in [getNext]: whether the account is
    kept, and the account after the callback's assignment.  [now] is the
    value of [Date.now()] during the call. *)
Definition sweep (now : Z) (a : ManagedAccount) : bool * ManagedAccount :=
  if negb (isRateLimited a) then (true, a)
  else if rateLimitResetTime a <? now then (true, set_isRateLimited false a)
  else (false, a).

(** An account is eligible at [now] when that callback keeps it. *)
Definition eligible (now : Z) (a : ManagedAccount) : bool := (sweep now a).1.

(** The references kept by the filter, in pool order; [k] is the position
    of the head of [l]. *)
Fixpoint availableFrom (now : Z) (k : nat) (l : list ManagedAccount) : list nat :=
  match l with
  | [] => []
  | a :: l' =>
      if eligible now a then k :: availableFrom now (S k) l'
      else availableFrom now (S k) l'
  end.

Definition available (now : Z) (l : list ManagedAccount) : list nat :=
  availableFrom now 0 l.

Definition getNext (now : Z) (m : AccountManager) : option nat * AccountManager :=
  let swept := (λ a, (sweep now a).2) <$> accounts m in
  let avail := available now (accounts m) in
  if bool_decide (length avail = 0%nat) then
    (None, {| accounts := swept; currentIndex := currentIndex m |})
  else
    match avail !! (currentIndex m mod length avail)%nat with
    | None => (None, {| accounts := swept; currentIndex := currentIndex m |})
    | Some r =>
        (Some r, {| accounts := alter (set_lastUsed now) r swept;
                    currentIndex := S (currentIndex m) |})
    end.

(** [markRateLimited(account, retryAfterMs)] on the account referenced by
    [r], at time [now]. *)
Definition markRateLimited (r : nat) (retryAfterMs : Z) (now : Z)
    (m : AccountManager) : AccountManager :=
  {| accounts :=
       alter (λ a, set_rateLimitResetTime (now + retryAfterMs)
                     (set_isRateLimited true a)) r (accounts m);
     currentIndex := currentIndex m |}.

(** [Math.min(...ws)] of a non-empty array, given as head and tail. *)
Definition Math_min (w : Z) (ws : list Z) : Z := foldr Z.min w ws.

Definition getMinWaitTime (now : Z) (m : AccountManager) : Z :=
  let avail :=
    List.filter (λ a, negb (isRateLimited a) || (rateLimitResetTime a <? now))
                (accounts m) in
  if (0 <? length avail)%nat then 0
  else
    let waitTimes :=
      (λ a, Z.max 0 (rateLimitResetTime a - now)) <$>
        List.filter isRateLimited (accounts m) in
    match waitTimes with
    | [] => 0
    | w :: ws => Math_min w ws
    end.

(** Successive calls of [getNext], one per clock reading in [ts]. *)
Fixpoint getNext_many (ts : list Z) (m : AccountManager)
    : list (option nat) * AccountManager :=
  match ts with
  | [] => ([], m)
  | t :: ts' =>
      let '(r, m1) := getNext t m in
      let '(rs, m2) := getNext_many ts' m1 in
      (r :: rs, m2)
  end.

(** No account of the pool carries the rate-limit flag. *)
Definition none_limited (l : list ManagedAccount) : Prop :=
  Forall (λ a, isRateLimited a = false) l.

(** The account referenced by [r] is flagged, with its window ending at
    [reset]. *)
Definition limited_until (r : nat) (reset : Z) (m : AccountManager) : Prop :=
  ∃ a, accounts m !! r = Some a ∧
       isRateLimited a = true ∧ rateLimitResetTime a = reset.

Definition mkAccount (i : nat) (token : string) : ManagedAccount :=
  {| index := i;
     parts := {| refreshToken := lit token; projectId := None;
                 managedProjectId := None |};
     access := None; expires := None;
     isRateLimited := false; rateLimitResetTime := 0; lastUsed := 0 |}.

#[global] Instance ManagedAccount_inhabited : Inhabited ManagedAccount :=
  populate (mkAccount 0 EmptyString).

Definition pool3 : AccountManager :=
  {| accounts := [mkAccount 0 "r1"; mkAccount 1 "r2"; mkAccount 2 "r3"];
     currentIndex := 0 |}.

(** The two-account pool of the repository's tests. *)
Definition pool2 : AccountManager :=
  {| accounts := [mkAccount 0 "r1"; mkAccount 1 "r2"]; currentIndex := 0 |}.

End Accounts.

(** ** A credential-set encoding, for the examples

    The sources import the functions of [src/plugin/auth.ts] and test them
    ([accounts.test.ts], [token.test.ts]) but do not contain them: wherever
    the code calls them they are parameters of the definitions below.  This
    module gives one encoding that agrees with the strings of the tests
    (fields of a record separated by one bar, records by two bars, a record
    without a managed project id written with two fields:
    [r1|p1||r2|p2||r3|p3|m3]); the examples instantiate the parameters with
    it. *)
Module Auth.
Import JsString Accounts.

Definition BAR : ascii := "|"%char.

(** [x || undefined] on a string. *)
Definition orUndefined (s : jsstring) : option jsstring :=
  if truthy s then Some s else None.

(** The [i]-th element of a destructured array, with the empty string as default. *)
Definition field (fields : list jsstring) (i : nat) : jsstring :=
  default [] (fields !! i).

(** One record: the fields between the bars; absent identifiers are read
    back as absent. *)
Definition parseRefreshParts (refresh : jsstring) : RefreshParts :=
  let fields := split refresh [BAR] in
  {| refreshToken := field fields 0;
     projectId := orUndefined (field fields 1);
     managedProjectId := orUndefined (field fields 2) |}.

(** The refresh token and the project id (empty when absent) joined by a
    bar; the managed project id follows, after another bar, only when there
    is one. *)
Definition formatRefreshParts (p : RefreshParts) : jsstring :=
  refreshToken p ++ [BAR] ++ default [] (projectId p) ++
  match managedProjectId p with
  | Some mp => if truthy mp then [BAR] ++ mp else []
  | None => []
  end.

(** The string is cut at the double bars; every non-empty piece is a
    record. *)
Definition parseMultiAccountRefresh (refresh : jsstring) : list RefreshParts :=
  parseRefreshParts <$> List.filter truthy (split refresh [BAR; BAR]).

(** The records joined by double bars, in pool order. *)
Definition formatMultiAccountRefresh (accts : list RefreshParts) : jsstring :=
  join (formatRefreshParts <$> accts) [BAR; BAR].

Definition mkParts (r : string) (p m : option string) : RefreshParts :=
  {| refreshToken := lit r; projectId := lit <$> p;
     managedProjectId := lit <$> m |}.

End Auth.

(** ** The JavaScript runtime the request layer relies on

    Exceptions, JSON values, [Headers], [Response] bodies, and the built-in
    services ([JSON], [TextDecoder], [TextEncoder]) whose implementation is
    the platform's. *)
Module Runtime.
Import JsString.

(** *** Exceptions *)

Inductive Exn :=
| TypeError
| RangeError
| SyntaxError
| StreamError               (* the body stream or the network failed *)
| HelperError               (* thrown by an imported helper *)
| Error (message : jsstring).

(** A computation that returns a value or throws. *)
Definition Exc (A : Type) : Type := (Exn + A)%type.

Definition ret {A} (a : A) : Exc A := inr a.
Definition throw {A} (e : Exn) : Exc A := inl e.

Definition bind {A B} (c : Exc A) (k : A → Exc B) : Exc B :=
  match c with
  | inl e => inl e
  | inr a => k a
  end.

Notation "'let*' x ':=' c 'in' k" := (bind c (λ x, k))
  (at level 10, x pattern, c at level 200, k at level 200).

(** [try { c } catch { h }] *)
Definition try_catch {A} (c : Exc A) (h : Exn → A) : A :=
  match c with
  | inl e => h e
  | inr a => a
  end.

(** *** JSON values *)

#[local] Unset Elimination Schemes.

Inductive Json :=
| JNull
| JBool (b : bool)
| JNum (n : Z)
| JStr (s : jsstring)
| JArr (items : list Json)
| JObj (props : list (jsstring * Json)).

#[local] Set Elimination Schemes.

(** JavaScript truthiness; [None] stands for [undefined]. *)
Definition truthyJson (v : Json) : bool :=
  match v with
  | JNull => false
  | JBool b => b
  | JNum n => negb (n =? 0)
  | JStr s => truthy s
  | JArr _ | JObj _ => true
  end.

Definition truthyOpt (v : option Json) : bool :=
  match v with
  | Some x => truthyJson x
  | None => false
  end.

Fixpoint assoc (k : jsstring) (props : list (jsstring * Json)) : option Json :=
  match props with
  | [] => None
  | (k', v) :: rest => if bool_decide (k' = k) then Some v else assoc k rest
  end.

(** [v[k]] for the property names the code reads ([error], [message],
    [details], [@type], [retryDelay], [response]): objects are looked up,
    and no array, string, number or boolean has such a property.  Reading a
    property of [null] throws; the callers guard it as the code does. *)
Definition getProp (v : Json) (k : jsstring) : option Json :=
  match v with
  | JObj props => assoc k props
  | _ => None
  end.

(** [v?.k] on a possibly undefined or null [v]. *)
Definition optProp (v : option Json) (k : jsstring) : option Json :=
  match v with
  | None | Some JNull => None
  | Some x => getProp x k
  end.

Fixpoint setAssoc (k : jsstring) (v : Json) (props : list (jsstring * Json))
    : list (jsstring * Json) :=
  match props with
  | [] => [(k, v)]
  | (k', v') :: rest =>
      if bool_decide (k' = k) then (k, v) :: rest
      else (k', v') :: setAssoc k v rest
  end.

(** [target.k = v] in strict mode (modules are strict): objects and arrays
    take the property, [null] and primitives throw a [TypeError].  A named
    property put on an array is not serialised by [JSON.stringify], so the
    array is left as it is. *)
Definition setProp (target : Json) (k : jsstring) (v : Json) : Exc Json :=
  match target with
  | JObj props => ret (JObj (setAssoc k v props))
  | JArr items => ret (JArr items)
  | _ => throw TypeError
  end.

(** *** Headers: names are kept in lower case, one value per name *)

Definition lowerChar (c : ascii) : ascii :=
  let n := nat_of_ascii c in
  if (65 <=? n)%nat && (n <=? 90)%nat then ascii_of_nat (n + 32) else c.

Definition toLowerCase (s : jsstring) : jsstring := lowerChar <$> s.

Abbreviation Headers := (gmap jsstring jsstring).

Definition hget (name : string) (h : Headers) : option jsstring :=
  h !! toLowerCase (lit name).

Definition hset (name : string) (v : jsstring) (h : Headers) : Headers :=
  <[toLowerCase (lit name) := v]> h.

Definition hdelete (name : string) (h : Headers) : Headers :=
  delete (toLowerCase (lit name)) h.

(** *** Responses *)

Inductive Body :=
| BodyNull
| BodyText (text : jsstring)
| BodyStream (chunks : list (list Byte.byte)) (fails : bool)
  (* the chunks a stream delivers, and whether it then fails *)
| BodyUsed.
  (* a body that has been read: [bodyUsed] is true, the stream is locked *)

Record Response := {
  status : Z;
  statusText : jsstring;
  headers : Headers;
  body : Body;
}.

(** [response.ok] *)
Definition ok (r : Response) : bool := (200 <=? status r) && (status r <=? 299).

(** [response.body] is not null. *)
Definition hasBody (r : Response) : bool :=
  match body r with
  | BodyNull => false
  | _ => true
  end.

(** [response.bodyUsed] *)
Definition bodyUsed (r : Response) : bool :=
  match body r with
  | BodyUsed => true
  | _ => false
  end.

(** The response object once one of its reading methods ([text()],
    [json()], ...) has been called: a body that is not null is used up,
    whether the read succeeded or failed; everything else stays. *)
Definition afterRead (r : Response) : Response :=
  match body r with
  | BodyNull => r
  | _ => {| status := status r; statusText := statusText r;
            headers := headers r; body := BodyUsed |}
  end.

Definition isNullBodyStatus (s : Z) : bool :=
  (s =? 101) || (s =? 103) || (s =? 204) || (s =? 205) || (s =? 304).

(** [new Response(body, { status, statusText, headers })]: a status outside
    200..599 is a [RangeError], a body on a null-body status a
    [TypeError]. *)
Definition new_Response (b : Body) (s : Z) (st : jsstring) (h : Headers)
    : Exc Response :=
  if negb ((200 <=? s) && (s <=? 599)) then throw RangeError
  else if isNullBodyStatus s &&
          match b with BodyNull => false | _ => true end
  then throw TypeError
  else ret {| status := s; statusText := st; headers := h; body := b |}.

(** *** Services of the platform *)

Class Platform := {
  (** [JSON.parse]: [None] when it throws a [SyntaxError]. *)
  JSON_parse : jsstring → option Json;
  JSON_stringify : Json → jsstring;
  (** Conversion of a value to a string, as [+] and template literals do. *)
  ToString : Json → jsstring;
  (** The UTF-8 [TextDecoder]: a state, the text produced for each byte,
      and the text produced when the input ends. *)
  decoderState : Type;
  decoderInit : decoderState;
  decodeByte : decoderState → Byte.byte → decoderState * jsstring;
  decodeEnd : decoderState → jsstring;
  (** [new TextEncoder().encode] *)
  encode : jsstring → list Byte.byte;
}.

(** [String(n)] for an integer. *)
Definition numberToString (n : Z) : jsstring :=
  lit (DecimalString.NilZero.string_of_int (Z.to_int n)).

End Runtime.

(** ** The response normaliser: [src/plugin/request.ts] *)
Module Request.
Import JsString Runtime.

(** Token counts read from a response ([usageMetadata]). *)
Record Usage := {
  cachedContentTokenCount : option Z;
  totalTokenCount : option Z;
  promptTokenCount : option Z;
  candidatesTokenCount : option Z;
}.

(** The helpers imported from [./request-helpers], which is not among the
    sources: each is taken as it is declared, and may throw. *)
Class RequestHelpers := {
  transformThinkingParts : Json → Exc Json;
  extractUsageFromSsePayload : jsstring → Exc (option Usage);
  extractUsageMetadata : Json → Exc (option Usage);
  parseAntigravityApiBody : jsstring → Exc (option Json);
  rewriteAntigravityPreviewAccessError :
    Json → Z → option jsstring → Exc (option Json);
  (** The numeric part of the retry-delay translation (lines 708-713):
      [parseFloat], the test [> 0], and the two rounded values as strings
      ([Retry-After] seconds and [retry-after-ms] milliseconds).  It is
      floating-point arithmetic and kept abstract. *)
  retryDelayValues : jsstring → option (jsstring * jsstring);
}.

(** What [prepareAntigravityRequest] hands over for the debug block. *)
Record RequestMeta := {
  requestedModel : option jsstring;
  metaProjectId : option jsstring;
  endpoint : option jsstring;
  effectiveModel : option jsstring;
  toolDebugMissing : option Z;
  toolDebugSummary : option jsstring;
  toolDebugPayload : option jsstring;
}.

Section Normaliser.
Context {platform : Platform} {helpers : RequestHelpers}.

(** The callback of the [map] in [transformStreamingPayload] (and the body
    of [transformSseLine]): one line of an SSE event. *)
Definition transformLine (line : jsstring) : jsstring :=
  if negb (startsWith line (lit "data:")) then line
  else
    let json := trim (slice_from 5 line) in
    if negb (truthy json) then line
    else
      (* try { ... } catch (_) { } : whatever is thrown, the line is kept *)
      match JSON_parse json with
      | None => line
      | Some parsed =>
          (* [parsed.response]: undefined, or a throw when [parsed] is
             null; both keep the line *)
          match getProp parsed (lit "response") with
          | None => line
          | Some response =>
              match transformThinkingParts response with
              | inl _ => line
              | inr transformed =>
                  lit "data: " ++ JSON_stringify transformed
              end
          end
      end.

Definition transformStreamingPayload (payload : jsstring) : jsstring :=
  join (transformLine <$> split payload [LF]) [LF].

(** *** The streaming transform (lines 629-663) *)

(** [decoder.decode(chunk, { stream: true })] *)
Fixpoint decodeChunk (d : decoderState) (chunk : list Byte.byte)
    : decoderState * jsstring :=
  match chunk with
  | [] => (d, [])
  | b :: rest =>
      let '(d1, t1) := decodeByte d b in
      let '(d2, t2) := decodeChunk d1 rest in
      (d2, t1 ++ t2)
  end.

(** The variables the two callbacks close over. *)
Record StreamState := {
  decoder : decoderState;
  buffer : jsstring;
}.

Definition streamInit : StreamState :=
  {| decoder := decoderInit; buffer := [] |}.

(** The [for] loop of [transform]: what is enqueued for the complete
    events. *)
Definition forwardEvents (events : list jsstring) : list (list Byte.byte) :=
  (λ event, encode (transformStreamingPayload event ++ [LF; LF])) <$>
    List.filter (λ event, truthy (trim event)) events.

(** [transform(chunk, controller)]: the new state and what is enqueued. *)
Definition transform (st : StreamState) (chunk : list Byte.byte)
    : StreamState * list (list Byte.byte) :=
  let '(d, text) := decodeChunk (decoder st) chunk in
  let buffer1 := buffer st ++ text in
  let events := split buffer1 [LF; LF] in
  let '(popped, events1) := pop events in
  let buffer2 := default [] popped in       (* events.pop(), or the empty string *)
  ({| decoder := d; buffer := buffer2 |}, forwardEvents events1).

(** [flush(controller)] *)
Definition flush (st : StreamState) : list (list Byte.byte) :=
  let buffer1 := buffer st ++ decodeEnd (decoder st) in
  if truthy (trim buffer1) then [encode (transformStreamingPayload buffer1)]
  else [].

(** [body.pipeThrough(transformStream)]: every chunk goes through
    [transform]; when the source ends the stream is flushed, when it fails
    nothing more is enqueued.  The result is the sequence of enqueued
    chunks. *)
Fixpoint pipeChunks (fails : bool) (st : StreamState)
    (chunks : list (list Byte.byte)) : list (list Byte.byte) :=
  match chunks with
  | [] => if fails then [] else flush st
  | chunk :: rest =>
      let '(st1, out) := transform st chunk in
      out ++ pipeChunks fails st1 rest
  end.

Definition pipeThrough (chunks : list (list Byte.byte)) : list (list Byte.byte) :=
  pipeChunks false streamInit chunks.

(** The events completed inside a text (all the pieces of the split but
    the last), and the unfinished rest (the last piece). *)
Definition complete (text : jsstring) : list jsstring :=
  removelast (split text [LF; LF]).

Definition unfinished (text : jsstring) : jsstring :=
  default [] (last (split text [LF; LF])).

(** What [flush] enqueues for a given final buffer. *)
Definition flushed (buffer1 : jsstring) : list (list Byte.byte) :=
  if truthy (trim buffer1) then [encode (transformStreamingPayload buffer1)]
  else [].

(** *** [transformAntigravityResponse] *)

(** [await response.text()]: the text or the throw, and the response
    object as the call leaves it.  A body that has been read already
    cannot be read again. *)
Definition response_text (r : Response) : Exc jsstring * Response :=
  (match body r with
   | BodyNull => ret []
   | BodyText t => ret t
   | BodyStream chunks fails =>
       if fails then throw StreamError
       else
         let '(d, t) := decodeChunk decoderInit (concat chunks) in
         ret (t ++ decodeEnd d)
   | BodyUsed => throw TypeError
   end,
   afterRead r).

(** [x || d] on an optional string. *)
Definition orElse (x : option jsstring) (d : string) : jsstring :=
  match x with
  | Some s => if truthy s then s else lit d
  | None => lit d
  end.

(** The [[Debug Info]] block appended to an error message (line 690). *)
Definition debugInfo (response : Response) (hs : Headers) (meta : RequestMeta)
    : jsstring :=
  [LF; LF] ++ lit "[Debug Info]" ++
  [LF] ++ lit "Requested Model: " ++ orElse (requestedModel meta) "Unknown" ++
  [LF] ++ lit "Effective Model: " ++ orElse (effectiveModel meta) "Unknown" ++
  [LF] ++ lit "Project: " ++ orElse (metaProjectId meta) "Unknown" ++
  [LF] ++ lit "Endpoint: " ++ orElse (endpoint meta) "Unknown" ++
  [LF] ++ lit "Status: " ++ numberToString (status response) ++
  [LF] ++ lit "Request ID: " ++ orElse (hget "x-request-id" hs) "N/A" ++
  match toolDebugMissing meta with
  | Some n => [LF] ++ lit "Tool Debug Missing: " ++ numberToString n
  | None => []
  end ++
  match toolDebugSummary meta with
  | Some t => if truthy t then [LF] ++ lit "Tool Debug Summary: " ++ t else []
  | None => []
  end ++
  match toolDebugPayload meta with
  | Some t => if truthy t then [LF] ++ lit "Tool Debug Payload: " ++ t else []
  | None => []
  end.

(** [errorBody.error.message || "Unknown error"], as the left operand of
    the string concatenation. *)
Definition messageOrUnknown (e : Json) : jsstring :=
  match getProp e (lit "message") with
  | Some (JStr m) => if truthy m then m else lit "Unknown error"
  | Some v => if truthyJson v then ToString v else lit "Unknown error"
  | None => lit "Unknown error"
  end.

Definition RETRY_INFO_TYPE : jsstring :=
  lit "type.googleapis.com/google.rpc.RetryInfo".

(** [details.find(detail => detail['@type'] === RETRY_INFO_TYPE)] *)
Fixpoint findRetryInfo (details : list Json) : Exc (option Json) :=
  match details with
  | [] => ret None
  | JNull :: _ => throw TypeError
  | detail :: rest =>
      match getProp detail (lit "@type") with
      | Some (JStr t) =>
          if bool_decide (t = RETRY_INFO_TYPE) then ret (Some detail)
          else findRetryInfo rest
      | _ => findRetryInfo rest
      end
  end.

Definition isDigitOrDot (c : ascii) : bool :=
  let n := nat_of_ascii c in
  ((48 <=? n)%nat && (n <=? 57)%nat) || bool_decide (c = "."%char).

(** [retryDelay.match(/^([\d.]+)s$/)]: the first group, if the string
    matches. *)
Definition matchRetryDelay (s : jsstring) : option jsstring :=
  match reverse s with
  | "s"%char :: rev_digits =>
      if truthy rev_digits && forallb isDigitOrDot rev_digits
      then Some (reverse rev_digits) else None
  | _ => None
  end.

(** The retry-delay translation (lines 700-717), from the value of
    [errorBody?.error]: the headers after it. *)
Definition retryHeaders (err : option Json) (hs : Headers) : Exc Headers :=
  match optProp err (lit "details") with
  | Some (JArr details) =>      (* truthy, and [Array.isArray] *)
      let* retryInfo := findRetryInfo details in
      match optProp retryInfo (lit "retryDelay") with
      | Some delay =>
          if truthyJson delay then
            match delay with
            | JStr d =>
                match matchRetryDelay d with
                | Some seconds =>
                    match retryDelayValues seconds with
                    | Some (retryAfterSec, retryAfterMs) =>
                        ret (hset "retry-after-ms" retryAfterMs
                               (hset "Retry-After" retryAfterSec hs))
                    | None => ret hs
                    end
                | None => ret hs
                end
            | _ => throw TypeError      (* [match] is not a function *)
            end
          else ret hs
      | None => ret hs
      end
  | _ => ret hs
  end.

(** The block [if (!response.ok) { ... }] (lines 680-718): either the
    response it returns, or the headers it leaves. *)
Definition errorBlock (response : Response) (text : jsstring) (hs : Headers)
    (meta : RequestMeta) : Exc (Response + Headers) :=
  let errorBody :=
    match JSON_parse text with
    | Some v => v
    | None => JObj [(lit "error", JObj [(lit "message", JStr text)])]
    end in
  let err := optProp (Some errorBody) (lit "error") in
  match err with
  | Some e =>
      if truthyJson e then
        (* errorBody.error.message = (... || "Unknown error") + debugInfo *)
        let* e1 := setProp e (lit "message")
                     (JStr (messageOrUnknown e ++ debugInfo response hs meta)) in
        let* errorBody1 := setProp errorBody (lit "error") e1 in
        let* r := new_Response (BodyText (JSON_stringify errorBody1))
                    (status response) (statusText response) hs in
        ret (inl r)
      else
        let* hs1 := retryHeaders err hs in ret (inr hs1)
  | None =>
      let* hs1 := retryHeaders err hs in ret (inr hs1)
  end.

(** [String(n)] into a header, when the count is there. *)
Definition setCount (name : string) (n : option Z) (hs : Headers) : Headers :=
  match n with
  | Some v => hset name (numberToString v) hs
  | None => hs
  end.

Definition usageHeaders (usage : option Usage) (hs : Headers) : Headers :=
  match usage with
  | Some u =>
      match cachedContentTokenCount u with
      | Some cached =>
          setCount "x-antigravity-candidates-token-count" (candidatesTokenCount u)
            (setCount "x-antigravity-prompt-token-count" (promptTokenCount u)
               (setCount "x-antigravity-total-token-count" (totalTokenCount u)
                  (hset "x-antigravity-cached-content-token-count"
                        (numberToString cached) hs)))
      | None => hs
      end
  | None => hs
  end.

(** The body of the [try] (lines 677-767): how it ends, and the object
    [response] as it leaves it.  The only statement that touches the
    object is the first one that can throw, [await response.text()]; the
    status, the status text and the headers read afterwards are not
    affected by it. *)
Definition normalise (response : Response) (streaming : bool)
    (isEventStreamResponse : bool) (meta : RequestMeta)
    : Exc Response * Response :=
  let hs0 := headers response in
  let '(read, response1) := response_text response in
  (let* text := read in
  let* early :=
    if negb (ok response) then errorBlock response text hs0 meta
    else ret (inr hs0) in
  match early with
  | inl r => ret r
  | inr hs1 =>
      let* usageFromSse :=
        if streaming && isEventStreamResponse
        then extractUsageFromSsePayload text else ret None in
      let* parsed :=
        if negb streaming || negb isEventStreamResponse
        then parseAntigravityApiBody text else ret None in
      let* patched :=
        match parsed with
        | Some p =>
            rewriteAntigravityPreviewAccessError p (status response)
              (requestedModel meta)
        | None => ret None
        end in
      let effectiveBody :=
        match patched with Some b => Some b | None => parsed end in
      let* usage :=
        match usageFromSse with
        | Some u => ret (Some u)
        | None =>
            match effectiveBody with
            | Some b => extractUsageMetadata b
            | None => ret None
            end
        end in
      let hs2 := usageHeaders usage hs1 in
      let respond (b : jsstring) :=
        new_Response (BodyText b) (status response) (statusText response) hs2 in
      match parsed with
      | None => respond text
      | Some _ =>
          match optProp effectiveBody (lit "response") with
          | Some inner =>
              let* transformed := transformThinkingParts inner in
              respond (JSON_stringify transformed)
          | None =>
              match patched with
              | Some p => respond (JSON_stringify p)
              | None => respond text
              end
          end
      end
  end,
  response1).

(** [transformAntigravityResponse]: what the returned promise settles
    with.  The calls of the debug logger leave no trace in it.  Only the
    last branch runs inside the [try]; its handler returns the object
    [response], in the state in which the [try] left it. *)
Definition transformAntigravityResponse (response : Response)
    (streaming : bool) (meta : RequestMeta) : Exc Response :=
  let contentType := default [] (hget "content-type" (headers response)) in
  let isJsonResponse := includes contentType (lit "application/json") in
  let isEventStreamResponse := includes contentType (lit "text/event-stream") in
  if negb isJsonResponse && negb isEventStreamResponse then ret response
  else if streaming && ok response && isEventStreamResponse && hasBody response
  then
    (* [response.body.pipeThrough(transformStream)] throws on a locked
       stream, outside the [try] *)
    let* piped :=
      match body response with
      | BodyStream chunks fails =>
          ret (BodyStream (pipeChunks fails streamInit chunks) fails)
      | BodyText t => ret (BodyStream (pipeThrough [encode t]) false)
      | BodyNull => ret BodyNull
      | BodyUsed => throw TypeError
      end in
    new_Response piped
      (status response) (statusText response) (headers response)
  else
    let '(result, response1) :=
      normalise response streaming isEventStreamResponse meta in
    ret (try_catch result (λ _, response1)).

(** A response as [fetch] delivers it: the status is in 200..599, and a
    null-body status comes without a body (the [Response] constructor
    builds no other). *)
Definition fromFetch (r : Response) : Prop :=
  200 ≤ status r ≤ 599 ∧
  (isNullBodyStatus (status r) = true → body r = BodyNull) ∧
  bodyUsed r = false.

(** The branch of [transformAntigravityResponse] that runs inside the
    [try]: a JSON or event-stream response that is not a successful stream. *)
Definition onBufferedPath (response : Response) (streaming : bool) : Prop :=
  let contentType := default [] (hget "content-type" (headers response)) in
  (includes contentType (lit "application/json") = true ∨
   includes contentType (lit "text/event-stream") = true) ∧
  (streaming && ok response &&
   includes contentType (lit "text/event-stream") && hasBody response) = false.

End Normaliser.


(** *** [prepareAntigravityRequest] *)

(** [RequestInfo]: a URL string, or a [Request] object. *)
Inductive RequestInfo :=
| UrlString (url : jsstring)
| RequestObject (url : jsstring).

(** [BodyInit]: a string, or something else (a [Blob], [FormData], a
    buffer, a stream), which the function never looks into. *)
Inductive BodyInit :=
| BodyString (s : jsstring)
| BodyOther (id : nat).

(** [RequestInit], with the headers already read into a [Headers]; an absent
    (or null) body is [None]. *)
Record RequestInit := {
  method : option jsstring;
  initHeaders : Headers;
  initBody : option BodyInit;
}.

Record Prepared := {
  request : RequestInfo;
  init : RequestInit;
  streaming : bool;
  meta : RequestMeta;
}.

(** The constants of [src/constants.ts], which is not among the sources. *)
Class Constants := {
  ANTIGRAVITY_ENDPOINT : jsstring;
  ANTIGRAVITY_ENDPOINT_FALLBACKS : list jsstring;
  ANTIGRAVITY_HEADERS_User_Agent : jsstring;
  ANTIGRAVITY_HEADERS_X_Goog_Api_Client : jsstring;
  ANTIGRAVITY_HEADERS_Client_Metadata : jsstring;
}.

(** What the rewriting of a string body (lines 201-562) leaves in the
    variables of the function. *)
Record RewrittenBody := {
  newBody : jsstring;
  newProjectId : jsstring;
  newToolDebugMissing : Z;
  newToolDebugSummaries : list jsstring;
  newToolDebugPayload : option jsstring;
}.

(** The rewriting of a non-empty string body (lines 201-562: parsing,
    thinking configuration, tools, ids, the envelope with its random request
    and session ids), from the body, the model and the trimmed project id.
    It throws on a malformed body.  No claim here looks inside it. *)
Class BodyRewriter := {
  rewriteBody : jsstring → jsstring → jsstring → Exc RewrittenBody;
}.

Definition STREAM_ACTION : jsstring := lit "streamGenerateContent".

Definition isGenerativeLanguageRequest (input : RequestInfo) : bool :=
  match input with
  | UrlString url => includes url (lit "generativelanguage.googleapis.com")
  | RequestObject _ => false
  end.

Fixpoint takeWhile (f : ascii → bool) (s : jsstring) : jsstring :=
  match s with
  | [] => []
  | c :: s' => if f c then c :: takeWhile f s' else []
  end.

Fixpoint dropWhile (f : ascii → bool) (s : jsstring) : jsstring :=
  match s with
  | [] => []
  | c :: s' => if f c then dropWhile f s' else s
  end.

(** [\w] *)
Definition isWordChar (c : ascii) : bool :=
  let n := nat_of_ascii c in
  ((48 <=? n)%nat && (n <=? 57)%nat) || ((65 <=? n)%nat && (n <=? 90)%nat) ||
  ((97 <=? n)%nat && (n <=? 122)%nat) || (n =? 95)%nat.

Definition notColon (c : ascii) : bool := negb (bool_decide (c = ":"%char)).

(** The pattern [/models/([^:]+):(\w+)] tried at the start of [s].  Both
    groups are greedy, and giving back characters never helps: the
    character after them has to be the colon, respectively anything. *)
Definition matchHere (s : jsstring) : option (jsstring * jsstring) :=
  if startsWith s (lit "/models/") then
    let rest := drop 8 s in
    let model := takeWhile notColon rest in
    match model, dropWhile notColon rest with
    | _ :: _, ":"%char :: tail =>
        match takeWhile isWordChar tail with
        | [] => None
        | action => Some (model, action)
        end
    | _, _ => None
    end
  else None.

(** [input.match(/\/models\/([^:]+):(\w+)/)]: the two groups of the
    leftmost match. *)
Fixpoint matchModelAction (s : jsstring) : option (jsstring * jsstring) :=
  match matchHere s with
  | Some groups => Some groups
  | None =>
      match s with
      | [] => None
      | _ :: s' => matchModelAction s'
      end
  end.

(** A body that [prepareAntigravityRequest] does not rewrite: absent, the
    empty string, or not a string. *)
Definition keptBody (b : option BodyInit) : Prop :=
  match b with
  | Some (BodyString (_ :: _)) => False
  | _ => True
  end.

Section Prepare.
Context {constants : Constants} {rewriter : BodyRewriter}.

Definition noMeta : RequestMeta :=
  {| requestedModel := None; metaProjectId := None; endpoint := None;
     effectiveModel := None; toolDebugMissing := None;
     toolDebugSummary := None; toolDebugPayload := None |}.

Definition prepareAntigravityRequest (input : RequestInfo)
    (init0 : option RequestInit) (accessToken : jsstring)
    (projectId : option jsstring) (endpointOverride : option jsstring)
    : Exc Prepared :=
  let baseMethod := init0 ≫= method in
  let baseBody := init0 ≫= initBody in
  let headers0 := from_option initHeaders ∅ init0 in
  let resolvedProjectId := from_option trim [] projectId in
  let passThrough (hs : Headers) :=
    {| request := input;
       init := {| method := baseMethod; initHeaders := hs;
                  initBody := baseBody |};
       streaming := false;
       meta := noMeta |} in
  if negb (isGenerativeLanguageRequest input) then ret (passThrough headers0)
  else
    let url := match input with UrlString u | RequestObject u => u end in
    let headers1 :=
      hdelete "x-api-key"
        (hset "Authorization" (lit "Bearer " ++ accessToken) headers0) in
    match matchModelAction url with
    | None => ret (passThrough headers1)
    | Some (rawModel, rawAction) =>
        let streaming := bool_decide (rawAction = STREAM_ACTION) in
        let baseEndpoint := default ANTIGRAVITY_ENDPOINT endpointOverride in
        let transformedUrl :=
          baseEndpoint ++ lit "/v1internal:" ++ rawAction ++
          (if streaming then lit "?alt=sse" else []) in
        let* rewritten :=
          match baseBody with
          | Some (BodyString b) =>
              if truthy b then
                let* rw := rewriteBody b rawModel resolvedProjectId in
                ret (Some rw)
              else ret None
          | _ => ret None
          end in
        let body1 :=
          match rewritten with
          | Some rw => Some (BodyString (newBody rw))
          | None => baseBody
          end in
        let toolMissing := from_option newToolDebugMissing 0 rewritten in
        let headers2 :=
          if streaming then hset "Accept" (lit "text/event-stream") headers1
          else headers1 in
        let headers3 :=
          hset "Client-Metadata" ANTIGRAVITY_HEADERS_Client_Metadata
            (hset "X-Goog-Api-Client" ANTIGRAVITY_HEADERS_X_Goog_Api_Client
               (hset "User-Agent" ANTIGRAVITY_HEADERS_User_Agent headers2)) in
        let headers4 :=
          if 0 <? toolMissing
          then hset "X-Opencode-Tools-Debug" (numberToString toolMissing) headers3
          else headers3 in
        ret {| request := UrlString transformedUrl;
               init := {| method := baseMethod; initHeaders := headers4;
                          initBody := body1 |};
               streaming := streaming;
               meta :=
                 {| requestedModel := Some rawModel;
                    metaProjectId :=
                      Some (from_option newProjectId resolvedProjectId rewritten);
                    endpoint := Some transformedUrl;
                    effectiveModel := Some rawModel;
                    toolDebugMissing := Some toolMissing;
                    toolDebugSummary :=
                      Some (join (take 20 (from_option newToolDebugSummaries []
                                             rewritten)) (lit " | "));
                    toolDebugPayload := rewritten ≫= newToolDebugPayload |} |}
    end.

End Prepare.

End Request.

(** ** The dispatch loop: [fetch] of [src/plugin.ts] *)
Module Plugin.
Import JsString Accounts Runtime Request.

Record OAuthAuthDetails := {
  refresh : jsstring;
  authAccess : option jsstring;
  authExpires : option Z;
}.

(** The functions imported from [./plugin/auth], which is not among the
    sources: each is taken as it is declared. *)
Class AuthHelpers := {
  accessTokenExpired : OAuthAuthDetails → bool;
  parseRefreshParts : jsstring → RefreshParts;
  formatRefreshParts : RefreshParts → jsstring;
  parseMultiAccountRefresh : jsstring → list RefreshParts;
  formatMultiAccountRefresh : list RefreshParts → jsstring;
}.

(** [accountManager.accountToAuth(account)] *)
Definition accountToAuth `{AuthHelpers} (account : ManagedAccount)
    : OAuthAuthDetails :=
  {| refresh := formatRefreshParts (parts account);
     authAccess := access account;
     authExpires := expires account |}.

(** [accountManager.updateAccount(account, access, expires, parts)], on the
    account referenced by [r]. *)
Definition updateAccount (r : nat) (newAccess : option jsstring)
    (newExpires : option Z) (newParts : RefreshParts) (m : AccountManager)
    : AccountManager :=
  {| accounts :=
       alter (λ a, {| index := index a; parts := newParts;
                      access := newAccess; expires := newExpires;
                      isRateLimited := isRateLimited a;
                      rateLimitResetTime := rateLimitResetTime a;
                      lastUsed := lastUsed a |}) r (accounts m);
     currentIndex := currentIndex m |}.

(** *** The rate-limit window of a 429 response (lines 267-277) *)

Definition isDigit (c : ascii) : bool :=
  let n := nat_of_ascii c in (48 <=? n)%nat && (n <=? 57)%nat.

Definition digitValue (c : ascii) : Z := Z.of_nat (nat_of_ascii c) - 48.

(** The number written by a string of decimal digits.  JavaScript numbers
    are exact on the integers below 2^53; the model keeps every integer
    exact. *)
Definition digitsValue (ds : jsstring) : Z :=
  foldl (λ acc c, 10 * acc + digitValue c) 0 ds.

(** [parseInt(s, 10)]: leading white space and a sign are skipped, the
    longest run of digits is read; [None] is [NaN]. *)
Definition parseInt (s : jsstring) : option Z :=
  let s1 := trimStart s in
  let '(sign, s2) :=
    match s1 with
    | "-"%char :: rest => (-1, rest)
    | "+"%char :: rest => (1, rest)
    | _ => (1, s1)
    end in
  match takeWhile isDigit s2 with
  | [] => None
  | ds => Some (sign * digitsValue ds)
  end.

(** [a || b] on header values ([null] or a string). *)
Definition orHeader (a b : option jsstring) : option jsstring :=
  match a with
  | Some s => if truthy s then a else b
  | None => b
  end.

(** [retryAfterMs] as lines 268-277 compute it. *)
Definition rateLimitWindow (response : Response) : Z :=
  let retryAfterHeader :=
    orHeader (hget "retry-after-ms" (headers response))
             (hget "retry-after" (headers response)) in
  match retryAfterHeader with
  | Some h =>
      if truthy h then
        match parseInt h with
        | Some parsed =>
            (* retryAfterHeader === response.headers.get("retry-after") *)
            if bool_decide (retryAfterHeader = hget "retry-after" (headers response))
            then parsed * 1000
            else parsed
        | None => 60000
        end
      else 60000
  | None => 60000
  end.

(** [shouldRetryEndpoint] *)
Definition shouldRetryEndpoint (response : Response) : bool :=
  (status response =? 403) || (status response =? 404) ||
  (500 <=? status response).

(** *** The world around one call of [fetch] *)

(** How the promise of [refreshAccessToken] ([src/plugin/token.ts], lines
    64-175) settles: with the refreshed credentials, with [undefined], or
    with a throw (of [parseRefreshParts] or of the logger, which run outside
    the function's [try] or inside its handlers).  On the way to the last
    two it may have called [client.auth.set] with the refresh token cleared
    (lines 106-126, when the token endpoint answers [invalid_grant]);
    [cleared] tells whether it did. *)
Inductive RefreshOutcome :=
| Refreshed (updatedAuth : OAuthAuthDetails)
| NotRefreshed (cleared : bool)
| RefreshThrows (cleared : bool) (error : Exn).

(** The collaborators the loop calls, as functions of the attempt (the
    value of [accountAttempts]) and, for the network, of the endpoint
    index. *)
Class World := {
  (** [await getAuth()], seen through the type guard [isOAuthAuth]:
      [None] when the guard fails. *)
  getAuth : Exc (option OAuthAuthDetails);
  (** [fetch(input, init)], the call with the caller's own arguments. *)
  forward : Exc Response;
  (** [Date.now()] when the attempt selects its account, and when it
      marks it. *)
  clockSelect : nat → Z;
  clockMark : nat → Z;
  refreshAccessToken : nat → OAuthAuthDetails → RefreshOutcome;
  (** [ensureProjectContext]: the effective project id, or a throw. *)
  ensureProjectContext : OAuthAuthDetails → Exc (option jsstring);
  (** [fetch(request, transformedInit)]: the upstream's response, or a
      network failure. *)
  upstream : nat → nat → Prepared → Exc Response;
}.

(** What the loop does that can be observed from outside. *)
Inductive Event :=
| Answered (attempt account endpointIndex : nat) (p : Prepared)
           (outcome : Exc Response)
| Marked (attempt account : nat) (retryAfterMs : Z)
| Saved (attempt : nat)           (* client.auth.set(toAuthDetails()) *)
| Cleared (attempt account : nat).
  (* client.auth.set(clearedAuth), inside refreshAccessToken *)

(** How the [for] loop over the endpoints ends. *)
Inductive EndpointsResult :=
| Done (outcome : Exc Response)        (* [return], or a [throw] out of fetch *)
| HitRateLimit (retryAfterMs : Z)      (* [break] after a 429 *)
| Fell (lastResponse : option Response) (lastError : option Exn).

(** How the [while] loop over the accounts ends. *)
Inductive LoopExit :=
| Returned (outcome : Exc Response)
  (* a [return], or a [throw] that leaves the loop from within an attempt *)
| NoAccount (waitTimeMs : Z)
  (* [getNext()] returned null: the [throw] of lines 195-198 *)
| OutOfAttempts.
  (* the condition of the [while] failed: the [throw] of line 392 *)

(** What lines 202-214 of an attempt end with. *)
Inductive Credentials :=
| Usable (authRecord : OAuthAuthDetails) (m : AccountManager)
  (* the credentials to go on with, and the pool after [updateAccount] *)
| Unusable (cleared : bool)
  (* the [continue] after a failed refresh *)
| Rejected (cleared : bool) (error : Exn).
  (* the refresh throws, and so does [fetch] *)

(** The error thrown when the loop over the accounts runs out. *)
Definition noAccountLeft : Exn :=
  Error (lit "Failed to complete request with any account").

Section Fetch.
Context {platform : Platform} {helpers : RequestHelpers}
  {constants : Constants} {rewriter : BodyRewriter} {auth : AuthHelpers}
  {world : World}.
Variable input : RequestInfo.
Variable init0 : option RequestInit.

(** The [for] loop over [ANTIGRAVITY_ENDPOINT_FALLBACKS] (lines 229-338),
    from index [i] on, where [endpoints] are the endpoints still to try:
    [i < ANTIGRAVITY_ENDPOINT_FALLBACKS.length - 1] holds exactly when
    more than one is left. *)
Fixpoint tryEndpoints (attempt account : nat) (accessToken : jsstring)
    (effectiveProjectId : option jsstring) (i : nat) (endpoints : list jsstring)
    (lastResponse : option Response) (lastError : option Exn)
    : EndpointsResult * list Event :=
  match endpoints with
  | [] => (Fell lastResponse lastError, [])
  | currentEndpoint :: rest =>
      let notLast := negb (bool_decide (rest = [])) in
      match prepareAntigravityRequest input init0 accessToken
              effectiveProjectId (Some currentEndpoint) with
      | inl error =>
          if notLast then
            tryEndpoints attempt account accessToken effectiveProjectId
              (S i) rest lastResponse (Some error)
          else (Done (throw error), [])
      | inr p =>
          match upstream attempt i p with
          | inl error =>
              let ev := Answered attempt account i p (inl error) in
              if notLast then
                let '(res, evs) :=
                  tryEndpoints attempt account accessToken effectiveProjectId
                    (S i) rest lastResponse (Some error) in
                (res, ev :: evs)
              else (Done (throw error), [ev])
          | inr response =>
              let ev := Answered attempt account i p (inr response) in
              if status response =? 429 then
                (HitRateLimit (rateLimitWindow response), [ev])
              else if shouldRetryEndpoint response && notLast then
                let '(res, evs) :=
                  tryEndpoints attempt account accessToken effectiveProjectId
                    (S i) rest (Some response) lastError in
                (res, ev :: evs)
              else
                (Done (transformAntigravityResponse response (streaming p)
                         (meta p)),
                 [ev; Saved attempt])
          end
      end
  end.

(** The message of the error thrown when [getNext] returns null. *)
Definition allRateLimited (accountCount : nat) (waitTimeMs : Z) : Exn :=
  Error (lit "All " ++ numberToString (Z.of_nat accountCount) ++
         lit " account(s) are rate-limited. Please wait " ++
         numberToString ((waitTimeMs + 999) / 1000) ++
         lit "s or add more accounts via 'opencode auth login'.").

(** The endpoint [ep], tried as number [i] of an attempt, fails in a way
    that makes the loop go on with the next one: the request cannot be
    prepared, the network fails, or the answer is 403, 404 or 5xx. *)
Definition passedOver (attempt : nat) (accessToken : jsstring)
    (effectiveProjectId : option jsstring) (i : nat) (ep : jsstring) : Prop :=
  match prepareAntigravityRequest input init0 accessToken
          effectiveProjectId (Some ep) with
  | inl _ => True
  | inr p =>
      match upstream attempt i p with
      | inl _ => True
      | inr response => shouldRetryEndpoint response = true
      end
  end.

(** What follows the [for] loop when it ran out without a rate limit
    (lines 346-388). *)
Definition afterEndpoints (accessToken : jsstring)
    (effectiveProjectId : option jsstring)
    (lastResponse : option Response) (lastError : option Exn) : Exc Response :=
  match lastResponse with
  | Some response =>
      let* p := prepareAntigravityRequest input init0 accessToken
                  effectiveProjectId (last ANTIGRAVITY_ENDPOINT_FALLBACKS) in
      transformAntigravityResponse response (streaming p) (meta p)
  | None =>
      throw (default (Error (lit "All Antigravity endpoints failed")) lastError)
  end.

(** Lines 202-214 of an attempt: the credentials of the selected account,
    refreshed when they have expired. *)
Definition freshCredentials (attempt r : nat) (m1 : AccountManager)
    : Credentials :=
  (* the object the reference denotes *)
  let account := accounts m1 !!! r in
  let authRecord := accountToAuth account in
  if accessTokenExpired authRecord then
    match refreshAccessToken attempt authRecord with
    | NotRefreshed cleared => Unusable cleared
    | RefreshThrows cleared error => Rejected cleared error
    | Refreshed refreshed =>
        Usable refreshed
          (updateAccount r (authAccess refreshed) (authExpires refreshed)
             (parseRefreshParts (refresh refreshed)) m1)
    end
  else Usable authRecord m1.

(** The [while] loop (lines 188-389): [remaining] is
    [maxAccountAttempts - accountAttempts], [attempt] is [accountAttempts].
    The result is how the loop ends, the account pool at that moment, and
    the events in order. *)
Fixpoint dispatch (remaining attempt : nat) (m : AccountManager)
    : LoopExit * AccountManager * list Event :=
  match remaining with
  | O => (OutOfAttempts, m, [])
  | S remaining' =>
      (* [accountAttempts++; continue], after the events [evs] *)
      let continue (m' : AccountManager) (evs : list Event) :=
        let '(exit, m'', evs') := dispatch remaining' (S attempt) m' in
        (exit, m'', evs ++ evs') in
      let '(selected, m1) := getNext (clockSelect attempt) m in
      match selected with
      | None => (NoAccount (getMinWaitTime (clockSelect attempt) m1), m1, [])
      | Some r =>
          match freshCredentials attempt r m1 with
          | Unusable cleared =>
              continue m1 (if cleared then [Cleared attempt r] else [])
          | Rejected cleared error =>
              (Returned (throw error), m1,
               if cleared then [Cleared attempt r] else [])
          | Usable authRecord m2 =>
              match authAccess authRecord with
              | Some accessToken =>
                  if truthy accessToken then
                    match ensureProjectContext authRecord with
                    | inl error => (Returned (throw error), m2, [])
                    | inr effectiveProjectId =>
                        let '(res, evs) :=
                          tryEndpoints attempt r accessToken effectiveProjectId
                            0 ANTIGRAVITY_ENDPOINT_FALLBACKS None None in
                        match res with
                        | Done outcome => (Returned outcome, m2, evs)
                        | HitRateLimit retryAfterMs =>
                            continue
                              (markRateLimited r retryAfterMs
                                 (clockMark attempt) m2)
                              (evs ++ [Marked attempt r retryAfterMs])
                        | Fell lastResponse lastError =>
                            (Returned
                               (afterEndpoints accessToken effectiveProjectId
                                  lastResponse lastError),
                             m2, evs)
                        end
                    end
                  else continue m2 []
              | None => continue m2 []
              end
          end
      end
  end.

(** What the promise of [fetch] settles with after the loop. *)
Definition settle (accountCount : nat) (exit : LoopExit) : Exc Response :=
  match exit with
  | Returned outcome => outcome
  | NoAccount waitTimeMs => throw (allRateLimited accountCount waitTimeMs)
  | OutOfAttempts => throw noAccountLeft
  end.

End Fetch.

End Plugin.

(** ** Sample platform and responses, for the examples *)
Module Samples.
Import JsString Runtime Request.

Definition QUOTE : ascii := ascii_of_nat 34.

Definition quoted (s : jsstring) : jsstring := [QUOTE] ++ s ++ [QUOTE].

(** A plain serialiser (no escaping), enough for the sample values. *)
Fixpoint stringify (v : Json) : jsstring :=
  match v with
  | JNull => lit "null"
  | JBool b => if b then lit "true" else lit "false"
  | JNum n => numberToString n
  | JStr s => quoted s
  | JArr items =>
      lit "[" ++
      (fix go (l : list Json) : jsstring :=
         match l with
         | [] => []
         | [x] => stringify x
         | x :: rest => stringify x ++ lit "," ++ go rest
         end) items ++
      lit "]"
  | JObj props =>
      lit "{" ++
      (fix go (l : list (jsstring * Json)) : jsstring :=
         match l with
         | [] => []
         | [(k, x)] => quoted k ++ lit ":" ++ stringify x
         | (k, x) :: rest => quoted k ++ lit ":" ++ stringify x ++ lit "," ++ go rest
         end) props ++
      lit "}"
  end.

(** The error body of a rate-limited call, with a structured retry delay. *)
Definition retryInfoError : Json :=
  JObj [(lit "error",
         JObj [(lit "code", JNum 429);
               (lit "message", JStr (lit "Resource has been exhausted"));
               (lit "status", JStr (lit "RESOURCE_EXHAUSTED"));
               (lit "details",
                JArr [JObj [(lit "@type", JStr RETRY_INFO_TYPE);
                            (lit "retryDelay", JStr (lit "3.5s"))]])])].

(** A parser that knows the sample texts. *)
Definition sampleParse (known : list Json) (text : jsstring) : option Json :=
  List.find (λ v, bool_decide (stringify v = text)) known.

Definition samplePlatform : Platform :=
  {| JSON_parse := sampleParse [retryInfoError];
     JSON_stringify := stringify;
     ToString := stringify;
     decoderState := unit;
     decoderInit := tt;
     decodeByte := λ d b, (d, [ascii_of_byte b]);
     decodeEnd := λ _, [];
     encode := fmap byte_of_ascii |}.

Definition sampleHelpers : RequestHelpers :=
  {| transformThinkingParts := ret;
     extractUsageFromSsePayload := λ _, ret None;
     extractUsageMetadata := λ _, ret None;
     parseAntigravityApiBody := λ text, ret (sampleParse [retryInfoError] text);
     rewriteAntigravityPreviewAccessError := λ _ _ _, ret None;
     retryDelayValues := λ s, Some (s, s ++ lit "000") |}.

Definition sampleMeta : RequestMeta :=
  {| requestedModel := Some (lit "gemini-3-pro-high");
     metaProjectId := Some (lit "proj");
     endpoint := Some (lit "https://daily.example/v1internal:generateContent");
     effectiveModel := Some (lit "gemini-3-pro-high");
     toolDebugMissing := Some 0;
     toolDebugSummary := None;
     toolDebugPayload := None |}.

Definition jsonHeaders : Headers :=
  hset "content-type" (lit "application/json") ∅.

(** HTTP 429 whose JSON body carries [RetryInfo] with [retryDelay: 3.5s]. *)
Definition rateLimitedResponse : Response :=
  {| status := 429; statusText := lit "Too Many Requests";
     headers := jsonHeaders;
     body := BodyText (stringify retryInfoError) |}.

(** HTTP 500 with a JSON content type whose body stream fails. *)
Definition brokenResponse : Response :=
  {| status := 500; statusText := lit "Internal Server Error";
     headers := jsonHeaders;
     body := BodyStream [] true |}.

(** An error body whose [error] is a string, and a platform whose parser
    knows it. *)
Definition quotaError : Json :=
  JObj [(lit "error", JStr (lit "quota exceeded"))].

Definition quotaPlatform : Platform :=
  {| JSON_parse := sampleParse [quotaError];
     JSON_stringify := stringify;
     ToString := stringify;
     decoderState := unit;
     decoderInit := tt;
     decodeByte := λ d b, (d, [ascii_of_byte b]);
     decodeEnd := λ _, [];
     encode := fmap byte_of_ascii |}.

(** HTTP 500 with that body. *)
Definition quotaResponse : Response :=
  {| status := 500; statusText := lit "Internal Server Error";
     headers := jsonHeaders;
     body := BodyText (stringify quotaError) |}.

Definition sampleConstants : Constants :=
  {| ANTIGRAVITY_ENDPOINT := lit "https://prod.example";
     ANTIGRAVITY_ENDPOINT_FALLBACKS :=
       [lit "https://daily.example"; lit "https://autopush.example";
        lit "https://prod.example"];
     ANTIGRAVITY_HEADERS_User_Agent := lit "antigravity/1.0";
     ANTIGRAVITY_HEADERS_X_Goog_Api_Client := lit "gl-node/22";
     ANTIGRAVITY_HEADERS_Client_Metadata := lit "ideType=IDE_UNSPECIFIED" |}.

(** A rewriter that wraps the body in brackets. *)
Definition sampleRewriter : BodyRewriter :=
  {| rewriteBody := λ b model pid,
       ret {| newBody := lit "[" ++ b ++ lit "]"; newProjectId := pid;
              newToolDebugMissing := 0; newToolDebugSummaries := [];
              newToolDebugPayload := None |} |}.

Definition sampleUrl : jsstring :=
  lit "https://generativelanguage.googleapis.com/v1beta/models/gemini-3-pro-high:generateContent".

Definition sampleStreamUrl : jsstring :=
  lit "https://generativelanguage.googleapis.com/v1beta/models/gemini-3-pro-high:streamGenerateContent?alt=sse".

End Samples.

(** ** Sample worlds, for the examples *)
Module PluginSamples.
Import JsString Accounts Runtime Request Plugin Samples.

Definition plainResponse (s : Z) (hs : Headers) : Response :=
  {| status := s; statusText := []; headers := hs; body := BodyNull |}.

(** The functions of [./plugin/auth] for the examples: the encoding of the
    tests, and credentials that count as expired when they hold no access
    token. *)
Definition sampleAuthHelpers : AuthHelpers :=
  {| accessTokenExpired := λ auth,
       match authAccess auth with Some _ => false | None => true end;
     parseRefreshParts := Auth.parseRefreshParts;
     formatRefreshParts := Auth.formatRefreshParts;
     parseMultiAccountRefresh := Auth.parseMultiAccountRefresh;
     formatMultiAccountRefresh := Auth.formatMultiAccountRefresh |}.

(** Stored credentials of two accounts; the access token is the first
    account's. *)
Definition storedAuth : OAuthAuthDetails :=
  {| refresh := lit "r1|proj||r2|proj";
     authAccess := Some (lit "access-r1");
     authExpires := Some 9999999 |}.

(** A refresh that succeeds. *)
Definition refreshedAuth (auth : OAuthAuthDetails) : OAuthAuthDetails :=
  {| refresh := refresh auth;
     authAccess := Some (lit "access-fresh");
     authExpires := Some 9999999 |}.

(** A world with a steady clock, the stored credentials above, a token
    endpoint that refreshes, and the given upstream. *)
Definition worldOf (up : nat → nat → Exc Response) : World :=
  {| getAuth := ret (Some storedAuth);
     forward := ret (plainResponse 200 ∅);
     clockSelect := λ attempt, 1000 + Z.of_nat attempt;
     clockMark := λ attempt, 1000 + Z.of_nat attempt;
     refreshAccessToken := λ _ auth, Refreshed (refreshedAuth auth);
     ensureProjectContext := λ _, ret (Some (lit "proj"));
     upstream := λ attempt i _, up attempt i |}.

(** The first endpoint answers 404, the others 200. *)
Definition notFoundThenOk : World :=
  worldOf (λ _ i, if bool_decide (i = 0%nat)
                  then ret (plainResponse 404 ∅)
                  else ret (plainResponse 200 ∅)).

(** HTTP 429 carrying both retry headers, with the same text. *)
Definition bothRetryHeaders : Headers :=
  hset "retry-after" (lit "15000") (hset "retry-after-ms" (lit "15000") ∅).

(** The first account is answered 429 with [bothRetryHeaders], the second
    one 200. *)
Definition rateLimitedThenOk : World :=
  worldOf (λ attempt _, if bool_decide (attempt = 0%nat)
                        then ret (plainResponse 429 bothRetryHeaders)
                        else ret (plainResponse 200 ∅)).

End PluginSamples.

(** ** The account pool, continued: construction and maintenance

    The remaining methods of [AccountManager] in [src/plugin/accounts.ts].
    The parsers and formatters of [src/plugin/auth.ts] are arguments
    here. *)
Module AccountOps.
Import JsString Accounts Plugin.

Definition set_index (i : nat) (a : ManagedAccount) : ManagedAccount :=
  {| index := i; parts := parts a; access := access a;
     expires := expires a; isRateLimited := isRateLimited a;
     rateLimitResetTime := rateLimitResetTime a; lastUsed := lastUsed a |}.

(** A fresh account object, as the constructor and [addAccount] build it. *)
Definition freshAccount (i : nat) (p : RefreshParts)
    (acc : option jsstring) (ex : option Z) : ManagedAccount :=
  {| index := i; parts := p; access := acc; expires := ex;
     isRateLimited := false; rateLimitResetTime := 0; lastUsed := 0 |}.

Section Construction.
Variable parseMultiAccountRefresh : jsstring → list RefreshParts.
Variable parseRefreshParts : jsstring → RefreshParts.
Variable formatMultiAccountRefresh : list RefreshParts → jsstring.

(** [new AccountManager(auth)] (lines 26-52) *)
Definition construct (auth : OAuthAuthDetails) : AccountManager :=
  let multiAccount := parseMultiAccountRefresh (refresh auth) in
  if (0 <? length multiAccount)%nat then
    {| accounts :=
         imap (λ i p,
                 freshAccount i p
                   (if bool_decide (i = 0%nat) then authAccess auth else None)
                   (if bool_decide (i = 0%nat) then authExpires auth else None))
              multiAccount;
       currentIndex := 0 |}
  else
    {| accounts :=
         [freshAccount 0 (parseRefreshParts (refresh auth))
            (authAccess auth) (authExpires auth)];
       currentIndex := 0 |}.

(** [toAuthDetails()] (lines 114-125) *)
Definition toAuthDetails (m : AccountManager) : OAuthAuthDetails :=
  {| refresh := formatMultiAccountRefresh (parts <$> accounts m);
     authAccess := head (accounts m) ≫= access;
     authExpires := head (accounts m) ≫= expires |}.

End Construction.

(** [addAccount(parts, access, expires)] (lines 130-140) *)
Definition addAccount (p : RefreshParts) (acc : option jsstring)
    (ex : option Z) (m : AccountManager) : AccountManager :=
  {| accounts := accounts m ++ [freshAccount (length (accounts m)) p acc ex];
     currentIndex := currentIndex m |}.

(** [removeAccount(index)] (lines 146-154), for an integer [index]: the
    returned boolean and the manager afterwards. *)
Definition removeAccount (i : Z) (m : AccountManager) : bool * AccountManager :=
  if (i <? 0) || (Z.of_nat (length (accounts m)) <=? i) then (false, m)
  else
    (true,
     {| accounts := imap set_index (delete (Z.to_nat i) (accounts m));
        currentIndex := currentIndex m |}).

(** The [index] field of every account is its position in the pool. *)
Definition well_indexed (l : list ManagedAccount) : Prop :=
  ∀ i a, l !! i = Some a → index a = i.

(** The pool [l'] answers every eligibility question, at the times when
    the eligible accounts of [l] are [E], as [l] does. *)
Definition same_eligibility (l : list ManagedAccount) (E : list nat)
    (l' : list ManagedAccount) : Prop :=
  length l' = length l ∧
  ∀ t, available t l = E →
    ∀ i a a', l !! i = Some a → l' !! i = Some a' →
      eligible t a' = eligible t a.

(** The three-account pool with its second account rate-limited at time 0
    for a minute. *)
Definition pool3_limited : AccountManager := markRateLimited 1 60000 0 pool3.

(** One call of a method that changes the pool.  Accounts are named by
    reference, as the methods take them. *)
Inductive Call :=
  | CallGetNext (now : Z)
  | CallMarkRateLimited (r : nat) (retryAfterMs now : Z)
  | CallUpdateAccount (r : nat) (acc : option jsstring) (ex : option Z)
      (p : RefreshParts)
  | CallAddAccount (p : RefreshParts) (acc : option jsstring) (ex : option Z)
  | CallRemoveAccount (i : Z).

Definition call (m : AccountManager) (c : Call) : AccountManager :=
  match c with
  | CallGetNext now => (getNext now m).2
  | CallMarkRateLimited r retryAfterMs now => markRateLimited r retryAfterMs now m
  | CallUpdateAccount r acc ex p => updateAccount r acc ex p m
  | CallAddAccount p acc ex => addAccount p acc ex m
  | CallRemoveAccount i => (removeAccount i m).2
  end.

Definition calls (cs : list Call) (m : AccountManager) : AccountManager :=
  foldl call m cs.

(** A pool of two accounts with project ids, in use: tokens on both, the
    first account rate-limited, the cursor advanced. *)
Definition usedPool : AccountManager :=
  {| accounts :=
       [ {| index := 0; parts := Auth.mkParts "r1" (Some "p1") None;
            access := Some (lit "a1"); expires := Some 1000;
            isRateLimited := true; rateLimitResetTime := 60000;
            lastUsed := 50 |};
         {| index := 1; parts := Auth.mkParts "r2" (Some "p2") (Some "m2");
            access := Some (lit "a2"); expires := Some 2000;
            isRateLimited := false; rateLimitResetTime := 0;
            lastUsed := 70 |} ];
     currentIndex := 3 |}.

End AccountOps.

(** ** The line-by-line transformer: [createStreamingTransformer] of
    [src/plugin/request.ts] (lines 102-129)

    [transformSseLine] (lines 134-150) has the body of the callback in
    [transformStreamingPayload]; it is [Request.transformLine]. *)
Module LineStream.
Import JsString Runtime Request.

Section LineStream.
Context {platform : Platform} {helpers : RequestHelpers}.

(** [transform(chunk, controller)]: the new state and what is enqueued. *)
Definition lineTransform (st : StreamState) (chunk : list Byte.byte)
    : StreamState * list (list Byte.byte) :=
  let '(d, text) := decodeChunk (decoder st) chunk in
  let buffer1 := buffer st ++ text in
  let lines := split buffer1 [LF] in
  let '(popped, lines1) := pop lines in
  let buffer2 := default [] popped in        (* lines.pop() || the empty string *)
  ({| decoder := d; buffer := buffer2 |},
   (λ line, encode (transformLine line ++ [LF])) <$> lines1).

(** [flush(controller)]: the decoder is not flushed here. *)
Definition lineFlush (st : StreamState) : list (list Byte.byte) :=
  if truthy (buffer st) then [encode (transformLine (buffer st))] else [].

(** The chunks enqueued when the chunks of a source go through the
    transformer and the source then ends. *)
Fixpoint linePipe (st : StreamState) (chunks : list (list Byte.byte))
    : list (list Byte.byte) :=
  match chunks with
  | [] => lineFlush st
  | chunk :: rest =>
      let '(st1, out) := lineTransform st chunk in
      out ++ linePipe st1 rest
  end.

Definition createStreamingTransformer (chunks : list (list Byte.byte))
    : list (list Byte.byte) :=
  linePipe streamInit chunks.

(** The texts whose encodings the transformer enqueues for a decoded
    text: every finished line, transformed, with its line feed; then the
    unfinished rest, transformed, when it is not empty. *)
Definition linePieces (text : jsstring) : list jsstring :=
  ((λ line, transformLine line ++ [LF]) <$> removelast (split text [LF])) ++
  (if truthy (default [] (last (split text [LF])))
   then [transformLine (default [] (last (split text [LF])))] else []).

(** The text a [TextDecoder] in streaming mode has produced for the bytes
    so far. *)
Definition decoded (bytes : list Byte.byte) : jsstring :=
  (decodeChunk decoderInit bytes).2.

(** A line that [transformLine] has no reason to touch: it does not start
    with [data:], or what follows is not JSON, or the JSON value has no
    [response] property. *)
Definition untouched (line : jsstring) : Prop :=
  startsWith line (lit "data:") = false ∨
  JSON_parse (trim (slice_from 5 line)) = None ∨
  ∃ v, JSON_parse (trim (slice_from 5 line)) = Some v ∧
       getProp v (lit "response") = None.

End LineStream.

End LineStream.

(** ** Sample streams *)
Module StreamSamples.
Import JsString Runtime Request Samples.

Definition bytes (s : jsstring) : list Byte.byte := byte_of_ascii <$> s.

(** A comment, a field, the end marker and the blank line. *)
Definition keepAlive : jsstring :=
  lit ": ping" ++ [LF] ++ lit "event: done" ++ [LF] ++ lit "data: [DONE]" ++
  [LF; LF].

Definition eventStreamHeaders : Headers :=
  hset "content-type" (lit "text/event-stream") ∅.

(** HTTP 200 whose event stream delivers one event and a half, cut inside
    the delimiter, and then fails. *)
Definition interruptedStream : Response :=
  {| status := 200; statusText := lit "OK";
     headers := eventStreamHeaders;
     body := BodyStream [bytes (lit "data: one" ++ [LF]);
                         bytes ([LF] ++ lit "data: tw")] true |}.

End StreamSamples.

(** ** Request preparation, continued *)
Module PrepareMore.
Import JsString Runtime Request.

(** The header names [prepareAntigravityRequest] writes or deletes, as
    [Headers] keeps them. *)
Definition managedHeaders : list jsstring :=
  (λ name, toLowerCase (lit name)) <$>
    ["Authorization"; "x-api-key"; "Accept"; "User-Agent";
     "X-Goog-Api-Client"; "Client-Metadata"; "X-Opencode-Tools-Debug"]%string.

(** The header names [transformAntigravityResponse] writes. *)
Definition usageHeaderNames : list jsstring :=
  (λ name, toLowerCase (lit name)) <$>
    ["x-antigravity-cached-content-token-count";
     "x-antigravity-total-token-count";
     "x-antigravity-prompt-token-count";
     "x-antigravity-candidates-token-count"]%string.

(** [[a-zA-Z0-9_-]] *)
Definition isToolNameChar (c : ascii) : bool :=
  let n := nat_of_ascii c in
  ((97 <=? n)%nat && (n <=? 122)%nat) || ((65 <=? n)%nat && (n <=? 90)%nat) ||
  ((48 <=? n)%nat && (n <=? 57)%nat) || (n =? 95)%nat || (n =? 45)%nat.

(** [name.replace(/[^a-zA-Z0-9_-]/g, "_").slice(0, 64)] (line 358), on the
    string [String(name)]. *)
Definition sanitizeToolName (name : jsstring) : jsstring :=
  take 64 ((λ c, if isToolNameChar c then c else "_"%char) <$> name).

End PrepareMore.

(** ** The dispatch loop, continued *)
Module PluginMore.
Import JsString Accounts Runtime Request Plugin PluginSamples.

(** The attempt (the value of [accountAttempts]) an event belongs to. *)
Definition attemptOf (ev : Event) : nat :=
  match ev with
  | Answered attempt _ _ _ _ => attempt
  | Marked attempt _ _ => attempt
  | Saved attempt => attempt
  | Cleared attempt _ => attempt
  end.

Definition isSaved (ev : Event) : bool :=
  match ev with
  | Saved _ => true
  | _ => false
  end.

(** The events that are calls of [client.auth.set]. *)
Definition isAuthSet (ev : Event) : bool :=
  match ev with
  | Saved _ | Cleared _ _ => true
  | _ => false
  end.

(** The calls of [client.auth.set] that belong to attempt [a]. *)
Definition authSets (a : nat) (log : list Event) : list Event :=
  List.filter (λ ev, isAuthSet ev && (attemptOf ev =? a)%nat) log.

(** The number of accounts that carry the rate-limit flag. *)
Definition flagged (l : list ManagedAccount) : nat :=
  length (List.filter isRateLimited l).

(** The pool of attempt [k] of a call over [n] accounts: it has its [n]
    accounts, and at most [k] of them carry the flag. *)
Definition inCall (n k : nat) (m : AccountManager) : Prop :=
  length (accounts m) = n ∧ (flagged (accounts m) ≤ k)%nat.

Section Attempts.
Context {platform : Platform} {helpers : RequestHelpers}
  {constants : Constants} {rewriter : BodyRewriter} {auth : AuthHelpers}
  {world : World}.
Variable input : RequestInfo.
Variable init0 : option RequestInit.

(** An attempt that ends with [accountAttempts++; continue]: the pool it
    starts from, the pool it leaves, and what it logged.  The three ways
    are a refresh that fails, credentials without access token, and the
    [break] after a 429. *)
Inductive HandsOver (attempt : nat) (m : AccountManager)
    : AccountManager → list Event → Prop :=
| refresh_failed r m1 cleared :
    getNext (clockSelect attempt) m = (Some r, m1) →
    freshCredentials attempt r m1 = Unusable cleared →
    HandsOver attempt m m1 (if cleared then [Cleared attempt r] else [])
| no_token r m1 authRecord m2 :
    getNext (clockSelect attempt) m = (Some r, m1) →
    freshCredentials attempt r m1 = Usable authRecord m2 →
    match authAccess authRecord with
    | Some tok => truthy tok = false
    | None => True
    end →
    HandsOver attempt m m2 []
| rate_limited r m1 authRecord m2 tok pid retryAfterMs evs :
    getNext (clockSelect attempt) m = (Some r, m1) →
    freshCredentials attempt r m1 = Usable authRecord m2 →
    authAccess authRecord = Some tok → truthy tok = true →
    ensureProjectContext authRecord = ret pid →
    tryEndpoints input init0 attempt r tok pid 0
      ANTIGRAVITY_ENDPOINT_FALLBACKS None None
      = (HitRateLimit retryAfterMs, evs) →
    HandsOver attempt m
      (markRateLimited r retryAfterMs (clockMark attempt) m2)
      (evs ++ [Marked attempt r retryAfterMs]).

End Attempts.

(** Every upstream answer is a plain 200. *)
Definition alwaysOk : World :=
  worldOf (λ _ _, ret (plainResponse 200 ∅)).

(** Every upstream answer is a 429 without retry headers. *)
Definition alwaysRateLimited : World :=
  worldOf (λ _ _, ret (plainResponse 429 ∅)).

(** A world in which the platform's [fetch] answers the caller's own
    request with a 429. *)
Definition limitedElsewhere : World :=
  {| getAuth := ret (Some storedAuth);
     forward := ret (plainResponse 429 ∅);
     clockSelect := λ attempt, 1000 + Z.of_nat attempt;
     clockMark := λ attempt, 1000 + Z.of_nat attempt;
     refreshAccessToken := λ _ auth, Refreshed (refreshedAuth auth);
     ensureProjectContext := λ _, ret (Some (lit "proj"));
     upstream := λ _ _ _, ret (plainResponse 200 ∅) |}.

(** A URL that is not of the watched API. *)
Definition otherUrl : jsstring := lit "https://example.com/v1/models".

(** The token endpoint refuses every refresh with [invalid_grant]. *)
Definition revoked (up : nat → nat → Exc Response) : World :=
  {| getAuth := ret (Some storedAuth);
     forward := ret (plainResponse 200 ∅);
     clockSelect := λ attempt, 1000 + Z.of_nat attempt;
     clockMark := λ attempt, 1000 + Z.of_nat attempt;
     refreshAccessToken := λ _ _, NotRefreshed true;
     ensureProjectContext := λ _, ret (Some (lit "proj"));
     upstream := λ attempt i _, up attempt i |}.

End PluginMore.

(** ** OAuth error payloads: [parseOAuthErrorPayload] of
    [src/plugin/token.ts] (lines 25-59) *)
Module Token.
Import JsString Runtime.



(** [v && typeof v === "object"] *)
Definition isObject (v : option Json) : bool :=
  match v with
  | Some (JObj _) | Some (JArr _) => true
  | _ => false
  end.

(** [a ?? b] *)
Definition nullish (a b : option Json) : option Json :=
  match a with
  | None | Some JNull => b
  | _ => a
  end.

Section Parse.
Context {platform : Platform}.


End Parse.

End Token.

(** ** The storage-backed account pool: the second [AccountManager] of the
    repository

    Its accounts carry an e-mail address and the reason of the last switch
    besides the fields of [Accounts.ManagedAccount]; [getNext],
    [markRateLimited], [getMinWaitTime] and the others are the same code and
    act on the common fields. *)
Module StoredAccounts.
Import JsString Accounts Plugin AccountOps.

Inductive SwitchReason := RateLimit | Initial | Rotation.

Record StoredManagedAccount := {
  common : ManagedAccount;
  email : option jsstring;
  lastSwitchReason : option SwitchReason;
}.

(** An entry of the storage file, and the file ([AccountStorage] of
    [./storage]); [activeIndex] is a non-negative integer, as [save] writes
    it. *)
Record StoredEntry := {
  storedEmail : option jsstring;
  storedRefreshToken : jsstring;
  storedProjectId : option jsstring;
  storedManagedProjectId : option jsstring;
  addedAt : Z;
  storedLastUsed : Z;
  storedLastSwitchReason : option SwitchReason;
}.

Record AccountStorage := {
  version : Z;
  storedAccounts : list StoredEntry;
  activeIndex : nat;
}.

Record StoredAccountManager := {
  managed : list StoredManagedAccount;
  cursor : nat;                  (* [currentIndex] *)
  currentAccountIndex : Z;
}.

(** The pool as the shared methods see it. *)
Definition pool (m : StoredAccountManager) : AccountManager :=
  {| accounts := common <$> managed m; currentIndex := cursor m |}.

Section Construction.
Variable parseMultiAccountRefresh : jsstring → list RefreshParts.
Variable parseRefreshParts : jsstring → RefreshParts.

(** [new AccountManager(auth, storedAccounts)] (lines 30-77); a missing or
    null second argument is [None]. *)
Definition load (auth : OAuthAuthDetails) (stored : option AccountStorage)
    : StoredAccountManager :=
  match stored with
  | Some storage =>
      if (0 <? length (storedAccounts storage))%nat then
        {| managed :=
             imap (λ i acc,
                     {| common :=
                          {| index := i;
                             parts :=
                               {| refreshToken := storedRefreshToken acc;
                                  projectId := storedProjectId acc;
                                  managedProjectId :=
                                    storedManagedProjectId acc |};
                             access := if bool_decide (i = 0%nat)
                                       then authAccess auth else None;
                             expires := if bool_decide (i = 0%nat)
                                        then authExpires auth else None;
                             isRateLimited := false;
                             rateLimitResetTime := 0;
                             lastUsed := storedLastUsed acc |};
                        email := storedEmail acc;
                        lastSwitchReason := storedLastSwitchReason acc |})
                  (storedAccounts storage);
           cursor := activeIndex storage;    (* [activeIndex || 0] *)
           currentAccountIndex := -1 |}
      else
        {| managed :=
             (λ a, {| common := a; email := None; lastSwitchReason := None |})
               <$> accounts (construct parseMultiAccountRefresh
                               parseRefreshParts auth);
           cursor := 0; currentAccountIndex := -1 |}
  | None =>
      {| managed :=
           (λ a, {| common := a; email := None; lastSwitchReason := None |})
             <$> accounts (construct parseMultiAccountRefresh
                             parseRefreshParts auth);
         cursor := 0; currentAccountIndex := -1 |}
  end.

End Construction.

(** The storage object built by [save()] (lines 83-95), at time [now]. *)
Definition save (now : Z) (m : StoredAccountManager) : AccountStorage :=
  {| version := 1;
     storedAccounts :=
       (λ acc,
          {| storedEmail := email acc;
             storedRefreshToken := refreshToken (parts (common acc));
             storedProjectId := projectId (parts (common acc));
             storedManagedProjectId := managedProjectId (parts (common acc));
             addedAt := if lastUsed (common acc) =? 0 then now
                        else lastUsed (common acc);
             storedLastUsed := lastUsed (common acc);
             storedLastSwitchReason := lastSwitchReason acc |})
         <$> managed m;
     activeIndex := (cursor m mod (1 `max` length (managed m)))%nat |}.

(** [getCurrentAccount()] (lines 103-108): a reference, or null. *)
Definition getCurrentAccount (m : StoredAccountManager) : option nat :=
  if (0 <=? currentAccountIndex m) &&
     (currentAccountIndex m <? Z.of_nat (length (managed m)))
  then Some (Z.to_nat (currentAccountIndex m))
  else None.

(** [markSwitched(account, reason)] (lines 113-116), on the account
    referenced by [r]. *)
Definition markSwitched (r : nat) (reason : SwitchReason)
    (m : StoredAccountManager) : StoredAccountManager :=
  match managed m !! r with
  | Some account =>
      {| managed :=
           alter (λ a, {| common := common a; email := email a;
                          lastSwitchReason := Some reason |}) r (managed m);
         cursor := cursor m;
         currentAccountIndex := Z.of_nat (index (common account)) |}
  | None => m
  end.

(** What a reloaded account keeps of the account it was saved from. *)
Definition reloaded (i : nat) (auth : OAuthAuthDetails)
    (a : StoredManagedAccount) : StoredManagedAccount :=
  {| common :=
       {| index := i; parts := parts (common a);
          access := if bool_decide (i = 0%nat) then authAccess auth else None;
          expires := if bool_decide (i = 0%nat) then authExpires auth else None;
          isRateLimited := false; rateLimitResetTime := 0;
          lastUsed := lastUsed (common a) |};
     email := email a;
     lastSwitchReason := lastSwitchReason a |}.

(** A storage-backed pool in use. *)
Definition storedPool : StoredAccountManager :=
  {| managed :=
       [ {| common :=
              {| index := 0; parts := Auth.mkParts "r1" (Some "p1") None;
                 access := Some (lit "a1"); expires := Some 1000;
                 isRateLimited := true; rateLimitResetTime := 60000;
                 lastUsed := 50 |};
            email := Some (lit "a@example.com");
            lastSwitchReason := Some Initial |};
         {| common := mkAccount 1 "r2"; email := None;
            lastSwitchReason := None |} ];
     cursor := 5; currentAccountIndex := -1 |}.

End StoredAccounts.

(** ** Tool schemas: [sanitizeSchema] in [prepareAntigravityRequest]
    (lines 286-322 of [src/plugin/request.ts])

    A JSON object is read as the list of its own properties in the order
    of [Object.keys] (the keys are distinct); an array has the keys [0],
    [1], ... *)
Module Schema.
Import JsString Runtime.

(** [key === "anyOf" || key === "allOf" || key === "oneOf"] *)
Definition isCombinator (key : jsstring) : bool :=
  bool_decide (key = lit "anyOf") || bool_decide (key = lit "allOf") ||
  bool_decide (key = lit "oneOf").

(** [value && typeof value === "object"] *)
Definition isObjectValue (v : Json) : bool :=
  match v with
  | JObj _ | JArr _ => true
  | _ => false
  end.

(** [value.anyOf || value.allOf || value.oneOf], as a condition. *)
Definition hasCombinator (v : Json) : bool :=
  truthyOpt (getProp v (lit "anyOf")) || truthyOpt (getProp v (lit "allOf")) ||
  truthyOpt (getProp v (lit "oneOf")).

(** An assignment [target[key] = value] on a plain object creates no
    property when the key is [__proto__] (it sets the prototype, which
    [JSON.stringify] does not show). *)
Definition isProto (key : jsstring) : bool :=
  bool_decide (key = lit "__proto__").

(** The key of the [i]-th element of an array. *)
Definition indexKey (i : nat) : jsstring := numberToString (Z.of_nat i).

(** The properties of an array, as [Object.keys] and [array[key]] give
    them. *)
Fixpoint indexed (i : nat) (items : list Json) : list (jsstring * Json) :=
  match items with
  | [] => []
  | v :: rest => (indexKey i, v) :: indexed (S i) rest
  end.

(** The loop over [Object.keys(value)] in the [properties] branch, for an
    object and for an array; [sanitize] is the function itself. *)
Definition eachProperty (sanitize : Json → Json)
    : list (jsstring * Json) → list (jsstring * Json) :=
  fix go l :=
    match l with
    | [] => []
    | (propKey, v) :: rest =>
        if isProto propKey then go rest
        else (propKey, sanitize v) :: go rest
    end.

Definition eachItem (sanitize : Json → Json)
    : nat → list Json → list (jsstring * Json) :=
  fix go i l :=
    match l with
    | [] => []
    | v :: rest => (indexKey i, sanitize v) :: go (S i) rest
    end.

(** The body of the loop over [Object.keys(schema)]: the property it sets
    on [sanitized], if any. *)
Definition sanitizeKey (sanitize : Json → Json) (key : jsstring)
    (value : Json) : option (jsstring * Json) :=
  if isCombinator key then None
  else if bool_decide (key = lit "items") && isObjectValue value then
    if hasCombinator value then Some (key, JObj [])
    else Some (key, sanitize value)
  else if bool_decide (key = lit "properties") && isObjectValue value then
    Some (key,
          JObj match value with
               | JObj vprops => eachProperty sanitize vprops
               | JArr vitems => eachItem sanitize 0%nat vitems
               | _ => []
               end)
  else if bool_decide (key = lit "additionalProperties") &&
          isObjectValue value
  then Some (key, sanitize value)
  else if isProto key then None
  else Some (key, value).

Definition eachKey (sanitize : Json → Json)
    : list (jsstring * Json) → list (jsstring * Json) :=
  fix go l :=
    match l with
    | [] => []
    | (key, value) :: rest =>
        match sanitizeKey sanitize key value with
        | Some property => property :: go rest
        | None => go rest
        end
    end.

Fixpoint sanitizeSchema (schema : Json) : Json :=
  match schema with
  | JObj props => JObj (eachKey sanitizeSchema props)
  | JArr items => JObj (indexed 0 items)
  | _ => schema                (* [!schema || typeof schema !== "object"] *)
  end.




(** A schema with a combinator under [items], one under a property, and
    one under a key that is not walked. *)
Definition sampleSchema : Json :=
  JObj [(lit "type", JStr (lit "object"));
        (lit "anyOf", JArr [JObj []]);
        (lit "properties",
         JObj [(lit "tags",
                JObj [(lit "type", JStr (lit "array"));
                      (lit "items", JObj [(lit "oneOf", JArr [JObj []])])]);
               (lit "mode",
                JObj [(lit "allOf", JArr [JObj []]);
                      (lit "description", JStr (lit "how"))])]);
        (lit "not", JObj [(lit "anyOf", JArr [JObj []])])].

End Schema.

(** ** The cached-content block of [prepareAntigravityRequest]
    (lines 255-276 of [src/plugin/request.ts])

    [requestPayload] is a plain object (a copy of the parsed body); it is
    given by its properties. *)
Module Payload.
Import JsString Runtime Token.

(** [delete obj[k]] *)
Definition delAssoc (k : jsstring) (props : list (jsstring * Json))
    : list (jsstring * Json) :=
  List.filter (λ kv, negb (bool_decide (kv.1 = k))) props.

Definition cachedContentBlock (requestPayload : list (jsstring * Json))
    : list (jsstring * Json) :=
  let extra_body := assoc (lit "extra_body") requestPayload in
  let cachedContentFromExtra :=
    if isObject extra_body
    then nullish (optProp extra_body (lit "cached_content"))
                 (optProp extra_body (lit "cachedContent"))
    else None in
  let cachedContent :=
    nullish (nullish (assoc (lit "cached_content") requestPayload)
                     (assoc (lit "cachedContent") requestPayload))
            cachedContentFromExtra in
  let payload1 :=
    match cachedContent with
    | Some c =>
        if truthyJson c then setAssoc (lit "cachedContent") c requestPayload
        else requestPayload
    | None => requestPayload
    end in
  let payload2 :=
    delAssoc (lit "cachedContent") (delAssoc (lit "cached_content") payload1) in
  match assoc (lit "extra_body") payload2 with
  | Some (JObj extra) =>
      let extra1 :=
        delAssoc (lit "cachedContent") (delAssoc (lit "cached_content") extra) in
      if bool_decide (length extra1 = 0%nat)
      then delAssoc (lit "extra_body") payload2
      else setAssoc (lit "extra_body") (JObj extra1) payload2
  | Some (JArr items) =>
      (* [delete] of a named property leaves an array as it is *)
      if bool_decide (length items = 0%nat)
      then delAssoc (lit "extra_body") payload2
      else payload2
  | _ => payload2
  end.

(** The three property names the block deals with. *)
Definition cacheKeys : list jsstring :=
  [lit "cached_content"; lit "cachedContent"; lit "extra_body"].

(** A request that names its cache in all three places. *)
Definition cachingPayload : list (jsstring * Json) :=
  [(lit "contents", JArr []);
   (lit "cached_content", JStr (lit "cachedContents/abc"));
   (lit "extra_body", JObj [(lit "cachedContent", JStr (lit "cachedContents/xyz"))]);
   (lit "cachedContent", JStr (lit "cachedContents/def"))].

End Payload.

(** ** Collecting accounts: [authorize] of [src/plugin.ts] (lines 400-475)

    The user and the OAuth flow are the environment.  What they do is
    given as a script: the outcome of the first authentication, and then
    one round for every question [promptAddAnotherAccount] asks. *)
Module Authorize.
Import JsString Accounts Plugin.

(** What [authenticateSingleAccount] returns when it succeeds ([refresh],
    [access], [expires], [projectId]; the e-mail address is only
    printed and passed on). *)
Record Authenticated := {
  authRefresh : jsstring;
  authAccessToken : jsstring;
  authExpiry : Z;
  authProjectId : jsstring;
  authEmail : option jsstring;
}.

(** One round of the loop: the user declines, or accepts and the
    authentication that follows succeeds or not. *)
Inductive Round :=
| Decline
| Accept (result : option Authenticated).

(** The [while (accounts.length < 10)] loop (lines 429-445); [None] when
    the script ends while the loop is still asking. *)
Fixpoint collect (accounts : list Authenticated) (rounds : list Round)
    : option (list Authenticated) :=
  if (length accounts <? 10)%nat then
    match rounds with
    | [] => None
    | Decline :: _ => Some accounts                     (* [break] *)
    | Accept None :: rest => collect accounts rest        (* [continue] *)
    | Accept (Some nextAccount) :: rest =>
        collect (accounts ++ [nextAccount]) rest
    end
  else Some accounts.

(** What the [callback] of the returned authorization resolves with. *)
Inductive Outcome :=
| Cancelled                       (* [{ type: "failed", ... }] *)
| Success (refresh : jsstring) (access : jsstring) (expires : Z)
          (email : option jsstring) (projectId : jsstring)
| Asking.                         (* the script ended before the loop *)

Section Authorize.
Variable formatMultiAccountRefresh : list RefreshParts → jsstring.

Definition toParts (acc : Authenticated) : RefreshParts :=
  {| refreshToken := authRefresh acc;
     projectId := Some (authProjectId acc);
     managedProjectId := None |}.

Definition authorize (first : option Authenticated) (rounds : list Round)
    : Outcome :=
  match first with
  | None => Cancelled
  | Some firstAccount =>
      match collect [firstAccount] rounds with
      | None => Asking
      | Some accounts =>
          Success (formatMultiAccountRefresh (toParts <$> accounts))
                  (authAccessToken firstAccount) (authExpiry firstAccount)
                  (authEmail firstAccount) (authProjectId firstAccount)
      end
  end.

End Authorize.

(** The authentications of a script that succeed, in order. *)
Definition successes (rounds : list Round) : list Authenticated :=
  omap (λ r, match r with Accept (Some a) => Some a | _ => None end) rounds.

Definition signedIn (token project : string) : Authenticated :=
  {| authRefresh := lit token; authAccessToken := lit "access-" ++ lit token;
     authExpiry := 3600; authProjectId := lit project; authEmail := None |}.

End Authorize.

(** ** Tools for Claude models: the first branch of the tools block of
    [prepareAntigravityRequest] (lines 280-403 of [src/plugin/request.ts]) *)
Module Tools.
Import JsString Runtime Request PrepareMore Schema Token.

(** [a || b] on values that may be [undefined] *)
Definition orValue (a b : option Json) : option Json :=
  if truthyOpt a then a else b.

(** A chain [a || b || ... || z] *)
Fixpoint orChain (candidates : list (option Json)) : option Json :=
  match candidates with
  | [] => None
  | [a] => a
  | a :: rest => orValue a (orChain rest)
  end.

(** The variables the callbacks close over: [functionDeclarations],
    [passthroughTools], [toolDebugMissing] and [toolDebugSummaries]. *)
Record ToolState := {
  functionDeclarations : list Json;
  passthroughTools : list Json;
  missing : Z;
  summaries : list jsstring;
}.

Definition noTools : ToolState :=
  {| functionDeclarations := []; passthroughTools := []; missing := 0;
     summaries := [] |}.

Section Tools.
Context {platform : Platform}.

(** [String(v)] *)
Definition String_of (v : Json) : jsstring :=
  match v with
  | JStr s => s
  | _ => ToString v
  end.

(** [normalizeSchema] (lines 324-333): the schema to send, and whether
    [toolDebugMissing] is incremented. *)
Definition normalizeSchema (schema : option Json) : Json * bool :=
  match schema with
  | Some s =>
      if isObjectValue s then (sanitizeSchema s, false)
      else (JObj [(lit "type", JStr (lit "object"))], true)
  | None => (JObj [(lit "type", JStr (lit "object"))], true)
  end.

(** [pushDeclaration(decl, source)] (lines 336-376) inside the callback
    for [tool]. *)
Definition pushDeclaration (tool decl : Json) (source : string)
    (st : ToolState) : ToolState :=
  let function := getProp tool (lit "function") in
  let custom := getProp tool (lit "custom") in
  let schema :=
    orChain [optProp (Some decl) (lit "parameters");
             optProp (Some decl) (lit "input_schema");
             optProp (Some decl) (lit "inputSchema");
             getProp tool (lit "parameters");
             getProp tool (lit "input_schema");
             getProp tool (lit "inputSchema");
             optProp function (lit "parameters");
             optProp function (lit "input_schema");
             optProp function (lit "inputSchema");
             optProp custom (lit "parameters");
             optProp custom (lit "input_schema")] in
  let name0 :=
    orChain [optProp (Some decl) (lit "name");
             getProp tool (lit "name");
             optProp function (lit "name");
             optProp custom (lit "name");
             Some (JStr (lit "tool-" ++
                         numberToString
                           (Z.of_nat (length (functionDeclarations st)))))] in
  let name := sanitizeToolName (from_option String_of [] name0) in
  let description :=
    orChain [optProp (Some decl) (lit "description");
             getProp tool (lit "description");
             optProp function (lit "description");
             optProp custom (lit "description");
             Some (JStr [])] in
  let descriptionText :=
    match description with
    | Some d => if truthyJson d then String_of d else []
    | None => []
    end in
  let '(parameters, isMissing) := normalizeSchema schema in
  {| functionDeclarations :=
       functionDeclarations st ++
       [JObj [(lit "name", JStr name);
              (lit "description", JStr descriptionText);
              (lit "parameters", parameters)]];
     passthroughTools := passthroughTools st;
     missing := if isMissing then missing st + 1 else missing st;
     summaries :=
       summaries st ++
       [lit "decl=" ++ name ++ lit ",src=" ++ lit source ++
        lit ",hasSchema=" ++ (if truthyOpt schema then lit "y" else lit "n")] |}.

(** The callback of [requestPayload.tools.forEach] (lines 335-397).
    Reading a property of [null] throws. *)
Definition eachTool (st : ToolState) (tool : Json) : Exc ToolState :=
  match tool with
  | JNull => throw TypeError
  | _ =>
      match getProp tool (lit "functionDeclarations") with
      | Some (JArr (decl :: decls)) =>
          ret (foldl (λ st1 d, pushDeclaration tool d "functionDeclarations" st1)
                     st (decl :: decls))
      | _ =>
          if truthyOpt (orChain [getProp tool (lit "function");
                                 getProp tool (lit "custom");
                                 getProp tool (lit "parameters");
                                 getProp tool (lit "input_schema");
                                 getProp tool (lit "inputSchema")])
          then
            ret (pushDeclaration tool
                   (default tool
                      (nullish (nullish (getProp tool (lit "function"))
                                        (getProp tool (lit "custom")))
                               (Some tool)))
                   "function/custom" st)
          else
            ret {| functionDeclarations := functionDeclarations st;
                   passthroughTools := passthroughTools st ++ [tool];
                   missing := missing st;
                   summaries := summaries st |}
      end
  end.

Fixpoint eachTools (st : ToolState) (tools : list Json) : Exc ToolState :=
  match tools with
  | [] => ret st
  | tool :: rest =>
      let* st1 := eachTool st tool in
      eachTools st1 rest
  end.

(** The new value of [requestPayload.tools] (lines 399-403). *)
Definition finalTools (st : ToolState) : list Json :=
  (if (0 <? length (functionDeclarations st))%nat
   then [JObj [(lit "functionDeclarations", JArr (functionDeclarations st))]]
   else []) ++ passthroughTools st.

(** The branch for a Claude model, on the elements of the [tools] array:
    the new array and the state of the counters. *)
Definition normalizeClaudeTools (tools : list Json)
    : Exc (list Json * ToolState) :=
  let* st := eachTools noTools tools in
  ret (finalTools st, st).



End Tools.


(** Two function-style tools, one without a schema, and a built-in. *)
Definition sampleTools : list Json :=
  [JObj [(lit "function",
          JObj [(lit "name", JStr (lit "read.file"));
                (lit "description", JStr (lit "Reads a file"));
                (lit "parameters", sampleSchema)])];
   JObj [(lit "codeExecution", JObj [])];
   JObj [(lit "custom", JObj [(lit "name", JStr (lit "ping"))])]].

End Tools.

(** ** Ids of function calls: the two passes over [requestPayload.contents]
    for Claude models (lines 480-534 of [src/plugin/request.ts]) *)
Module CallIds.
Import JsString Runtime Schema.

(** The own properties copied by [{ ...v }]. *)
Definition spread (v : Json) : list (jsstring * Json) :=
  match v with
  | JObj props => props
  | JArr items => indexed 0 items
  | JStr s => indexed 0 ((λ c, JStr [c]) <$> s)
  | _ => []
  end.

(** [toolCallCounter] and [pendingCallIdsByName]. *)
Record IdState := {
  toolCallCounter : nat;
  pendingCallIdsByName : gmap jsstring (list Json);
}.

Definition noIds : IdState :=
  {| toolCallCounter := 0; pendingCallIdsByName := ∅ |}.

(** [part.functionCall], when [part && typeof part === "object" &&
    part.functionCall] holds (and likewise for [functionResponse]). *)
Definition truthyField (part : Json) (field : string) : option Json :=
  match part with
  | JObj props =>
      match assoc (lit field) props with
      | Some v => if truthyJson v then Some v else None
      | None => None
      end
  | _ => None
  end.

(** [{ ...part, field: value }] for an object [part]. *)
Definition withField (part : Json) (field : string) (value : Json) : Json :=
  JObj (setAssoc (lit field) value (spread part)).

(** The callback of the first [content.parts.map] (lines 491-505). *)
Definition assignCallId (st : IdState) (part : Json) : IdState * Json :=
  match truthyField part "functionCall" with
  | Some functionCall =>
      let call := spread functionCall in
      let '(counter1, call1) :=
        if truthyOpt (assoc (lit "id") call) then (toolCallCounter st, call)
        else
          (S (toolCallCounter st),
           setAssoc (lit "id")
             (JStr (lit "tool-call-" ++
                    numberToString (Z.of_nat (S (toolCallCounter st)))))
             call) in
      let nameKey :=
        match assoc (lit "name") call1 with
        | Some (JStr name) => name
        | _ => lit "tool-" ++ numberToString (Z.of_nat counter1)
        end in
      let queue := default [] (pendingCallIdsByName st !! nameKey) in
      ({| toolCallCounter := counter1;
          pendingCallIdsByName :=
            <[nameKey := queue ++ [default JNull (assoc (lit "id") call1)]]>
              (pendingCallIdsByName st) |},
       withField part "functionCall" (JObj call1))
  | None => (st, part)
  end.

(** The callback of the second [content.parts.map] (lines 516-530). *)
Definition matchResponse (pending : gmap jsstring (list Json)) (part : Json)
    : gmap jsstring (list Json) * Json :=
  match truthyField part "functionResponse" with
  | Some functionResponse =>
      let resp := spread functionResponse in
      let '(pending1, resp1) :=
        if truthyOpt (assoc (lit "id") resp) then (pending, resp)
        else
          match assoc (lit "name") resp with
          | Some (JStr name) =>
              match pending !! name with
              | Some (id :: queue) =>
                  (<[name := queue]> pending, setAssoc (lit "id") id resp)
              | _ => (pending, resp)
              end
          | _ => (pending, resp)
          end in
      (pending1, withField part "functionResponse" (JObj resp1))
  | None => (pending, part)
  end.

(** [array.map(f)] for a callback that reads and writes [S]. *)
Fixpoint mapWith {S} (f : S → Json → S * Json) (st : S) (l : list Json)
    : S * list Json :=
  match l with
  | [] => (st, [])
  | x :: rest =>
      let '(st1, y) := f st x in
      let '(st2, ys) := mapWith f st1 rest in
      (st2, y :: ys)
  end.

(** The callback of [contents.map] in either pass: a content without a
    [parts] array is returned as it is. *)
Definition eachContent {S} (f : S → Json → S * Json) (st : S) (content : Json)
    : S * Json :=
  match content with
  | JObj props =>
      match assoc (lit "parts") props with
      | Some (JArr parts) =>
          let '(st1, newParts) := mapWith f st parts in
          (st1, JObj (setAssoc (lit "parts") (JArr newParts) props))
      | _ => (st, content)
      end
  | _ => (st, content)
  end.

(** Both passes, on the elements of [requestPayload.contents]. *)
Definition assignIds (contents : list Json) : list Json :=
  let '(st1, contents1) := mapWith (eachContent assignCallId) noIds contents in
  (mapWith (eachContent matchResponse) (pendingCallIdsByName st1) contents1).2.

(** The function calls of a conversation, in order. *)
Definition callsOfParts (parts : list Json) : list Json :=
  omap (λ part, truthyField part "functionCall") parts.

Definition partsOf (content : Json) : list Json :=
  match content with
  | JObj props =>
      match assoc (lit "parts") props with
      | Some (JArr parts) => parts
      | _ => []
      end
  | _ => []
  end.

Definition callsOf (contents : list Json) : list Json :=
  contents ≫= (λ content, callsOfParts (partsOf content)).

(** A call with its id: an object whose [id] is truthy. *)
Definition hasId (functionCall : Json) : bool :=
  match functionCall with
  | JObj call => truthyOpt (assoc (lit "id") call)
  | _ => false
  end.

(** What the passes keep of a call: everything but a missing id. *)
Definition callKept (functionCall functionCall' : Json) : Prop :=
  hasId functionCall' = true ∧
  (∀ k, k ≠ lit "id" →
        assoc k (spread functionCall') = assoc k (spread functionCall)) ∧
  (truthyOpt (assoc (lit "id") (spread functionCall)) = true →
   functionCall' = JObj (spread functionCall)).

(** Two calls of [read], one of [write] that has an id, and the answers,
    the second [read] answered first. *)
Definition sampleContents : list Json :=
  [JObj [(lit "role", JStr (lit "model"));
         (lit "parts",
          JArr [JObj [(lit "functionCall",
                       JObj [(lit "name", JStr (lit "read"))])];
                JObj [(lit "functionCall",
                       JObj [(lit "name", JStr (lit "write"));
                             (lit "id", JStr (lit "w-1"))])];
                JObj [(lit "functionCall",
                       JObj [(lit "name", JStr (lit "read"))])]])];
   JObj [(lit "role", JStr (lit "user"));
         (lit "parts",
          JArr [JObj [(lit "functionResponse",
                       JObj [(lit "name", JStr (lit "read"))])];
                JObj [(lit "functionResponse",
                       JObj [(lit "name", JStr (lit "write"))])];
                JObj [(lit "functionResponse",
                       JObj [(lit "name", JStr (lit "read"))])];
                JObj [(lit "functionResponse",
                       JObj [(lit "name", JStr (lit "read"))])]])]].

End CallIds.

(** ** The plugin's [fetch] (lines 153-393 of [src/plugin.ts]) *)
Module Loader.
Import JsString Accounts Runtime Request Plugin AccountOps.

Section Fetch.
Context {platform : Platform} {helpers : RequestHelpers}
  {constants : Constants} {rewriter : BodyRewriter} {auth : AuthHelpers}
  {world : World}.
Variable input : RequestInfo.
Variable init0 : option RequestInit.

(** [new AccountManager(latestAuth)] (line 168) *)
Definition newAccountManager (latestAuth : OAuthAuthDetails) : AccountManager :=
  construct parseMultiAccountRefresh parseRefreshParts latestAuth.

(** Lines 167-389: the account manager of the call, and the loop over its
    accounts. *)
Definition intercept (latestAuth : OAuthAuthDetails)
    : LoopExit * AccountManager * list Event :=
  let accountManager := newAccountManager latestAuth in
  let accountCount := getAccountCount accountManager in
  let maxAccountAttempts := accountCount in
  dispatch input init0 maxAccountAttempts 0 accountManager.

(** [fetch(input, init)]: what the promise settles with, the account
    manager as the call leaves it (when the call built one), and the events
    in order.  A request that is not for the watched API, or credentials
    that are not OAuth credentials, are none of the plugin's business: the
    call is handed to the platform's [fetch] as it came (lines 158-165). *)
Definition fetch : Exc Response * option AccountManager * list Event :=
  if negb (isGenerativeLanguageRequest input) then (forward, None, [])
  else
    match getAuth with
    | inl error => (throw error, None, [])
    | inr None => (forward, None, [])
    | inr (Some latestAuth) =>
        let accountCount := getAccountCount (newAccountManager latestAuth) in
        let '(exit, m, evs) := intercept latestAuth in
        (settle accountCount exit, Some m, evs)
    end.

End Fetch.

End Loader.

(** ** Sample calls of [fetch] *)
Module LoaderSamples.
Import JsString Accounts Runtime Request Plugin Samples PluginSamples Loader.

(** [fetch] of the sample watched URL, without [init], in a given world. *)
Definition sampleFetch (w : World)
    : Exc Response * option AccountManager * list Event :=
  fetch (platform := samplePlatform) (helpers := sampleHelpers)
        (constants := sampleConstants) (rewriter := sampleRewriter)
        (auth := sampleAuthHelpers) (world := w) (UrlString sampleUrl) None.

(** The account manager [fetch] builds from the sample credentials. *)
Definition samplePool : AccountManager :=
  newAccountManager (auth := sampleAuthHelpers) storedAuth.

End LoaderSamples.

(** * Properties

    ** Facts about [startsWith], [indexOf] and [split] *)
Module JsStringFacts.
Import JsString.

Lemma startsWith_app s p u :
  startsWith s p = true → startsWith (s ++ u) p = true.
Proof.
  revert s; induction p as [|a p IH]; intros [|b s]; simpl; try done.
  intros [? ?]%andb_true_iff. apply andb_true_iff; split; auto.
Qed.

Lemma startsWith_length s p :
  startsWith s p = true → (length p ≤ length s)%nat.
Proof.
  revert s; induction p as [|a p IH]; intros [|b s]; simpl; try done; try lia.
  intros [_ ?%IH]%andb_true_iff. lia.
Qed.

Lemma startsWith_app_inv s p u :
  startsWith (s ++ u) p = true → (length p ≤ length s)%nat →
  startsWith s p = true.
Proof.
  revert s; induction p as [|a p IH]; intros [|b s]; simpl; try done; try lia.
  intros [? ?]%andb_true_iff ?. apply andb_true_iff; split; [done|].
  apply IH; [done|lia].
Qed.

Lemma indexOf_bound s sep i :
  indexOf s sep = Some i → (i + length sep ≤ length s)%nat.
Proof.
  revert i; induction s as [|c s IH]; intros i; simpl.
  - destruct (startsWith [] sep) eqn:E; [|done].
    intros [= <-]. apply startsWith_length in E. simpl in *. lia.
  - destruct (startsWith (c :: s) sep) eqn:E.
    + intros [= <-]. apply startsWith_length in E. simpl in *. lia.
    + destruct (indexOf s sep) as [j|] eqn:Ej; simpl; [|done].
      intros [= <-]. specialize (IH j eq_refl). lia.
Qed.

Lemma indexOf_app s sep u i :
  indexOf s sep = Some i → indexOf (s ++ u) sep = Some i.
Proof.
  revert i; induction s as [|c s IH]; intros i; simpl.
  - destruct sep; simpl; [|done]. intros [= <-]. by destruct u.
  - destruct (startsWith (c :: s) sep) eqn:E.
    + intros [= <-].
      change (c :: s ++ u) with ((c :: s) ++ u).
      by rewrite (startsWith_app _ _ u E).
    + destruct (indexOf s sep) as [j|] eqn:Ej; simpl; [|done].
      intros [= <-].
      destruct (startsWith (c :: s ++ u) sep) eqn:E'.
      * apply indexOf_bound in Ej.
        change (c :: s ++ u) with ((c :: s) ++ u) in E'.
        apply startsWith_app_inv in E'; [congruence | simpl; lia].
      * by rewrite (IH j eq_refl).
Qed.

Lemma split_fuel_enough sep : sep ≠ [] → ∀ f1 f2 s,
  (length s ≤ f1)%nat → (length s ≤ f2)%nat →
  split_fuel f1 s sep = split_fuel f2 s sep.
Proof.
  intros Hsep. induction f1 as [|f1 IH]; intros f2 s H1 H2.
  - destruct s; [|simpl in H1; lia].
    destruct f2; simpl; [done|].
    destruct sep; [done|]. done.
  - destruct f2 as [|f2].
    + destruct s; [|simpl in H2; lia]. simpl.
      destruct sep; [done|]. done.
    + simpl. destruct (indexOf s sep) as [i|] eqn:E; [|done].
      f_equal. apply indexOf_bound in E.
      assert (0 < length sep)%nat by (destruct sep; [done|simpl; lia]).
      apply IH; rewrite length_drop; lia.
Qed.

(** The defining equation of [split]: the fuel never runs out. *)
Lemma split_unfold s sep : sep ≠ [] →
  split s sep =
    match indexOf s sep with
    | None => [s]
    | Some i => take i s :: split (drop (i + length sep) s) sep
    end.
Proof.
  intros Hsep. unfold split. destruct s as [|c s].
  - destruct sep; [done|]. done.
  - change (length (c :: s)) with (S (length s)). cbn [split_fuel].
    destruct (indexOf (c :: s) sep) as [i|] eqn:E; [|done].
    f_equal. apply indexOf_bound in E.
    assert (0 < length sep)%nat by (destruct sep; [done|simpl; lia]).
    apply split_fuel_enough; [done|..]; rewrite ?length_drop; simpl in *; lia.
Qed.

Lemma split_not_nil s sep : split s sep ≠ [].
Proof.
  unfold split. destruct (length s); simpl; [done|].
  by destruct (indexOf s sep).
Qed.

Lemma removelast_cons {A} (x : A) l :
  l ≠ [] → removelast (x :: l) = x :: removelast l.
Proof. by destruct l. Qed.

Lemma last_cons_ne {A} (x : A) l : l ≠ [] → last (x :: l) = last l.
Proof. by destruct l. Qed.

(** Splitting is incremental: the pieces completed inside a prefix [s]
    stay as they are when more text [u] follows, and only the last,
    unfinished piece is split again together with [u]. *)
Lemma split_app sep : sep ≠ [] → ∀ s u,
  split (s ++ u) sep =
    removelast (split s sep) ++
    split (default [] (last (split s sep)) ++ u) sep.
Proof.
  intros Hsep s. remember (length s) as n eqn:Hn.
  revert s Hn. induction (lt_wf n) as [n _ IH]. intros s -> u.
  rewrite (split_unfold s) by done.
  destruct (indexOf s sep) as [i|] eqn:E; [|done].
  rewrite (split_unfold (s ++ u)) by done.
  rewrite (indexOf_app _ _ u _ E).
  pose proof (indexOf_bound _ _ _ E) as Hb.
  assert (0 < length sep)%nat by (destruct sep; [done|simpl; lia]).
  rewrite removelast_cons, last_cons_ne by apply split_not_nil.
  rewrite take_app_le, drop_app_le by lia. simpl. f_equal.
  eapply IH; [|done]. rewrite length_drop. lia.
Qed.

End JsStringFacts.

(** ** The account pool *)
Module AccountsFacts.
Import JsString JsStringFacts Accounts.

Example getNext_rotates :
  (getNext_many [10; 20; 30; 40] pool3).1 =
    [Some 0%nat; Some 1%nat; Some 2%nat; Some 0%nat].
Proof. reflexivity. Qed.

(** The scenario of the test that skips a rate-limited account. *)
Example getNext_skips_limited :
  let '(first, m1) := getNext 10 pool2 in
  first = Some 0%nat ∧
  (getNext_many [20; 30] (markRateLimited 0 60000 10 m1)).1 =
    [Some 1%nat; Some 1%nat].
Proof. split; reflexivity. Qed.

(** *** Round-robin over a pool without rate limits *)

Lemma sweep_not_limited now a :
  isRateLimited a = false → sweep now a = (true, a).
Proof. unfold sweep. by intros ->. Qed.

Lemma availableFrom_none_limited now k l :
  none_limited l → availableFrom now k l = seq k (length l).
Proof.
  intros H. revert k. induction H as [|a l Ha _ IH]; intros k; simpl; [done|].
  unfold eligible. rewrite (sweep_not_limited _ _ Ha). simpl. by rewrite IH.
Qed.

Lemma swept_none_limited now l :
  none_limited l → (λ a, (sweep now a).2) <$> l = l.
Proof.
  induction 1 as [|a l Ha _ IH]; csimpl; [done|].
  by rewrite (sweep_not_limited _ _ Ha), IH.
Qed.

Lemma none_limited_stamp now r l :
  none_limited l → none_limited (alter (set_lastUsed now) r l).
Proof.
  intros H. apply Forall_alter; [done|]. by intros a _ Ha.
Qed.

(** With no account rate-limited, [getNext] hands out the account whose
    position is the cursor modulo the pool size and advances the cursor. *)
Lemma getNext_none_limited now m :
  none_limited (accounts m) → accounts m ≠ [] →
  getNext now m =
    (Some (currentIndex m mod length (accounts m))%nat,
     {| accounts := alter (set_lastUsed now)
                      (currentIndex m mod length (accounts m))%nat (accounts m);
        currentIndex := S (currentIndex m) |}).
Proof.
  intros H Hne. unfold getNext, available.
  rewrite (availableFrom_none_limited _ _ _ H), (swept_none_limited _ _ H).
  rewrite length_seq.
  assert (0 < length (accounts m))%nat as Hlen
    by (destruct (accounts m); [done|simpl; lia]).
  rewrite bool_decide_eq_false_2 by lia.
  rewrite lookup_seq_lt by (apply Nat.mod_upper_bound; lia).
  done.
Qed.

Lemma getNext_many_none_limited ts : ∀ m,
  none_limited (accounts m) → accounts m ≠ [] →
  (getNext_many ts m).1 =
    (λ i, Some ((currentIndex m + i) mod length (accounts m))%nat)
      <$> seq 0 (length ts).
Proof.
  induction ts as [|t ts IH]; intros m H Hne; [done|].
  cbn [getNext_many]. rewrite (getNext_none_limited _ _ H Hne).
  set (m1 := {| accounts := _ |}).
  specialize (IH m1).
  destruct (getNext_many ts m1) as [rs m2]. simpl in *.
  rewrite Nat.add_0_r. f_equal.
  rewrite IH.
  - rewrite <- (fmap_S_seq 0), <- list_fmap_compose.
    apply list_fmap_ext. intros _ i _. simpl.
    rewrite length_alter. do 2 f_equal. lia.
  - by apply none_limited_stamp.
  - intros E. apply (f_equal length) in E. rewrite length_alter in E.
    destruct (accounts m); simpl in *; [done|lia].
Qed.

Lemma rotate_seq c n :
  (λ i, (c + i) mod n)%nat <$> seq 0 n = rotate c (seq 0 n).
Proof.
  apply list_eq. intros i. rewrite list_lookup_fmap.
  destruct (decide (i < n)%nat) as [Hi|Hi].
  - rewrite lookup_rotate_r by (by rewrite length_seq).
    rewrite length_seq, lookup_seq_lt by done. simpl.
    rewrite lookup_seq_lt by (apply rotate_nat_add_lt; lia). simpl.
    unfold rotate_nat_add. f_equal.
    rewrite <- Nat2Z.inj_add, <- Nat2Z.inj_mod. by rewrite Nat2Z.id.
  - rewrite !lookup_ge_None_2; [done|..];
      rewrite ?length_rotate, length_seq; lia.
Qed.

Lemma rotate_Permutation_seq c n : rotate c (seq 0 n) ≡ₚ seq 0 n.
Proof.
  unfold rotate. rewrite Permutation_app_comm. by rewrite take_drop.
Qed.

(** C1. In a pool of N accounts none of which is rate-limited, N successive
    calls of [getNext] (at arbitrary clock readings [ts]) return the N
    accounts in pool order, starting at the cursor and wrapping around: the
    results are the rotation of the positions [0 .. N-1] by the cursor, hence
    every account is returned exactly once before any account repeats. *)
Theorem getNext_round_robin (m : AccountManager) (ts : list Z) :
  none_limited (accounts m) →
  length ts = length (accounts m) →
  (getNext_many ts m).1 =
    Some <$> rotate (currentIndex m) (seq 0 (length (accounts m)))
  ∧ (getNext_many ts m).1 ≡ₚ Some <$> seq 0 (length (accounts m)).
Proof.
  intros H Hlen.
  assert ((getNext_many ts m).1 =
    Some <$> rotate (currentIndex m) (seq 0 (length (accounts m)))) as E.
  { destruct (accounts m) as [|a l] eqn:Ea.
    - destruct ts; [|simpl in Hlen; lia].
      unfold rotate. simpl. by rewrite drop_nil, take_nil.
    - rewrite <- Ea in *.
      rewrite getNext_many_none_limited by (done || by rewrite Ea).
      rewrite Hlen, <- rotate_seq. by rewrite <- list_fmap_compose. }
  split; [done|]. rewrite E. by rewrite rotate_Permutation_seq.
Qed.

Lemma getNext_round_robin_witness :
  none_limited (accounts pool3) ∧
  length [10; 20; 30] = length (accounts pool3) ∧
  (getNext_many [10; 20; 30] pool3).1 = [Some 0; Some 1; Some 2]%nat.
Proof.
  split; [repeat constructor|]. split; [reflexivity|].
  apply (getNext_round_robin pool3 [10; 20; 30]);
    [repeat constructor | reflexivity].
Defined.

(** *** Rate-limit windows *)

Lemma elem_of_availableFrom now l : ∀ k r,
  r ∈ availableFrom now k l ↔
  (k ≤ r)%nat ∧ ∃ a, l !! (r - k)%nat = Some a ∧ eligible now a = true.
Proof.
  induction l as [|a l IH]; intros k r; simpl.
  - rewrite elem_of_nil. split; [done|]. by intros (_ & ? & ? & _).
  - assert (r ∈ availableFrom now (S k) l ↔
            (k < r)%nat ∧ ∃ b, (a :: l) !! (r - k)%nat = Some b
                               ∧ eligible now b = true) as IH'.
    { rewrite IH. split.
      - intros (? & b & Hb & ?). split; [lia|]. exists b. split; [|done].
        replace (r - k)%nat with (S (r - S k)) by lia. done.
      - intros (? & b & Hb & ?). split; [lia|]. exists b. split; [|done].
        replace (r - k)%nat with (S (r - S k)) in Hb by lia. done. }
    destruct (eligible now a) eqn:Ea.
    + rewrite elem_of_cons, IH'. split.
      * intros [->|(? & ?)]; [|split; [lia|done]].
        split; [lia|]. exists a. by rewrite Nat.sub_diag.
      * intros (Hk & b & Hb & ?).
        destruct (decide (r = k)) as [->|]; [by left|right].
        split; [lia|by exists b].
    + rewrite IH'. split.
      * intros (? & ?). split; [lia|done].
      * intros (Hk & b & Hb & Hel). split; [|by exists b].
        destruct (decide (r = k)) as [->|]; [|lia].
        rewrite Nat.sub_diag in Hb. simpl in Hb. congruence.
Qed.

Lemma elem_of_available now l r :
  r ∈ available now l ↔ ∃ a, l !! r = Some a ∧ eligible now a = true.
Proof.
  unfold available. rewrite elem_of_availableFrom, Nat.sub_0_r.
  split; [by intros (_ & ?)|]. intros ?. split; [lia|done].
Qed.

Lemma eligible_limited now a :
  isRateLimited a = true →
  (eligible now a = true ↔ rateLimitResetTime a < now).
Proof.
  unfold eligible, sweep. intros ->. simpl.
  destruct (rateLimitResetTime a <? now) eqn:E; simpl.
  - apply Z.ltb_lt in E. done.
  - apply Z.ltb_ge in E. split; [done|lia].
Qed.

Lemma markRateLimited_limited_until r Δ markedAt m :
  (r < length (accounts m))%nat →
  limited_until r (markedAt + Δ) (markRateLimited r Δ markedAt m).
Proof.
  intros Hr. destruct (lookup_lt_is_Some_2 _ _ Hr) as [a Ha].
  eexists. simpl. rewrite list_lookup_alter_eq, Ha. simpl. done.
Qed.

(** While the window is open, [getNext] neither returns the account nor
    touches its flag. *)
Lemma getNext_limited_until r reset t m :
  limited_until r reset m → t ≤ reset →
  (getNext t m).1 ≠ Some r ∧ limited_until r reset (getNext t m).2.
Proof.
  intros (a & Ha & Hlim & Hreset) Ht.
  assert (eligible t a = false) as Hel.
  { destruct (eligible t a) eqn:E; [|done].
    apply eligible_limited in E; [lia|done]. }
  assert (((λ a, (sweep t a).2) <$> accounts m) !! r = Some a) as Hswept.
  { rewrite list_lookup_fmap, Ha. simpl. f_equal.
    unfold eligible in Hel. unfold sweep in *. rewrite Hlim in *. simpl in *.
    by destruct (rateLimitResetTime a <? t). }
  unfold getNext. case_bool_decide.
  { split; [done|]. by exists a. }
  destruct (available t (accounts m) !! _) as [r'|] eqn:Er'.
  2:{ split; [done|]. by exists a. }
  assert (r' ≠ r) as Hne.
  { intros ->. apply list_elem_of_lookup_2, elem_of_available in Er'.
    destruct Er' as (b & Hb & Hbel). congruence. }
  simpl. split; [congruence|].
  exists a. simpl. by rewrite list_lookup_alter_ne.
Qed.

Lemma getNext_many_limited_until r reset ts : ∀ m,
  limited_until r reset m → Forall (λ t, t ≤ reset) ts →
  (Some r ∉ (getNext_many ts m).1) ∧
  limited_until r reset (getNext_many ts m).2.
Proof.
  induction ts as [|t ts IH]; intros m Hm Hts; simpl.
  - split; [apply not_elem_of_nil|done].
  - apply Forall_cons in Hts as [Ht Hts].
    destruct (getNext_limited_until _ _ _ _ Hm Ht) as [Hr Hm1].
    destruct (getNext t m) as [r1 m1]. simpl in *.
    destruct (IH m1 Hm1 Hts) as [Hrs Hm2].
    destruct (getNext_many ts m1) as [rs m2]. simpl in *.
    split; [|done]. rewrite elem_of_cons. intros [E|E]; [by subst|done].
Qed.

(** C2, as amended.  After [markRateLimited(a, Δ)] at time [markedAt],
    and whatever calls of [getNext] are made while the window is open (at
    clock readings [ts], none later than [markedAt + Δ]), the account is
    never returned by those calls, and it belongs to the eligible set of a
    call made at [now] exactly when [now > markedAt + Δ]: it is still
    excluded at the instant [now = markedAt + Δ]. *)
Theorem markRateLimited_window (m : AccountManager) (r : nat)
    (Δ markedAt : Z) (ts : list Z) (now : Z) :
  (r < length (accounts m))%nat →
  Forall (λ t, t ≤ markedAt + Δ) ts →
  (Some r ∉ (getNext_many ts (markRateLimited r Δ markedAt m)).1) ∧
  (r ∈ available now
         (accounts (getNext_many ts (markRateLimited r Δ markedAt m)).2)
   ↔ markedAt + Δ < now).
Proof.
  intros Hr Hts.
  pose proof (markRateLimited_limited_until r Δ markedAt m Hr) as H0.
  destruct (getNext_many_limited_until _ _ ts _ H0 Hts)
    as [Hnot (a & Ha & Hlim & Hreset)].
  split; [done|]. rewrite elem_of_available. split.
  - intros (b & Hb & Hel). assert (b = a) as -> by congruence.
    apply eligible_limited in Hel; [lia|done].
  - intros Hlt. exists a. split; [done|].
    apply eligible_limited; [done|lia].
Qed.

Lemma markRateLimited_window_witness :
  (0 < length (accounts pool2))%nat ∧
  Forall (λ t, t ≤ 5000 + 60000) [5001; 65000] ∧
  (Some 0%nat ∉ (getNext_many [5001; 65000]
                   (markRateLimited 0 60000 5000 pool2)).1) ∧
  (0%nat ∈ available 65001
             (accounts (getNext_many [5001; 65000]
                          (markRateLimited 0 60000 5000 pool2)).2)
   ↔ 5000 + 60000 < 65001).
Proof.
  split; [simpl; lia|]. split; [repeat constructor; lia|].
  apply (markRateLimited_window pool2 0 60000 5000 [5001; 65000] 65001);
    [simpl; lia | repeat constructor; lia].
Defined.

(** C2 as stated fails at the boundary: an account marked at time 5000 for
    60000 ms is not in the eligible set of a call made at the exact instant
    65000 = 5000 + 60000, and that call of [getNext] on a one-account pool
    returns nothing. *)
Lemma markRateLimited_boundary_counterexample :
  65000 >= 5000 + 60000 ∧
  (0%nat ∉ available 65000
             (accounts (markRateLimited 0 60000 5000
                          {| accounts := [mkAccount 0 "r1"];
                             currentIndex := 0 |}))) ∧
  (getNext 65000 (markRateLimited 0 60000 5000
                    {| accounts := [mkAccount 0 "r1"];
                       currentIndex := 0 |})).1 = None.
Proof.
  split; [lia|]. split; [|reflexivity].
  vm_compute. apply not_elem_of_nil.
Qed.

(** *** The minimum wait *)

Lemma filter_nil_iff {A} (f : A → bool) (l : list A) :
  List.filter f l = [] ↔ ∀ a, a ∈ l → f a = false.
Proof.
  induction l as [|x l IH]; simpl.
  - split; [|done]. intros _ a Ha. by apply elem_of_nil in Ha.
  - destruct (f x) eqn:Ex.
    + split; [done|]. intros H. specialize (H x (list_elem_of_here _ _)).
      congruence.
    + rewrite IH. split.
      * intros H a [->|Ha]%elem_of_cons; auto.
      * intros H a Ha. apply H. by apply list_elem_of_further.
Qed.

Lemma filter_all {A} (f : A → bool) (l : list A) :
  (∀ a, a ∈ l → f a = true) → List.filter f l = l.
Proof.
  induction l as [|x l IH]; simpl; [done|]. intros H.
  rewrite (H x (list_elem_of_here _ _)). f_equal. apply IH.
  intros a Ha. apply H. by apply list_elem_of_further.
Qed.

Lemma Math_min_elem w ws : Math_min w ws ∈ w :: ws.
Proof.
  unfold Math_min. induction ws as [|x ws IH]; simpl.
  - apply list_elem_of_here.
  - destruct (Z.min_spec x (foldr Z.min w ws)) as [[_ ->]|[_ ->]].
    + apply list_elem_of_further, list_elem_of_here.
    + apply elem_of_cons in IH as [E|IH].
      * rewrite E. apply list_elem_of_here.
      * by do 2 apply list_elem_of_further.
Qed.

Lemma Math_min_le w ws x : x ∈ w :: ws → Math_min w ws ≤ x.
Proof.
  unfold Math_min. induction ws as [|y ws IH]; simpl.
  - intros [->|H]%elem_of_cons; [lia|by apply elem_of_nil in H].
  - intros [->|[->|H]%elem_of_cons]%elem_of_cons.
    + specialize (IH (list_elem_of_here _ _)). lia.
    + lia.
    + specialize (IH (list_elem_of_further _ _ _ H)). lia.
Qed.

Lemma eligible_alt now a :
  negb (isRateLimited a) || (rateLimitResetTime a <? now) = eligible now a.
Proof.
  unfold eligible, sweep.
  destruct (isRateLimited a); simpl; [|done].
  by destruct (rateLimitResetTime a <? now).
Qed.

Lemma not_eligible now a :
  eligible now a = false →
  isRateLimited a = true ∧ now ≤ rateLimitResetTime a.
Proof.
  rewrite <- eligible_alt. destruct (isRateLimited a); simpl; [|done].
  intros ?%Z.ltb_ge. done.
Qed.

Lemma getMinWaitTime_some_eligible now m :
  (∃ a, a ∈ accounts m ∧ eligible now a = true) → getMinWaitTime now m = 0.
Proof.
  intros (a & Ha & Hel). unfold getMinWaitTime.
  destruct (List.filter _ (accounts m)) as [|b l] eqn:E; [|done].
  exfalso. rewrite filter_nil_iff in E. specialize (E a Ha).
  rewrite eligible_alt in E. congruence.
Qed.

(** With nobody eligible, the result is the least remaining window. *)
Lemma getMinWaitTime_none_eligible now m :
  (∀ a, a ∈ accounts m → eligible now a = false) → accounts m ≠ [] →
  (∃ a, a ∈ accounts m ∧ isRateLimited a = true ∧
        getMinWaitTime now m = rateLimitResetTime a - now) ∧
  (∀ a, a ∈ accounts m → isRateLimited a = true →
        getMinWaitTime now m ≤ rateLimitResetTime a - now).
Proof.
  intros Hnone Hne. unfold getMinWaitTime.
  assert (List.filter
            (λ a, negb (isRateLimited a) || (rateLimitResetTime a <? now))
            (accounts m) = []) as ->.
  { apply filter_nil_iff. intros a Ha. rewrite eligible_alt. auto. }
  simpl. rewrite filter_all
    by (intros a Ha; by destruct (not_eligible _ _ (Hnone a Ha))).
  assert ((λ a, Z.max 0 (rateLimitResetTime a - now)) <$> accounts m =
          (λ a, rateLimitResetTime a - now) <$> accounts m) as ->.
  { apply list_fmap_ext. intros _ a Ha%list_elem_of_lookup_2.
    destruct (not_eligible _ _ (Hnone a Ha)). lia. }
  destruct ((λ a, rateLimitResetTime a - now) <$> accounts m)
    as [|w ws] eqn:E.
  { apply fmap_nil_inv in E. done. }
  split.
  - pose proof (Math_min_elem w ws) as Hin. rewrite <- E in Hin.
    apply list_elem_of_fmap in Hin as (a & Ea & Ha).
    exists a. split; [done|]. split; [|done].
    by destruct (not_eligible _ _ (Hnone a Ha)).
  - intros a Ha _. apply Math_min_le. rewrite <- E.
    apply list_elem_of_fmap. by exists a.
Qed.

Lemma getMinWaitTime_nonneg now m : 0 ≤ getMinWaitTime now m.
Proof.
  unfold getMinWaitTime.
  destruct (0 <? length _)%nat; [done|]. simpl.
  destruct (_ <$> List.filter isRateLimited (accounts m)) as [|w ws] eqn:E;
    [done|].
  pose proof (Math_min_elem w ws) as Hin. rewrite <- E in Hin.
  apply list_elem_of_fmap in Hin as (a & -> & _). lia.
Qed.

Lemma eligible_dec now (l : list ManagedAccount) :
  (∃ a, a ∈ l ∧ eligible now a = true) ∨
  (∀ a, a ∈ l → eligible now a = false).
Proof.
  destruct (List.filter (eligible now) l) as [|a l'] eqn:E.
  - right. by apply filter_nil_iff.
  - left. exists a.
    assert (List.In a (List.filter (eligible now) l)) as Hin
      by (rewrite E; by left).
    apply filter_In in Hin as [Hin ?]. by apply list_elem_of_In in Hin.
Qed.

(** C3, as amended.  [getMinWaitTime] is never negative; it is 0 whenever
    some account is eligible; when no account is eligible (and the pool is
    not empty) it is the minimum of [rateLimitResetTime - now] over the
    rate-limited accounts.  It is 0 exactly when some account is eligible,
    or the pool is empty, or the window of some rate-limited account ends
    at this very instant ([rateLimitResetTime = now], at which the account
    is not yet eligible). *)
Theorem getMinWaitTime_spec (now : Z) (m : AccountManager) :
  0 ≤ getMinWaitTime now m
  ∧ ((∃ a, a ∈ accounts m ∧ eligible now a = true) →
     getMinWaitTime now m = 0)
  ∧ ((∀ a, a ∈ accounts m → eligible now a = false) → accounts m ≠ [] →
     (∃ a, a ∈ accounts m ∧ isRateLimited a = true ∧
           getMinWaitTime now m = rateLimitResetTime a - now) ∧
     (∀ a, a ∈ accounts m → isRateLimited a = true →
           getMinWaitTime now m ≤ rateLimitResetTime a - now))
  ∧ (getMinWaitTime now m = 0 ↔
       (∃ a, a ∈ accounts m ∧ eligible now a = true)
       ∨ accounts m = []
       ∨ (∃ a, a ∈ accounts m ∧ isRateLimited a = true ∧
               rateLimitResetTime a = now)).
Proof.
  split; [apply getMinWaitTime_nonneg|].
  split; [apply getMinWaitTime_some_eligible|].
  split; [apply getMinWaitTime_none_eligible|].
  split.
  - intros H0. destruct (eligible_dec now (accounts m)) as [?|Hnone]; [by left|].
    right. destruct (decide (accounts m = [])) as [|Hne]; [by left|right].
    destruct (getMinWaitTime_none_eligible _ _ Hnone Hne)
      as [(a & Ha & Hlim & E) _].
    exists a. split; [done|]. split; [done|]. lia.
  - intros [H|[H|(a & Ha & Hlim & E)]].
    + by apply getMinWaitTime_some_eligible.
    + unfold getMinWaitTime. by rewrite H.
    + destruct (eligible_dec now (accounts m)) as [?|Hnone].
      { by apply getMinWaitTime_some_eligible. }
      assert (accounts m ≠ []) as Hne by (intros E'; rewrite E' in Ha;
                                          by apply elem_of_nil in Ha).
      destruct (getMinWaitTime_none_eligible _ _ Hnone Hne) as [_ Hle].
      specialize (Hle a Ha Hlim).
      pose proof (getMinWaitTime_nonneg now m). lia.
Qed.

(** C3 as stated fails in the direction "0 only if somebody is eligible":
    with the single account of the pool rate-limited until 65000, at the
    instant 65000 the result is 0 although no account is eligible. *)
Lemma getMinWaitTime_zero_counterexample :
  getMinWaitTime 65000
    (markRateLimited 0 60000 5000
       {| accounts := [mkAccount 0 "r1"]; currentIndex := 0 |}) = 0
  ∧ available 65000
      (accounts (markRateLimited 0 60000 5000
                   {| accounts := [mkAccount 0 "r1"];
                      currentIndex := 0 |})) = [].
Proof. split; reflexivity. Qed.

Example getMinWaitTime_remaining_window :
  getMinWaitTime 20000 (markRateLimited 1 30000 10000
                          (markRateLimited 0 60000 5000 pool2)) = 20000.
Proof. reflexivity. Qed.

End AccountsFacts.

(** ** The sample encoding *)
Module AuthFacts.
Import JsString Accounts Auth.

(** The sample encoding agrees with the strings of the repository's
    tests. *)
Example parse_single_account :
  parseMultiAccountRefresh (lit "refresh1|proj1|managed1") =
    [mkParts "refresh1" (Some "proj1") (Some "managed1")].
Proof. reflexivity. Qed.

Example parse_multiple_accounts :
  parseMultiAccountRefresh (lit "r1|p1||r2|p2||r3|p3|m3") =
    [mkParts "r1" (Some "p1") None; mkParts "r2" (Some "p2") None;
     mkParts "r3" (Some "p3") (Some "m3")].
Proof. reflexivity. Qed.

Example format_multiple_accounts :
  formatMultiAccountRefresh
    [mkParts "r1" (Some "p1") None; mkParts "r2" (Some "p2") None] =
    lit "r1|p1||r2|p2".
Proof. reflexivity. Qed.

End AuthFacts.

(** ** The response normaliser *)
Module RequestFacts.
Import JsString JsStringFacts Runtime Request Samples.

Section Streaming.
Context {platform : Platform} {helpers : RequestHelpers}.

Lemma complete_app s u :
  complete (s ++ u) = complete s ++ complete (unfinished s ++ u).
Proof.
  unfold complete, unfinished. rewrite (split_app [LF; LF]) by done.
  apply removelast_app, split_not_nil.
Qed.

Lemma unfinished_app s u : unfinished (s ++ u) = unfinished (unfinished s ++ u).
Proof.
  unfold unfinished. rewrite (split_app [LF; LF] ltac:(done) s u).
  destruct (split (default [] (last (split s [LF; LF])) ++ u) [LF; LF])
    as [|x l] eqn:E using rev_ind.
  - by apply split_not_nil in E.
  - by rewrite app_assoc, !last_snoc.
Qed.

Lemma forwardEvents_app l1 l2 :
  forwardEvents (l1 ++ l2) = forwardEvents l1 ++ forwardEvents l2.
Proof. unfold forwardEvents. by rewrite List.filter_app, fmap_app. Qed.

Lemma decodeChunk_app c1 c2 d :
  decodeChunk d (c1 ++ c2) =
    let '(d1, t1) := decodeChunk d c1 in
    let '(d2, t2) := decodeChunk d1 c2 in
    (d2, t1 ++ t2).
Proof.
  revert d. induction c1 as [|b c1 IH]; intros d; simpl.
  - by destruct (decodeChunk d c2).
  - destruct (decodeByte d b) as [d1 t1]. rewrite IH.
    destruct (decodeChunk d1 c1) as [d2 t2].
    destruct (decodeChunk d2 c2) as [d3 t3]. by rewrite app_assoc.
Qed.

(** [transform] keeps the unfinished rest of all the text decoded so far and
    forwards the events that the new text completes. *)
Lemma transform_spec st chunk pre :
  buffer st = unfinished pre →
  transform st chunk =
    let '(d, text) := decodeChunk (decoder st) chunk in
    ({| decoder := d; buffer := unfinished (pre ++ text) |},
     forwardEvents (complete (unfinished pre ++ text))).
Proof.
  intros Hb. unfold transform, pop.
  destruct (decodeChunk (decoder st) chunk) as [d text].
  rewrite Hb. by rewrite (unfinished_app pre text).
Qed.

(** Whatever the chunking, the pipeline enqueues the events completed in
    the whole decoded text, then the flushed rest. *)
Lemma pipeChunks_spec chunks : ∀ st pre,
  buffer st = unfinished pre →
  forwardEvents (complete pre) ++ pipeChunks false st chunks =
    let '(d, text) := decodeChunk (decoder st) (concat chunks) in
    forwardEvents (complete (pre ++ text)) ++
    flushed (unfinished (pre ++ text) ++ decodeEnd d).
Proof.
  induction chunks as [|chunk chunks IH]; intros st pre Hb.
  - simpl. rewrite app_nil_r. unfold flush, flushed. by rewrite Hb.
  - cbn [pipeChunks concat]. rewrite (transform_spec _ _ _ Hb).
    rewrite decodeChunk_app.
    destruct (decodeChunk (decoder st) chunk) as [d1 t1].
    rewrite app_assoc, <- forwardEvents_app, <- complete_app.
    rewrite (IH {| decoder := d1; buffer := unfinished (pre ++ t1) |}
                (pre ++ t1) eq_refl).
    simpl. destruct (decodeChunk d1 (concat chunks)) as [d2 t2].
    by rewrite app_assoc.
Qed.

(** C8. For every body and every way of cutting it into chunks (inside a
    line, an event or a multi-byte character, empty chunks included),
    feeding the chunks one at a time and flushing enqueues the same
    sequence of output chunks as feeding the whole body at once; in
    particular the concatenated outputs are equal. *)
Theorem pipeThrough_chunk_invariant (chunks : list (list Byte.byte)) :
  pipeThrough chunks = pipeThrough [concat chunks] ∧
  concat (pipeThrough chunks) = concat (pipeThrough [concat chunks]).
Proof.
  assert (pipeThrough chunks = pipeThrough [concat chunks]) as E.
  { unfold pipeThrough.
    pose proof (pipeChunks_spec chunks streamInit [] eq_refl) as H1.
    pose proof (pipeChunks_spec [concat chunks] streamInit [] eq_refl) as H2.
    cbn [concat] in H2. rewrite app_nil_r in H2.
    etrans; [exact H1|]. symmetry. exact H2. }
  split; [done|]. by rewrite E.
Qed.

End Streaming.

(** *** Exceptions and headers on the buffered path *)
Section Buffered.
Context {platform : Platform} {helpers : RequestHelpers}.

Lemma bind_ret_inv {A B} (c : Exc A) (k : A → Exc B) (b : B) :
  bind c k = ret b → ∃ a, c = ret a ∧ k a = ret b.
Proof. destruct c as [e|a]; simpl; [done|]. intros. by exists a. Qed.

Lemma new_Response_inv b s st hs r :
  new_Response b s st hs = ret r →
  status r = s ∧ statusText r = st ∧ headers r = hs ∧ body r = b.
Proof.
  unfold new_Response. destruct (negb _); [done|].
  destruct (_ && _); [done|]. by intros [= <-].
Qed.

(** Where [errorBody?.error] is falsy there is nothing to read the retry
    delay from: the translation leaves the headers as they are. *)
Lemma retryHeaders_falsy err hs :
  truthyOpt err = false → retryHeaders err hs = ret hs.
Proof.
  unfold retryHeaders. destruct err as [[| | | | |]|]; simpl; try done.
Qed.

(** The error block never changes the headers: it returns as soon as
    [errorBody.error] is truthy, and finds no details otherwise. *)
Lemma errorBlock_headers response text hs meta res :
  errorBlock response text hs meta = ret res →
  match res with
  | inl r => headers r = hs
  | inr hs1 => hs1 = hs
  end.
Proof.
  unfold errorBlock.
  destruct (optProp (Some _) (lit "error")) as [e|] eqn:Ee.
  - destruct (truthyJson e) eqn:Et.
    + intros (e1 & _ & Hk)%bind_ret_inv.
      apply bind_ret_inv in Hk as (b1 & _ & Hk).
      apply bind_ret_inv in Hk as (r & Hr & Hk).
      injection Hk as <-. by apply new_Response_inv in Hr as (_ & _ & ? & _).
    + rewrite retryHeaders_falsy by done. simpl. by intros [= <-].
  - rewrite retryHeaders_falsy by done. simpl. by intros [= <-].
Qed.

(** Reading the body of a response changes nothing but the body. *)
Lemma afterRead_frame response :
  status (afterRead response) = status response ∧
  statusText (afterRead response) = statusText response ∧
  headers (afterRead response) = headers response.
Proof. unfold afterRead. by destruct (body response). Qed.

(** The [try] leaves the object [response] as [response.text()] left it. *)
Lemma normalise_object response streaming isEventStream meta :
  (normalise response streaming isEventStream meta).2 = afterRead response.
Proof. reflexivity. Qed.

Lemma normalise_headers response streaming isEventStream meta r :
  ok response = false →
  (normalise response streaming isEventStream meta).1 = ret r →
  ∃ usage, headers r = usageHeaders usage (headers response).
Proof.
  intros Hok. unfold normalise, response_text. cbn [fst]. rewrite Hok.
  cbn [negb].
  intros (text & _ & Hk)%bind_ret_inv.
  apply bind_ret_inv in Hk as (early & Hearly & Hk).
  apply errorBlock_headers in Hearly.
  destruct early as [r0|hs1].
  { injection Hk as <-. by exists None. }
  subst hs1.
  apply bind_ret_inv in Hk as (usageFromSse & _ & Hk).
  apply bind_ret_inv in Hk as (parsed & _ & Hk).
  apply bind_ret_inv in Hk as (patched & _ & Hk).
  apply bind_ret_inv in Hk as (usage & _ & Hk).
  exists usage.
  destruct parsed as [p|].
  2:{ by apply new_Response_inv in Hk as (_ & _ & ? & _). }
  destruct (optProp _ (lit "response")) as [inner|].
  { apply bind_ret_inv in Hk as (t & _ & Hk).
    by apply new_Response_inv in Hk as (_ & _ & ? & _). }
  destruct patched;
    by apply new_Response_inv in Hk as (_ & _ & ? & _).
Qed.

Lemma usageHeaders_retry usage hs :
  hget "Retry-After" (usageHeaders usage hs) = hget "Retry-After" hs ∧
  hget "retry-after-ms" (usageHeaders usage hs) = hget "retry-after-ms" hs.
Proof.
  unfold usageHeaders, setCount, hget, hset.
  destruct usage as [[[c|] [t|] [p|] [d|]]|]; simpl;
    rewrite ?lookup_insert_ne by (vm_compute; congruence); done.
Qed.

(** C7 (what the code does).  On a non-success response
    [transformAntigravityResponse] never sets the retry headers: whatever
    the error body carries, the [Retry-After] and [retry-after-ms] headers
    of the result are those of the upstream response.  The translation of
    [RetryInfo.retryDelay] is unreachable, because the function returns as
    soon as [errorBody.error] is truthy. *)
Theorem retry_headers_never_set (response : Response) (streaming : bool)
    (meta : RequestMeta) (r : Response) :
  ok response = false →
  transformAntigravityResponse response streaming meta = ret r →
  hget "Retry-After" (headers r) = hget "Retry-After" (headers response) ∧
  hget "retry-after-ms" (headers r) = hget "retry-after-ms" (headers response).
Proof.
  intros Hok. unfold transformAntigravityResponse.
  destruct (negb _ && negb _); [by intros [= <-]|].
  rewrite Hok, andb_false_r. cbn [andb].
  pose proof (normalise_object response streaming
    (includes (default [] (hget "content-type" (headers response)))
              (lit "text/event-stream")) meta) as Hobj.
  pose proof (normalise_headers response streaming
    (includes (default [] (hget "content-type" (headers response)))
              (lit "text/event-stream")) meta) as Hres.
  destruct (normalise response streaming _ meta) as [[e|r0] response1];
    cbn [fst snd] in *; intros [= <-]; simpl.
  - rewrite Hobj. by destruct (afterRead_frame response) as (_ & _ & ->).
  - destruct (Hres r0 Hok eq_refl) as [usage ->]. apply usageHeaders_retry.
Qed.

(** On a response as [fetch] delivers it, no branch of
    [transformAntigravityResponse] throws. *)
Lemma transformAntigravityResponse_returns response streaming meta :
  fromFetch response →
  ∃ r, transformAntigravityResponse response streaming meta = ret r.
Proof.
  intros (Hrange & Hnull & Hused). unfold transformAntigravityResponse.
  destruct (negb _ && negb _); [by eexists|].
  destruct (_ && hasBody response) eqn:Eb.
  2:{ destruct (normalise _ _ _ _). by eexists. }
  apply andb_true_iff in Eb as [Eb Hbody].
  assert (∀ b, b ≠ BodyNull →
            ∃ r, new_Response b (status response) (statusText response)
                   (headers response) = ret r) as Hnew.
  { intros b Hb. unfold new_Response.
    assert ((200 <=? status response) && (status response <=? 599) = true)
      as -> by (apply andb_true_iff; split; apply Z.leb_le; lia).
    cbn [negb].
    destruct (isNullBodyStatus (status response)) eqn:En; [|by eexists].
    unfold hasBody in Hbody. by rewrite (Hnull eq_refl) in Hbody. }
  unfold hasBody, bodyUsed in *.
  destruct (body response); try done; simpl; by apply Hnew.
Qed.

(** C9 (what the code does).  On the buffered path, whenever a step of
    the normalisation throws (reading the body, an assignment on a
    primitive, a helper, building the new [Response]),
    [transformAntigravityResponse] resolves with the object of the
    upstream response; but by then [response.text()] has been called on
    it.  Status, status text and headers are those of the upstream
    response; a body, if there was one, is used up: the response handed back
    differs from the one received, and reading it throws. *)
Theorem transformAntigravityResponse_falls_back (response : Response)
    (streaming : bool) (meta : RequestMeta) (e : Exn) :
  onBufferedPath response streaming →
  (normalise response streaming
     (includes (default [] (hget "content-type" (headers response)))
               (lit "text/event-stream")) meta).1 = throw e →
  transformAntigravityResponse response streaming meta =
    ret (afterRead response)
  ∧ status (afterRead response) = status response
  ∧ statusText (afterRead response) = statusText response
  ∧ headers (afterRead response) = headers response
  ∧ (hasBody response = true →
     bodyUsed (afterRead response) = true ∧
     (response_text (afterRead response)).1 = throw TypeError ∧
     (bodyUsed response = false → afterRead response ≠ response))
  ∧ (hasBody response = false → afterRead response = response).
Proof.
  intros [Hct Hstream] He.
  split.
  { unfold transformAntigravityResponse. rewrite Hstream.
    pose proof (normalise_object response streaming
      (includes (default [] (hget "content-type" (headers response)))
                (lit "text/event-stream")) meta) as Hobj.
    destruct (normalise response streaming _ meta) as [result response1].
    cbn [fst snd] in *. subst result response1.
    destruct Hct as [-> | ->]; simpl; by rewrite ?andb_false_r. }
  destruct (afterRead_frame response) as (H1 & H2 & H3).
  split; [done|]. split; [done|]. split; [done|].
  unfold hasBody, bodyUsed, response_text, afterRead.
  split.
  - destruct (body response) eqn:Eb; try done; intros _; simpl;
      (split; [done|]); (split; [done|]); intros _ E; by rewrite <- E in Eb.
  - by destruct (body response).
Qed.

End Buffered.

(** Sample runs. *)

Lemma retry_headers_never_set_witness :
  ok rateLimitedResponse = false ∧
  ∃ r, transformAntigravityResponse (platform := samplePlatform) (helpers := sampleHelpers)
         rateLimitedResponse false sampleMeta = ret r ∧
       hget "Retry-After" (headers r) = None ∧
       hget "retry-after-ms" (headers r) = None.
Proof.
  split; [reflexivity|].
  eexists. split; [vm_compute; reflexivity|].
  apply (retry_headers_never_set (platform := samplePlatform) (helpers := sampleHelpers)
           rateLimitedResponse false sampleMeta); [reflexivity|].
  vm_compute. reflexivity.
Defined.

Lemma transformAntigravityResponse_falls_back_witness :
  transformAntigravityResponse (platform := quotaPlatform)
    (helpers := sampleHelpers) quotaResponse false sampleMeta =
    ret {| status := 500; statusText := lit "Internal Server Error";
           headers := jsonHeaders; body := BodyUsed |}
  ∧ (response_text (platform := quotaPlatform)
       {| status := 500; statusText := lit "Internal Server Error";
          headers := jsonHeaders; body := BodyUsed |}).1 = throw TypeError.
Proof.
  destruct (transformAntigravityResponse_falls_back
              (platform := quotaPlatform) (helpers := sampleHelpers)
              quotaResponse false sampleMeta TypeError)
    as (H1 & _ & _ & _ & H5 & _).
  - split; [left|]; reflexivity.
  - reflexivity.
  - split; [exact H1|]. by destruct (H5 eq_refl) as (_ & H & _).
Defined.

(** The same happens when the body cannot be read at all. *)
Example transformAntigravityResponse_broken :
  transformAntigravityResponse (platform := samplePlatform)
    (helpers := sampleHelpers) brokenResponse false sampleMeta =
    ret (afterRead brokenResponse) ∧
  afterRead brokenResponse ≠ brokenResponse.
Proof. split; [reflexivity|done]. Qed.

(** *** Request preparation *)

Example matchModelAction_sample :
  matchModelAction sampleUrl =
    Some (lit "gemini-3-pro-high", lit "generateContent") ∧
  matchModelAction sampleStreamUrl =
    Some (lit "gemini-3-pro-high", lit "streamGenerateContent") ∧
  matchModelAction (lit "https://generativelanguage.googleapis.com/v1beta/models") =
    None.
Proof. repeat split; reflexivity. Qed.

Section PrepareFacts.
Context {constants : Constants} {rewriter : BodyRewriter}.

Ltac header_lookup :=
  unfold hget, hset, hdelete;
  repeat first
    [ rewrite lookup_insert_eq
    | rewrite lookup_delete_eq
    | rewrite lookup_insert_ne by (vm_compute; congruence)
    | rewrite lookup_delete_ne by (vm_compute; congruence) ];
  try done.

(** C10. For a URL of the watched API that matches the
    [models/{model}:{action}] pattern, when the body is absent, the empty
    string or not a string, [prepareAntigravityRequest] succeeds and leaves
    the body as it is (nothing is rewritten: no tool diagnostics, no debug
    header), while the URL is rewritten to the endpoint's
    [/v1internal:{action}] (with [?alt=sse] when streaming) and the
    authorization and client headers are set. *)
Theorem prepareAntigravityRequest_keeps_body (url : jsstring)
    (init0 : option RequestInit) (accessToken : jsstring)
    (projectId endpointOverride : option jsstring)
    (model action : jsstring) :
  includes url (lit "generativelanguage.googleapis.com") = true →
  matchModelAction url = Some (model, action) →
  keptBody (init0 ≫= initBody) →
  ∃ p,
    prepareAntigravityRequest (UrlString url) init0 accessToken projectId
      endpointOverride = ret p ∧
    initBody (init p) = init0 ≫= initBody ∧
    method (init p) = init0 ≫= method ∧
    streaming p = bool_decide (action = STREAM_ACTION) ∧
    request p =
      UrlString (default ANTIGRAVITY_ENDPOINT endpointOverride ++
                 lit "/v1internal:" ++ action ++
                 (if bool_decide (action = STREAM_ACTION)
                  then lit "?alt=sse" else [])) ∧
    hget "Authorization" (initHeaders (init p)) =
      Some (lit "Bearer " ++ accessToken) ∧
    hget "x-api-key" (initHeaders (init p)) = None ∧
    hget "User-Agent" (initHeaders (init p)) =
      Some ANTIGRAVITY_HEADERS_User_Agent ∧
    hget "X-Goog-Api-Client" (initHeaders (init p)) =
      Some ANTIGRAVITY_HEADERS_X_Goog_Api_Client ∧
    hget "Client-Metadata" (initHeaders (init p)) =
      Some ANTIGRAVITY_HEADERS_Client_Metadata ∧
    (bool_decide (action = STREAM_ACTION) = true →
     hget "Accept" (initHeaders (init p)) = Some (lit "text/event-stream")) ∧
    hget "X-Opencode-Tools-Debug" (initHeaders (init p)) =
      hget "X-Opencode-Tools-Debug" (from_option initHeaders ∅ init0) ∧
    toolDebugMissing (meta p) = Some 0 ∧
    toolDebugPayload (meta p) = None.
Proof.
  intros Hurl Hmatch Hbody. unfold prepareAntigravityRequest.
  cbn [isGenerativeLanguageRequest]. rewrite Hurl, Hmatch. cbn [negb].
  assert ((match init0 ≫= initBody with
           | Some (BodyString b) =>
               if truthy b
               then let* rw := rewriteBody b model (from_option trim [] projectId)
                    in ret (Some rw)
               else ret None
           | _ => ret None
           end) = ret None) as ->.
  { destruct (init0 ≫= initBody) as [[[|c s]|id]|]; done. }
  cbn [bind from_option mbind option_bind].
  eexists. split; [reflexivity|]. cbn [initBody init method streaming request
    meta initHeaders toolDebugMissing toolDebugPayload].
  change (0 <? from_option newToolDebugMissing 0 None) with false.
  cbn iota.
  repeat split; try done;
    try (intros ->; by header_lookup);
    destruct (bool_decide (action = STREAM_ACTION)); by header_lookup.
Qed.

End PrepareFacts.

Lemma prepareAntigravityRequest_keeps_body_witness :
  ∃ p,
    prepareAntigravityRequest (constants := sampleConstants) (rewriter := sampleRewriter)
      (UrlString sampleStreamUrl)
      (Some {| method := Some (lit "POST"); initHeaders := ∅;
               initBody := Some (BodyOther 7) |})
      (lit "token") None (Some (lit "https://daily.example")) = ret p ∧
    initBody (init p) = Some (BodyOther 7) ∧
    request p =
      UrlString (lit "https://daily.example/v1internal:streamGenerateContent?alt=sse") ∧
    hget "Authorization" (initHeaders (init p)) = Some (lit "Bearer token").
Proof.
  destruct (prepareAntigravityRequest_keeps_body
              (constants := sampleConstants) (rewriter := sampleRewriter)
              sampleStreamUrl
              (Some {| method := Some (lit "POST"); initHeaders := ∅;
                       initBody := Some (BodyOther 7) |})
              (lit "token") None (Some (lit "https://daily.example"))
              (lit "gemini-3-pro-high") (lit "streamGenerateContent")
              eq_refl eq_refl I)
    as (p & Hp & Hb & _ & _ & Hr & Ha & _).
  exists p. repeat split; assumption.
Defined.

End RequestFacts.

(** ** The dispatch loop *)
Module PluginFacts.
Import JsString Accounts AccountsFacts Runtime Request RequestFacts Plugin
  Samples PluginSamples Loader LoaderSamples.

(** *** The rate-limit window *)

Example parseInt_samples :
  parseInt (lit "15000") = Some 15000 ∧ parseInt (lit " 30") = Some 30 ∧
  parseInt (lit "12px") = Some 12 ∧ parseInt (lit "-5") = Some (-5) ∧
  parseInt (lit "soon") = None ∧ parseInt [] = None.
Proof. repeat split; reflexivity. Qed.

(** The scenarios of the specification: [retry-after-ms: 15000] alone, and
    [retry-after: 30] alone. *)
Example rateLimitWindow_scenarios :
  rateLimitWindow (plainResponse 429 (hset "retry-after-ms" (lit "15000") ∅))
    = 15000 ∧
  rateLimitWindow (plainResponse 429 (hset "retry-after" (lit "30") ∅))
    = 30000 ∧
  rateLimitWindow (plainResponse 429 ∅) = 60000 ∧
  rateLimitWindow
    (plainResponse 429 (hset "retry-after" (lit "15")
                          (hset "retry-after-ms" (lit "15000") ∅))) = 15000.
Proof. repeat split; reflexivity. Qed.

(** A [retry-after-ms] header is read as milliseconds, provided the
    [retry-after] header does not carry the very same text. *)
Lemma rateLimitWindow_ms response v n :
  hget "retry-after-ms" (headers response) = Some v → truthy v = true →
  parseInt v = Some n →
  hget "retry-after" (headers response) ≠ Some v →
  rateLimitWindow response = n.
Proof.
  intros Hms Hv Hn Hne. unfold rateLimitWindow, orHeader.
  rewrite Hms, Hv. cbn iota. rewrite Hv, Hn.
  rewrite bool_decide_eq_false_2; [done|]. intros E. by apply Hne.
Qed.

(** Without a (non-empty) [retry-after-ms] header, [retry-after] is read as
    seconds. *)
Lemma rateLimitWindow_seconds response v n :
  (hget "retry-after-ms" (headers response) = None ∨
   hget "retry-after-ms" (headers response) = Some []) →
  hget "retry-after" (headers response) = Some v → truthy v = true →
  parseInt v = Some n →
  rateLimitWindow response = n * 1000.
Proof.
  intros Hms Hs Hv Hn. unfold rateLimitWindow, orHeader.
  destruct Hms as [-> | ->]; simpl; rewrite Hs; cbn iota; rewrite Hv, Hn;
    by rewrite bool_decide_eq_true_2.
Qed.

Lemma rateLimitWindow_default response :
  hget "retry-after-ms" (headers response) = None →
  hget "retry-after" (headers response) = None →
  rateLimitWindow response = 60000.
Proof. intros Hms Hs. unfold rateLimitWindow, orHeader. by rewrite Hms, Hs. Qed.

(** C5 (what the code does).  A 429 response carrying
    [retry-after-ms: 15000] together with a [retry-after] header of the same
    text gets a window of 15000000 ms, not 15000 ms: the test that decides
    whether the value is in seconds compares the texts of the headers, not
    which header was read.  In the dispatch loop the account is marked
    accordingly, and the call moves on to the next account. *)
Theorem rateLimitWindow_same_text :
  hget "retry-after-ms" bothRetryHeaders = Some (lit "15000") ∧
  rateLimitWindow (plainResponse 429 bothRetryHeaders) = 15000000 ∧
  (sampleFetch rateLimitedThenOk).2 !! 1%nat =
    Some (Marked 0 0 15000000) ∧
  ((sampleFetch rateLimitedThenOk).1.2 ≫= λ m,
     rateLimitResetTime <$> accounts m !! 0%nat) =
    Some (1000 + 15000000).
Proof. repeat split; vm_compute; reflexivity. Qed.

(** *** Endpoint fallback *)

Lemma sweep_eligible_clears now a :
  eligible now a = true → isRateLimited (sweep now a).2 = false.
Proof.
  unfold eligible, sweep. destruct (isRateLimited a) eqn:E; simpl; [|done].
  by destruct (rateLimitResetTime a <? now).
Qed.

(** The account that [getNext] hands out carries no rate-limit flag. *)
Lemma getNext_selected now m r m1 :
  getNext now m = (Some r, m1) →
  ∃ a, accounts m1 !! r = Some a ∧ isRateLimited a = false.
Proof.
  unfold getNext. case_bool_decide; [done|].
  destruct (available now (accounts m) !! _) as [r'|] eqn:Er; [|done].
  intros [= -> <-]. simpl.
  apply list_elem_of_lookup_2, elem_of_available in Er as (a & Ha & Hel).
  exists (set_lastUsed now (sweep now a).2).
  rewrite list_lookup_alter_eq, list_lookup_fmap, Ha. simpl.
  split; [done|]. by apply sweep_eligible_clears.
Qed.

Section FetchFacts.
Context {platform : Platform} {helpers : RequestHelpers}
  {constants : Constants} {rewriter : BodyRewriter} {auth : AuthHelpers}
  {world : World}.
Variable input : RequestInfo.
Variable init0 : option RequestInit.

(** A 200 answer as [fetch] delivers it is always normalised into a
    response with status 200: no branch of [transformAntigravityResponse]
    throws on it. *)
Lemma transformAntigravityResponse_200 response streaming0 meta0 :
  status response = 200 → bodyUsed response = false →
  ∃ r, transformAntigravityResponse response streaming0 meta0 = ret r ∧
       status r = 200.
Proof.
  intros Hst Hused.
  destruct (transformAntigravityResponse_returns response streaming0 meta0)
    as [r Hr].
  { unfold fromFetch. rewrite Hst. by repeat split. }
  exists r. split; [done|].
  unfold transformAntigravityResponse in Hr.
  destruct (negb _ && negb _); [by injection Hr as <-|].
  destruct (_ && hasBody response).
  - apply bind_ret_inv in Hr as (b & _ & Hr).
    apply new_Response_inv in Hr as (-> & _). done.
  - pose proof (normalise_object response streaming0
      (includes (default [] (hget "content-type" (headers response)))
                (lit "text/event-stream")) meta0) as Hobj.
    destruct (normalise response streaming0 _ meta0) as [[e|r0] response1]
      eqn:E; cbn [fst snd] in *; injection Hr as <-; simpl.
    + rewrite Hobj. by destruct (afterRead_frame response) as (-> & _).
    + assert ((normalise response streaming0
        (includes (default [] (hget "content-type" (headers response)))
                  (lit "text/event-stream")) meta0).1 = ret r0) as E1
        by (by rewrite E).
      unfold normalise, response_text in E1. cbn [fst] in E1.
      apply bind_ret_inv in E1 as (text & _ & Hk).
      assert (ok response = true) as Hok by (unfold ok; by rewrite Hst).
      rewrite Hok in Hk. cbn [negb bind ret] in Hk.
      apply bind_ret_inv in Hk as (usageFromSse & _ & Hk).
      apply bind_ret_inv in Hk as (parsed & _ & Hk).
      apply bind_ret_inv in Hk as (patched & _ & Hk).
      apply bind_ret_inv in Hk as (usage & _ & Hk).
      destruct parsed as [p|].
      2:{ apply new_Response_inv in Hk as (-> & _). done. }
      destruct (optProp _ (lit "response")) as [inner|].
      { apply bind_ret_inv in Hk as (t & _ & Hk).
        apply new_Response_inv in Hk as (-> & _). done. }
      destruct patched; apply new_Response_inv in Hk as (-> & _); done.
Qed.

(** What the endpoint loop logs belongs to its attempt and account, and is
    never a [Marked] event. *)
Lemma tryEndpoints_events a r tok pid eps : ∀ i lastR lastE res evs ev,
  tryEndpoints input init0 a r tok pid i eps lastR lastE = (res, evs) →
  ev ∈ evs →
  (∃ j p o, ev = Answered a r j p o) ∨ ev = Saved a.
Proof.
  induction eps as [|ep rest IH]; intros i lastR lastE res evs ev Hrun Hin;
    cbn [tryEndpoints] in Hrun.
  { injection Hrun as <- <-. by apply elem_of_nil in Hin. }
  destruct (prepareAntigravityRequest _ _ _ _ _) as [e|p].
  { destruct (negb _); [by eapply IH|].
    injection Hrun as <- <-. by apply elem_of_nil in Hin. }
  destruct (upstream a i p) as [e|resp].
  { destruct (negb _).
    - destruct (tryEndpoints _ _ _ _ _ _ _ _ _ _) as [res' evs'] eqn:E.
      injection Hrun as <- <-.
      apply elem_of_cons in Hin as [->|Hin]; [left; eauto|by eapply IH].
    - injection Hrun as <- <-.
      apply list_elem_of_singleton in Hin as ->. left; eauto. }
  destruct (status resp =? 429).
  { injection Hrun as <- <-.
    apply list_elem_of_singleton in Hin as ->. left; eauto. }
  destruct (_ && _).
  - destruct (tryEndpoints _ _ _ _ _ _ _ _ _ _) as [res' evs'] eqn:E.
    injection Hrun as <- <-.
    apply elem_of_cons in Hin as [->|Hin]; [left; eauto|by eapply IH].
  - injection Hrun as <- <-.
    apply elem_of_cons in Hin as [->|Hin]; [left; eauto|].
    apply list_elem_of_singleton in Hin as ->. by right.
Qed.

Lemma tryEndpoints_no_mark a r tok pid eps i lastR lastE res evs a' r' ms :
  tryEndpoints input init0 a r tok pid i eps lastR lastE = (res, evs) →
  Marked a' r' ms ∉ evs.
Proof.
  intros Hrun Hin.
  by destruct (tryEndpoints_events _ _ _ _ _ _ _ _ _ _ _ Hrun Hin)
    as [(? & ? & ? & ?)|?].
Qed.

(** On a 403, 404 or 5xx answer from an endpoint that is not the last,
    the loop remembers the response and goes on with the next endpoint. *)
Lemma tryEndpoints_advances a r tok pid i ep rest lastR lastE p response :
  prepareAntigravityRequest input init0 tok pid (Some ep) = ret p →
  upstream a i p = ret response →
  (status response = 404 ∨ status response = 403 ∨ 500 ≤ status response) →
  rest ≠ [] →
  tryEndpoints input init0 a r tok pid i (ep :: rest) lastR lastE =
    (let '(res, evs) :=
       tryEndpoints input init0 a r tok pid (S i) rest (Some response) lastE in
     (res, Answered a r i p (inr response) :: evs)).
Proof.
  intros Hp Hup Hst Hrest. cbn [tryEndpoints]. unfold ret in *.
  rewrite Hp, Hup.
  assert ((status response =? 429) = false) as ->
    by (apply Z.eqb_neq; lia).
  assert (shouldRetryEndpoint response = true) as ->.
  { unfold shouldRetryEndpoint.
    destruct Hst as [->| [->|Hge]]; [done|done|].
    apply Z.leb_le in Hge. rewrite Hge. by rewrite orb_true_r. }
  by rewrite bool_decide_eq_false_2.
Qed.

Lemma shouldRetryEndpoint_not_429 response :
  shouldRetryEndpoint response = true → (status response =? 429) = false.
Proof.
  unfold shouldRetryEndpoint. intros H. apply Z.eqb_neq. intros E.
  rewrite E in H. done.
Qed.

(** The loop goes past every endpoint that fails in one of these ways, as
    long as another endpoint is left; each answer it got is logged. *)
Lemma tryEndpoints_passes_over a r tok pid between tail :
  tail ≠ [] →
  ∀ i lastR lastE,
    (∀ k ep, between !! k = Some ep →
             passedOver input init0 a tok pid (i + k) ep) →
    ∃ skipped lastR' lastE',
      tryEndpoints input init0 a r tok pid i (between ++ tail) lastR lastE =
        (let '(res, evs) :=
           tryEndpoints input init0 a r tok pid (i + length between) tail
             lastR' lastE' in
         (res, skipped ++ evs)) ∧
      Forall (λ ev, ∃ j p o, ev = Answered a r j p o ∧
                             (i ≤ j < i + length between)%nat) skipped.
Proof.
  intros Htail. induction between as [|ep between IH];
    intros i lastR lastE Hpass.
  { exists [], lastR, lastE. simpl. rewrite Nat.add_0_r.
    split; [by destruct (tryEndpoints _ _ _ _ _ _ _ _ _ _)|constructor]. }
  assert (between ++ tail ≠ []) as Hne by (by destruct between, tail).
  assert (∀ lastR1 lastE1, ∃ skipped lastR' lastE',
    tryEndpoints input init0 a r tok pid (S i) (between ++ tail)
      lastR1 lastE1 =
      (let '(res, evs) :=
         tryEndpoints input init0 a r tok pid
           (i + length (ep :: between)) tail lastR' lastE' in
       (res, skipped ++ evs)) ∧
    Forall (λ ev, ∃ j p o, ev = Answered a r j p o ∧
                (i ≤ j < i + length (ep :: between))%nat) skipped) as Hrest.
  { intros lastR1 lastE1.
    destruct (IH (S i) lastR1 lastE1) as (skipped & lastR' & lastE' & Hrun & Hall).
    { intros k ep' Hk. specialize (Hpass (S k) ep' Hk).
      by replace (S i + k)%nat with (i + S k)%nat by lia. }
    exists skipped, lastR', lastE'. simpl.
    replace (i + S (length between))%nat with (S i + length between)%nat
      by lia.
    split; [done|]. eapply Forall_impl; [exact Hall|].
    intros ev (j & p & o & -> & Hj). exists j, p, o. split; [done|lia]. }
  pose proof (Hpass 0%nat ep eq_refl) as Hep. rewrite Nat.add_0_r in Hep.
  unfold passedOver in Hep.
  change ((ep :: between) ++ tail) with (ep :: (between ++ tail)).
  cbn [tryEndpoints]. rewrite (bool_decide_eq_false_2 _ Hne). cbn [negb].
  destruct (prepareAntigravityRequest _ _ _ _ _) as [e|p]; [by apply Hrest|].
  assert (∀ o lastR1 lastE1, ∃ skipped lastR' lastE',
    (let '(res, evs) :=
       tryEndpoints input init0 a r tok pid (S i) (between ++ tail)
         lastR1 lastE1 in
     (res, Answered a r i p o :: evs)) =
      (let '(res, evs) :=
         tryEndpoints input init0 a r tok pid
           (i + length (ep :: between)) tail lastR' lastE' in
       (res, skipped ++ evs)) ∧
    Forall (λ ev, ∃ j p o, ev = Answered a r j p o ∧
                (i ≤ j < i + length (ep :: between))%nat) skipped) as Hlogged.
  { intros o lastR1 lastE1.
    destruct (Hrest lastR1 lastE1) as (skipped & lastR' & lastE' & -> & Hall).
    exists (Answered a r i p o :: skipped), lastR', lastE'.
    split; [by destruct (tryEndpoints _ _ _ _ _ _ _ _ _ _)|].
    constructor; [|done]. exists i, p, o. split; [done|simpl; lia]. }
  destruct (upstream a i p) as [e|resp]; [by apply Hlogged|].
  rewrite (shouldRetryEndpoint_not_429 _ Hep), Hep. cbn [andb].
  by apply Hlogged.
Qed.

(** Conversely, the loop asks an endpoint only after every endpoint before
    it has failed in one of these ways. *)
Lemma tryEndpoints_reached a r tok pid eps : ∀ i lastR lastE j p o,
  Answered a r j p o ∈
    (tryEndpoints input init0 a r tok pid i eps lastR lastE).2 →
  (i ≤ j)%nat ∧
  ∀ k ep, (i + k < j)%nat → eps !! k = Some ep →
          passedOver input init0 a tok pid (i + k) ep.
Proof.
  induction eps as [|ep rest IH]; intros i lastR lastE j p o;
    cbn [tryEndpoints].
  { by intros ?%elem_of_nil. }
  assert (∀ lastR1 lastE1,
    passedOver input init0 a tok pid i ep →
    Answered a r j p o ∈
      (tryEndpoints input init0 a r tok pid (S i) rest lastR1 lastE1).2 →
    (i ≤ j)%nat ∧
    ∀ k ep', (i + k < j)%nat → (ep :: rest) !! k = Some ep' →
             passedOver input init0 a tok pid (i + k) ep') as Hrest.
  { intros lastR1 lastE1 Hep Hin.
    destruct (IH (S i) lastR1 lastE1 j p o Hin) as [Hle Hbefore].
    split; [lia|]. intros [|k] ep' Hk Hep'.
    - injection Hep' as <-. by rewrite Nat.add_0_r.
    - replace (i + S k)%nat with (S i + k)%nat by lia.
      apply Hbefore; [lia|done]. }
  assert (∀ k ep', (i + k < i)%nat → (ep :: rest) !! k = Some ep' →
            passedOver input init0 a tok pid (i + k) ep') as Hhere
    by (intros; lia).
  unfold passedOver at 1 in Hrest.
  destruct (prepareAntigravityRequest _ _ _ _ _) as [e|p'].
  { destruct (negb _); [by apply Hrest|]. by intros ?%elem_of_nil. }
  destruct (upstream a i p') as [e|resp].
  { destruct (negb _).
    - specialize (Hrest lastR (Some e) I).
      destruct (tryEndpoints _ _ _ _ _ _ _ _ _ _) as [res evs]. simpl in *.
      intros [[= <- _ _]|Hin]%elem_of_cons; [done|by apply Hrest].
    - intros [= <- _ _]%list_elem_of_singleton. done. }
  destruct (status resp =? 429).
  { intros [= <- _ _]%list_elem_of_singleton. done. }
  destruct (shouldRetryEndpoint resp) eqn:Hretry; cbn [andb].
  - destruct (negb _).
    + specialize (Hrest (Some resp) lastE eq_refl).
      destruct (tryEndpoints _ _ _ _ _ _ _ _ _ _) as [res evs]. simpl in *.
      intros [[= <- _ _]|Hin]%elem_of_cons; [done|by apply Hrest].
    + simpl. intros [[= <- _ _]|Hin]%elem_of_cons; [done|].
      by apply list_elem_of_singleton in Hin.
  - simpl. intros [[= <- _ _]|Hin]%elem_of_cons; [done|].
    by apply list_elem_of_singleton in Hin.
Qed.

Lemma updateAccount_flags r acc ex p m :
  isRateLimited <$> accounts (updateAccount r acc ex p m) =
  isRateLimited <$> accounts m.
Proof.
  unfold updateAccount. simpl. apply list_eq. intros i.
  rewrite !list_lookup_fmap.
  destruct (decide (r = i)) as [->|Hne].
  - rewrite list_lookup_alter_eq. by destruct (accounts m !! i).
  - by rewrite list_lookup_alter_ne.
Qed.

(** The credentials step never touches a rate-limit flag. *)
Lemma freshCredentials_flags attempt r m1 authRecord m2 :
  freshCredentials attempt r m1 = Usable authRecord m2 →
  isRateLimited <$> accounts m2 = isRateLimited <$> accounts m1.
Proof.
  unfold freshCredentials. destruct (accessTokenExpired _).
  - destruct (refreshAccessToken _ _) as [refreshed|cleared|cleared e];
      [|done..].
    intros [= <- <-]. apply updateAccount_flags.
  - by intros [= <- <-].
Qed.

(** C6. Take any attempt of the loop over the accounts that gets as far as
    the endpoints: [getNext] selects an account, its credentials are usable
    and the project context resolves.  If the first fallback endpoint
    answers 404, 403 or 5xx, the endpoints after it fail in a way that
    makes the loop go on (403, 404, 5xx, a network failure, a request that
    cannot be prepared), and a later endpoint answers 200, then the loop
    goes from endpoint to endpoint up to that one, saves the credentials,
    and the call returns that answer as [transformAntigravityResponse]
    normalises it (a response with status 200).  No account is marked: the
    log holds the answers and the save only, the rate-limit flags of the
    pool are as [getNext] left them, and the selected account carries
    none.  (A later endpoint is asked only after those before it have
    failed in this way, [tryEndpoints_reached]; for the endpoint right
    after the first there is nothing in between.) *)
Theorem fetch_endpoint_fallback (remaining attempt : nat)
    (m m1 m2 : AccountManager) (r : nat) (authRecord : OAuthAuthDetails)
    (tok : jsstring) (pid : option jsstring)
    (ep0 : jsstring) (between : list jsstring) (epj : jsstring)
    (rest : list jsstring) (p0 pj : Prepared) (resp0 respj : Response) :
  getNext (clockSelect attempt) m = (Some r, m1) →
  freshCredentials attempt r m1 = Usable authRecord m2 →
  authAccess authRecord = Some tok → truthy tok = true →
  ensureProjectContext authRecord = ret pid →
  ANTIGRAVITY_ENDPOINT_FALLBACKS = ep0 :: between ++ epj :: rest →
  prepareAntigravityRequest input init0 tok pid (Some ep0) = ret p0 →
  upstream attempt 0 p0 = ret resp0 →
  (status resp0 = 404 ∨ status resp0 = 403 ∨ 500 ≤ status resp0) →
  (∀ k ep, between !! k = Some ep →
           passedOver input init0 attempt tok pid (S k) ep) →
  prepareAntigravityRequest input init0 tok pid (Some epj) = ret pj →
  upstream attempt (S (length between)) pj = ret respj →
  status respj = 200 → bodyUsed respj = false →
  ∃ normalised skipped,
    transformAntigravityResponse respj (streaming pj) (meta pj)
      = ret normalised ∧
    status normalised = 200 ∧
    dispatch input init0 (S remaining) attempt m =
      (Returned (ret normalised), m2,
       Answered attempt r 0 p0 (inr resp0) :: skipped ++
       [Answered attempt r (S (length between)) pj (inr respj);
        Saved attempt]) ∧
    Forall (λ ev, ∃ i p o, ev = Answered attempt r i p o ∧
                           (0 < i ≤ length between)%nat) skipped ∧
    isRateLimited <$> accounts m2 = isRateLimited <$> accounts m1 ∧
    (∃ acct, accounts m2 !! r = Some acct ∧ isRateLimited acct = false).
Proof.
  intros Hsel Hcred Htok Htr Hproj Heps Hp0 Hup0 Hst0 Hpass Hpj Hupj Hstj Hused.
  destruct (transformAntigravityResponse_200 respj (streaming pj) (meta pj)
              Hstj Hused) as (normalised & Hn & Hn200).
  destruct (tryEndpoints_passes_over attempt r tok pid between (epj :: rest)
              ltac:(done) 1%nat (Some resp0) None)
    as (skipped & lastR' & lastE' & Hrun & Hall).
  { intros k ep Hk. by apply Hpass. }
  exists normalised, skipped.
  split; [done|]. split; [done|].
  pose proof (freshCredentials_flags _ _ _ _ _ Hcred) as Hflags.
  split; [|split; [|split; [done|]]].
  - cbn [dispatch]. rewrite Hsel, Hcred, Htok, Htr. unfold ret in Hproj.
    rewrite Hproj, Heps.
    rewrite (tryEndpoints_advances attempt r tok pid 0 ep0
               (between ++ epj :: rest) None None p0 resp0 Hp0 Hup0 Hst0)
      by (by destruct between).
    rewrite Hrun. change (1 + length between)%nat with (S (length between)).
    cbn [tryEndpoints]. unfold ret in Hpj, Hupj.
    rewrite Hpj, Hupj.
    assert ((status respj =? 429) = false) as -> by (by rewrite Hstj).
    assert (shouldRetryEndpoint respj = false) as ->
      by (unfold shouldRetryEndpoint; by rewrite Hstj).
    cbn [andb]. by rewrite Hn.
  - eapply Forall_impl; [exact Hall|].
    intros ev (j & p & o & -> & Hj). exists j, p, o. split; [done|lia].
  - destruct (getNext_selected _ _ _ _ Hsel) as (acct & Ha & Hf).
    assert ((isRateLimited <$> accounts m2) !! r = Some false) as Hr.
    { rewrite Hflags, list_lookup_fmap, Ha. simpl. by rewrite Hf. }
    rewrite list_lookup_fmap in Hr.
    destruct (accounts m2 !! r) as [acct2|]; [|done].
    exists acct2. split; [done|]. by injection Hr.
Qed.

End FetchFacts.

Lemma fetch_endpoint_fallback_witness :
  ∃ p0 p1 m,
    sampleFetch notFoundThenOk =
      (ret (plainResponse 200 ∅), Some m,
       [Answered 0 0 0 p0 (inr (plainResponse 404 ∅));
        Answered 0 0 1 p1 (inr (plainResponse 200 ∅));
        Saved 0]) ∧
    Forall (λ a, isRateLimited a = false) (accounts m).
Proof.
  assert (∃ p0, prepareAntigravityRequest (constants := sampleConstants)
            (rewriter := sampleRewriter) (UrlString sampleUrl) None
            (lit "access-r1") (Some (lit "proj"))
            (Some (lit "https://daily.example")) = ret p0) as [p0 Hp0]
    by (eexists; reflexivity).
  assert (∃ p1, prepareAntigravityRequest (constants := sampleConstants)
            (rewriter := sampleRewriter) (UrlString sampleUrl) None
            (lit "access-r1") (Some (lit "proj"))
            (Some (lit "https://autopush.example")) = ret p1) as [p1 Hp1]
    by (eexists; reflexivity).
  destruct (fetch_endpoint_fallback
              (platform := samplePlatform) (helpers := sampleHelpers)
              (constants := sampleConstants) (rewriter := sampleRewriter)
              (auth := sampleAuthHelpers) (world := notFoundThenOk)
              (UrlString sampleUrl) None 1 0 samplePool
              (getNext 1000 samplePool).2 (getNext 1000 samplePool).2 0
              {| refresh := lit "r1|proj"; authAccess := Some (lit "access-r1");
                 authExpires := Some 9999999 |}
              (lit "access-r1") (Some (lit "proj"))
              (lit "https://daily.example") []
              (lit "https://autopush.example") [lit "https://prod.example"]
              p0 p1 (plainResponse 404 ∅) (plainResponse 200 ∅))
    as (normalised & skipped & Hn & _ & Hrun & Hskipped & _ & _);
    try reflexivity; try assumption.
  - by left.
  - intros k ep Hk. done.
  - inversion Hskipped as [E|ev l (j & ? & ? & _ & Hj) _ E];
      [|simpl in Hj; lia]. subst skipped.
    assert (normalised = plainResponse 200 ∅) as ->.
    { revert Hn. vm_compute. by intros [= <-]. }
    exists p0, p1, (getNext 1000 samplePool).2. split.
    + unfold sampleFetch, Loader.fetch, Loader.intercept.
      change (isGenerativeLanguageRequest (UrlString sampleUrl)) with true.
      cbn [negb getAuth notFoundThenOk worldOf ret].
      change (getAccountCount (Loader.newAccountManager
                (auth := sampleAuthHelpers) storedAuth)) with 2%nat.
      change (Loader.newAccountManager (auth := sampleAuthHelpers) storedAuth)
        with samplePool.
      rewrite Hrun. reflexivity.
    + vm_compute. by repeat constructor.
Defined.

End PluginFacts.

(** ** The account pool, continued *)
Module AccountOpsFacts.
Import JsString Accounts AccountsFacts Plugin PluginFacts AccountOps.

(** *** What one call of [getNext] does *)

Lemma available_lookup now l c :
  available now l ≠ [] →
  is_Some (available now l !! (c mod length (available now l))%nat).
Proof.
  intros Hne. apply lookup_lt_is_Some, Nat.mod_upper_bound.
  by destruct (available now l).
Qed.

Lemma swept_none_eligible now l :
  available now l = [] → (λ a, (sweep now a).2) <$> l = l.
Proof.
  intros Hav. rewrite <- (list_fmap_id l) at 2.
  apply list_fmap_ext. intros i a Ha. simpl.
  destruct (eligible now a) eqn:E.
  - assert (i ∈ available now l) as Hin by (apply elem_of_available; eauto).
    rewrite Hav in Hin. by apply elem_of_nil in Hin.
  - unfold eligible, sweep in *. destruct (isRateLimited a); simpl in *; [|done].
    by destruct (rateLimitResetTime a <? now).
Qed.

(** X1. [getNext] returns null exactly when no account is eligible, and
    then changes nothing (neither a flag nor the cursor).  Otherwise it
    returns an eligible account, advances the cursor by one, and leaves the
    account without rate-limit flag and stamped with the time of the
    call. *)
Theorem getNext_outcome (now : Z) (m : AccountManager) :
  match (getNext now m).1 with
  | None =>
      (∀ a, a ∈ accounts m → eligible now a = false) ∧ (getNext now m).2 = m
  | Some r =>
      r ∈ available now (accounts m) ∧
      currentIndex (getNext now m).2 = S (currentIndex m) ∧
      ∃ a, accounts (getNext now m).2 !! r = Some a ∧
           isRateLimited a = false ∧ lastUsed a = now
  end.
Proof.
  unfold getNext. case_bool_decide as Hlen.
  - apply length_zero_iff_nil in Hlen. simpl. split.
    + intros a [i Hi]%list_elem_of_lookup_1.
      destruct (eligible now a) eqn:E; [|done].
      assert (i ∈ available now (accounts m)) as Hin
        by (apply elem_of_available; eauto).
      rewrite Hlen in Hin. by apply elem_of_nil in Hin.
    + rewrite (swept_none_eligible _ _ Hlen). by destruct m.
  - assert (available now (accounts m) ≠ []) as Hne
      by (intros E; by rewrite E in Hlen).
    destruct (available_lookup now (accounts m) (currentIndex m) Hne)
      as [r Hr].
    rewrite Hr. simpl.
    pose proof (list_elem_of_lookup_2 _ _ _ Hr) as Hin.
    split; [done|]. split; [done|].
    apply elem_of_available in Hin as (a & Ha & Hel).
    exists (set_lastUsed now (sweep now a).2).
    rewrite list_lookup_alter_eq, list_lookup_fmap, Ha. simpl.
    split; [done|]. split; [|done].
    unfold eligible, sweep in *. destruct (isRateLimited a) eqn:E; simpl; [|done].
    simpl in Hel. by destruct (rateLimitResetTime a <? now).
Qed.

(** *** Rotation over the eligible accounts *)

Lemma availableFrom_ext t l l' : ∀ k,
  length l' = length l →
  (∀ i a a', l !! i = Some a → l' !! i = Some a' →
             eligible t a' = eligible t a) →
  availableFrom t k l' = availableFrom t k l.
Proof.
  revert l'. induction l as [|a l IH]; intros [|a' l'] k Hlen Hext;
    simpl in *; try done.
  rewrite (Hext 0%nat a a' eq_refl eq_refl).
  rewrite (IH l' (S k)); [done|lia|].
  intros i b b' Hb Hb'. by apply (Hext (S i)).
Qed.

Lemma same_eligibility_available l E l' t :
  same_eligibility l E l' → available t l = E → available t l' = E.
Proof.
  intros [Hlen Hext] Ht. unfold available. rewrite <- Ht.
  apply availableFrom_ext; [done|]. by apply Hext.
Qed.

Lemma eligible_stamp t s a : eligible t (set_lastUsed s a) = eligible t a.
Proof.
  unfold eligible, sweep. simpl. destruct (isRateLimited a); simpl; [|done].
  by destruct (rateLimitResetTime a <? t).
Qed.

Lemma same_eligibility_getNext l E s m' :
  same_eligibility l E (accounts m') → available s l = E →
  same_eligibility l E (accounts (getNext s m').2).
Proof.
  intros Hinv Hs. pose proof Hinv as [Hlen Hext].
  assert (same_eligibility l E ((λ a, (sweep s a).2) <$> accounts m'))
    as Hswept.
  { split; [by rewrite length_fmap|].
    intros t Ht i a a'' Ha Ha''.
    rewrite list_lookup_fmap in Ha''.
    destruct (accounts m' !! i) as [a'|] eqn:Ha'; [|done].
    csimpl in Ha''. injection Ha'' as <-.
    destruct (eligible s a') eqn:Es.
    - assert (eligible t (sweep s a').2 = true) as ->.
      { unfold eligible at 1. unfold sweep at 1.
        by rewrite (sweep_eligible_clears _ _ Es). }
      symmetry.
      assert (i ∈ available t l) as Hin.
      { rewrite Ht, <- Hs. apply elem_of_available. exists a.
        split; [done|]. by rewrite <- (Hext s Hs i a a' Ha Ha'). }
      apply elem_of_available in Hin as (b & Hb & ?). congruence.
    - assert ((sweep s a').2 = a') as ->; [|by eapply Hext].
      unfold eligible, sweep in *.
      destruct (isRateLimited a'); simpl in *; [|done].
      by destruct (rateLimitResetTime a' <? s). }
  unfold getNext. case_bool_decide; [done|].
  destruct (available s (accounts m') !! _) as [r|]; [|done].
  simpl. destruct Hswept as [Hlen' Hext'].
  split; [by rewrite length_alter|].
  intros t Ht i a a'' Ha Ha''.
  destruct (decide (r = i)) as [->|Hne].
  - rewrite list_lookup_alter_eq in Ha''.
    destruct (((λ a, (sweep s a).2) <$> accounts m') !! i)
      as [b|] eqn:Hb; [|done].
    csimpl in Ha''. injection Ha'' as <-.
    rewrite eligible_stamp. by eapply Hext'.
  - rewrite list_lookup_alter_ne in Ha'' by done. by eapply Hext'.
Qed.

Lemma same_eligibility_refl l E : same_eligibility l E l.
Proof. split; [done|]. intros t _ i a a' Ha Ha'. congruence. Qed.

Lemma getNext_available now m E :
  available now (accounts m) = E → E ≠ [] →
  (getNext now m).1 = E !! (currentIndex m mod length E)%nat ∧
  currentIndex (getNext now m).2 = S (currentIndex m).
Proof.
  intros <- Hne. unfold getNext. case_bool_decide as Hlen.
  { apply length_zero_iff_nil in Hlen. done. }
  destruct (available_lookup now (accounts m) (currentIndex m) Hne) as [r Hr].
  by rewrite Hr.
Qed.

Lemma getNext_many_eligible l E ts : ∀ m,
  E ≠ [] →
  Forall (λ t, available t l = E) ts →
  same_eligibility l E (accounts m) →
  (getNext_many ts m).1 =
    (λ j, E !! ((currentIndex m + j) mod length E)%nat) <$> seq 0 (length ts).
Proof.
  induction ts as [|t ts IH]; intros m Hne Hts Hinv; [done|].
  apply Forall_cons in Hts as [Ht Hts].
  pose proof (same_eligibility_available _ _ _ _ Hinv Ht) as Hav.
  destruct (getNext_available t m E Hav Hne) as [Hr Hc].
  pose proof (same_eligibility_getNext _ _ t _ Hinv Ht) as Hinv1.
  cbn [getNext_many]. destruct (getNext t m) as [r m1]. simpl in *.
  specialize (IH m1 Hne Hts Hinv1).
  destruct (getNext_many ts m1) as [rs m2]. simpl in *.
  rewrite Nat.add_0_r, Hr. f_equal. rewrite IH, Hc.
  rewrite <- (fmap_S_seq 0), <- list_fmap_compose.
  apply list_fmap_ext. intros _ j _. simpl. do 2 f_equal. lia.
Qed.

(** X2. While the set of eligible accounts stays the same, [getNext]
    rotates over exactly that set: if at each of the clock readings [ts]
    the eligible accounts of the pool are [E] (in pool order, [E] not
    empty), then the [j]-th of the successive calls returns the entry of
    [E] at position [(cursor + j) mod |E|].  Accounts that are rate-limited
    throughout are never returned, and the others take turns. *)
Theorem getNext_rotates_over_eligible (m : AccountManager) (E : list nat)
    (ts : list Z) :
  E ≠ [] →
  Forall (λ t, available t (accounts m) = E) ts →
  (getNext_many ts m).1 =
    (λ j, E !! ((currentIndex m + j) mod length E)%nat) <$> seq 0 (length ts).
Proof.
  intros Hne Hts. apply (getNext_many_eligible (accounts m)); try done.
  apply same_eligibility_refl.
Qed.

Lemma getNext_rotates_over_eligible_witness :
  [0; 2]%nat ≠ [] ∧
  Forall (λ t, available t (accounts pool3_limited) = [0; 2]%nat)
         [10; 20; 30] ∧
  (getNext_many [10; 20; 30] pool3_limited).1 = [Some 0; Some 2; Some 0]%nat.
Proof.
  split; [done|]. split; [by repeat constructor|].
  apply (getNext_rotates_over_eligible pool3_limited [0; 2]%nat [10; 20; 30]);
    [done | by repeat constructor].
Defined.

(** *** Waiting for the reported time *)

Lemma getNext_None now m :
  (getNext now m).1 = None ↔ available now (accounts m) = [].
Proof.
  split.
  - intros H. destruct (decide (available now (accounts m) = [])) as [|Hne];
      [done|].
    destruct (getNext_available now m _ eq_refl Hne) as [Hr _].
    rewrite H in Hr.
    destruct (available_lookup now (accounts m) (currentIndex m) Hne)
      as [r Hr']. congruence.
  - intros H. unfold getNext. rewrite H. done.
Qed.

Lemma available_nil now l :
  available now l = [] ↔ ∀ a, a ∈ l → eligible now a = false.
Proof.
  split.
  - intros H a [i Hi]%list_elem_of_lookup_1.
    destruct (eligible now a) eqn:E; [|done].
    assert (i ∈ available now l) as Hin by (apply elem_of_available; eauto).
    rewrite H in Hin. by apply elem_of_nil in Hin.
  - intros H. destruct (available now l) as [|r rs] eqn:E; [done|].
    assert (r ∈ available now l) as Hin by (rewrite E; apply list_elem_of_here).
    apply elem_of_available in Hin as (a & Ha%list_elem_of_lookup_2 & Hel).
    rewrite (H a Ha) in Hel. done.
Qed.

(** X3. When every account is rate-limited, the time reported by
    [getMinWaitTime] is one millisecond short: [getNext] called exactly
    that long after it returned null still returns null (the window test
    is a strict comparison), and called one millisecond later it returns
    an account. *)
Theorem getMinWaitTime_then_getNext (now : Z) (m : AccountManager) :
  accounts m ≠ [] →
  (getNext now m).1 = None →
  (getNext (now + getMinWaitTime now m) m).1 = None ∧
  is_Some (getNext (now + getMinWaitTime now m + 1) m).1.
Proof.
  intros Hne Hnull. apply getNext_None in Hnull.
  pose proof (proj1 (available_nil _ _) Hnull) as Hnone.
  destruct (getMinWaitTime_none_eligible _ _ Hnone Hne)
    as [(a & Ha & Hlim & Hw) Hle].
  split.
  - apply getNext_None, available_nil. intros b Hb.
    destruct (not_eligible _ _ (Hnone b Hb)) as [Hb1 Hb2].
    destruct (eligible (now + getMinWaitTime now m) b) eqn:E; [|done].
    apply (eligible_limited _ _ Hb1) in E. specialize (Hle b Hb Hb1). lia.
  - destruct (getNext (now + getMinWaitTime now m + 1) m).1 eqn:E; [done|].
    apply getNext_None in E.
    pose proof (proj1 (available_nil _ _) E a Ha) as E0.
    assert (eligible (now + getMinWaitTime now m + 1) a = true) as E'
      by (apply (eligible_limited _ _ Hlim); lia).
    congruence.
Qed.

Lemma getMinWaitTime_then_getNext_witness :
  accounts (markRateLimited 0 60000 5000 (markRateLimited 1 90000 5000 pool2))
    ≠ [] ∧
  (getNext 6000
     (markRateLimited 0 60000 5000 (markRateLimited 1 90000 5000 pool2))).1
    = None ∧
  (getNext 65000
     (markRateLimited 0 60000 5000 (markRateLimited 1 90000 5000 pool2))).1
    = None ∧
  (getNext 65001
     (markRateLimited 0 60000 5000 (markRateLimited 1 90000 5000 pool2))).1
    = Some 0%nat.
Proof.
  split; [done|]. split; [reflexivity|].
  destruct (getMinWaitTime_then_getNext 6000
              (markRateLimited 0 60000 5000
                 (markRateLimited 1 90000 5000 pool2)))
    as [H1 H2]; [done|reflexivity|].
  split; [exact H1|reflexivity].
Defined.

(** *** Marking an account leaves the others alone *)

Lemma filter_id {A} (P : A → Prop) `{∀ x, Decision (P x)} (l : list A) :
  Forall P l → filter P l = l.
Proof.
  induction 1 as [|x l Hx _ IH]; [done|].
  by rewrite filter_cons_True, IH.
Qed.

Lemma availableFrom_alter_out t (f : ManagedAccount → ManagedAccount) l :
  (∀ a, eligible t (f a) = false) →
  ∀ k r, availableFrom t k (alter f r l) =
         filter (λ i, i ≠ (k + r)%nat) (availableFrom t k l).
Proof.
  intros Hf. induction l as [|a l IH]; intros k r; [done|].
  assert (filter (λ i, i ≠ k) (availableFrom t (S k) l)
          = availableFrom t (S k) l) as Hrest.
  { apply filter_id, Forall_forall. intros i Hi.
    apply elem_of_availableFrom in Hi as [? _]. lia. }
  destruct r as [|r].
  - change (alter f 0%nat (a :: l)) with (f a :: l). cbn [availableFrom].
    rewrite Hf, Nat.add_0_r. destruct (eligible t a); [|done].
    by rewrite filter_cons_False by (intros ?; done).
  - change (alter f (S r) (a :: l)) with (a :: alter f r l).
    cbn [availableFrom].
    rewrite IH. replace (S k + r)%nat with (k + S r)%nat by lia.
    destruct (eligible t a); [|done].
    by rewrite filter_cons_True by lia.
Qed.

(** X4. Marking an account rate-limited takes exactly that account out of
    the eligible ones, for every instant up to and including the end of
    the window: the other accounts stay eligible or not as they were, in
    the same order.  After the window the marked account is eligible
    again. *)
Theorem markRateLimited_available (m : AccountManager) (r : nat)
    (retryAfterMs now t : Z) :
  (t ≤ now + retryAfterMs →
     available t (accounts (markRateLimited r retryAfterMs now m))
     = filter (λ i, i ≠ r) (available t (accounts m)))
  ∧ (now + retryAfterMs < t → (r < length (accounts m))%nat →
     r ∈ available t (accounts (markRateLimited r retryAfterMs now m))).
Proof.
  split.
  - intros Ht. unfold markRateLimited, available. simpl.
    rewrite availableFrom_alter_out; [done|].
    intros a. unfold eligible, sweep. simpl.
    by rewrite (proj2 (Z.ltb_ge _ _)) by lia.
  - intros Ht Hr. apply elem_of_available.
    destruct (lookup_lt_is_Some_2 _ _ Hr) as [a Ha].
    eexists. unfold markRateLimited. simpl.
    rewrite list_lookup_alter_eq, Ha. split; [done|].
    unfold eligible, sweep. simpl.
    by rewrite (proj2 (Z.ltb_lt _ _)) by lia.
Qed.

(** *** Removing an account *)

(** X5. [removeAccount] refuses an index outside the pool and then changes
    nothing.  Otherwise it returns true, the pool is one account shorter,
    the accounts before the index keep their place, those after it move
    up by one, each with its [index] field set to its new position and all
    other fields as before; the cursor is not touched. *)
Theorem removeAccount_spec (i : Z) (m : AccountManager) :
  if (removeAccount i m).1 then
    0 ≤ i < Z.of_nat (length (accounts m)) ∧
    S (length (accounts (removeAccount i m).2)) = length (accounts m) ∧
    currentIndex (removeAccount i m).2 = currentIndex m ∧
    ∀ j, accounts (removeAccount i m).2 !! j =
         set_index j <$>
           accounts m !! (if decide (j < Z.to_nat i)%nat then j else S j)
  else
    ¬ (0 ≤ i < Z.of_nat (length (accounts m))) ∧ (removeAccount i m).2 = m.
Proof.
  unfold removeAccount.
  destruct (i <? 0) eqn:E1; simpl.
  { apply Z.ltb_lt in E1. split; [lia|done]. }
  destruct (Z.of_nat (length (accounts m)) <=? i) eqn:E2; simpl.
  { apply Z.leb_le in E2. split; [lia|done]. }
  apply Z.ltb_ge in E1. apply Z.leb_gt in E2.
  split; [lia|]. split; [|split; [done|]].
  - rewrite length_imap, length_delete; [lia|].
    apply lookup_lt_is_Some_2. lia.
  - intros j. by rewrite list_lookup_imap, list_lookup_delete.
Qed.

(** *** The [index] field *)

Lemma well_indexed_alter (f : ManagedAccount → ManagedAccount) r l :
  (∀ a, index (f a) = index a) →
  well_indexed l → well_indexed (alter f r l).
Proof.
  intros Hf H i a Ha. destruct (decide (r = i)) as [->|Hne].
  - rewrite list_lookup_alter_eq in Ha.
    destruct (l !! i) as [b|] eqn:Hb; [|done]. csimpl in Ha.
    assert (a = f b) as -> by congruence. rewrite Hf. by apply H.
  - rewrite list_lookup_alter_ne in Ha by done. by apply H.
Qed.

Lemma well_indexed_fmap (f : ManagedAccount → ManagedAccount) l :
  (∀ a, index (f a) = index a) →
  well_indexed l → well_indexed (f <$> l).
Proof.
  intros Hf H i a Ha. rewrite list_lookup_fmap in Ha.
  destruct (l !! i) as [b|] eqn:Hb; [|done]. csimpl in Ha.
  assert (a = f b) as -> by congruence. rewrite Hf. by apply H.
Qed.

Lemma well_indexed_imap {A} (f : nat → A → ManagedAccount) (l : list A) :
  (∀ i a, index (f i a) = i) → well_indexed (imap f l).
Proof.
  intros Hf i a Ha. rewrite list_lookup_imap in Ha.
  destruct (l !! i) as [b|]; [|done]. csimpl in Ha.
  assert (a = f i b) as -> by congruence. apply Hf.
Qed.

Lemma sweep_index now a : index (sweep now a).2 = index a.
Proof.
  unfold sweep. destruct (isRateLimited a); simpl; [|done].
  by destruct (rateLimitResetTime a <? now).
Qed.

Lemma call_well_indexed c m :
  well_indexed (accounts m) → well_indexed (accounts (call m c)).
Proof.
  intros H. destruct c as [now|r ms now|r acc ex p|p acc ex|i]; simpl.
  - unfold getNext. case_bool_decide.
    { simpl. apply well_indexed_fmap; [apply sweep_index|done]. }
    destruct (available now (accounts m) !! _) as [r|]; simpl.
    + apply well_indexed_alter; [done|].
      apply well_indexed_fmap; [apply sweep_index|done].
    + apply well_indexed_fmap; [apply sweep_index|done].
  - by apply well_indexed_alter.
  - by apply well_indexed_alter.
  - intros j a Ha. apply lookup_app_Some in Ha as [Ha|[Hj Ha]].
    + by apply H.
    + destruct (j - length (accounts m))%nat as [|k] eqn:Ej; [|done].
      simpl in Ha. assert (a = freshAccount (length (accounts m)) p acc ex)
        as -> by congruence. simpl. lia.
  - unfold removeAccount. destruct (_ || _); simpl; [done|].
    by apply well_indexed_imap.
Qed.

(** X6. The [index] field of every account is its position in the pool, in
    a freshly constructed manager and after any sequence of calls of
    [getNext], [markRateLimited], [updateAccount], [addAccount] and
    [removeAccount], whatever the arguments. *)
Theorem calls_well_indexed
    (parseMulti : jsstring → list RefreshParts)
    (parseSingle : jsstring → RefreshParts)
    (auth : OAuthAuthDetails) (cs : list Call) :
  well_indexed (accounts (calls cs (construct parseMulti parseSingle auth))).
Proof.
  unfold calls.
  assert (well_indexed (accounts (construct parseMulti parseSingle auth)))
    as H0.
  { unfold construct. destruct (0 <? _)%nat; simpl.
    - by apply well_indexed_imap.
    - intros [|j] a Ha; simpl in Ha; [|done].
      assert (a = freshAccount 0 (parseSingle (refresh auth))
                    (authAccess auth) (authExpires auth)) as ->
        by congruence. done. }
  revert H0. generalize (construct parseMulti parseSingle auth).
  induction cs as [|c cs IH]; intros m Hm; [done|].
  simpl. apply IH. by apply call_well_indexed.
Qed.

(** *** A freshly constructed manager *)

Lemma construct_accounts parseMulti parseSingle auth :
  ∃ ps, ps ≠ [] ∧
    accounts (construct parseMulti parseSingle auth) =
      imap (λ i p,
              freshAccount i p
                (if bool_decide (i = 0%nat) then authAccess auth else None)
                (if bool_decide (i = 0%nat) then authExpires auth else None))
           ps ∧
    (ps = parseMulti (refresh auth) ∨
     parseMulti (refresh auth) = [] ∧ ps = [parseSingle (refresh auth)]).
Proof.
  unfold construct.
  destruct (parseMulti (refresh auth)) as [|p ps] eqn:E; simpl.
  - exists [parseSingle (refresh auth)]. split; [done|]. split; [done|].
    by right.
  - exists (p :: ps). split; [done|]. split; [done|]. by left.
Qed.

(** X7. Whatever the two parsers of the refresh string return, the
    constructor builds a pool that is not empty (an empty parse falls back
    to one account), in which no account is rate-limited or has been used,
    and in which only the first account carries the access token and the
    expiry of the stored credentials; the cursor is 0, so that the first
    call of [getNext], at any time, returns the first account. *)
Theorem construct_fresh
    (parseMulti : jsstring → list RefreshParts)
    (parseSingle : jsstring → RefreshParts)
    (auth : OAuthAuthDetails) :
  accounts (construct parseMulti parseSingle auth) ≠ []
  ∧ none_limited (accounts (construct parseMulti parseSingle auth))
  ∧ (∀ i a, accounts (construct parseMulti parseSingle auth) !! i = Some a →
       lastUsed a = 0 ∧
       access a = (if bool_decide (i = 0%nat) then authAccess auth else None) ∧
       expires a = (if bool_decide (i = 0%nat) then authExpires auth else None))
  ∧ currentIndex (construct parseMulti parseSingle auth) = 0%nat
  ∧ ∀ now, (getNext now (construct parseMulti parseSingle auth)).1
           = Some 0%nat.
Proof.
  destruct (construct_accounts parseMulti parseSingle auth)
    as (ps & Hne & Hacc & _).
  assert (accounts (construct parseMulti parseSingle auth) ≠ []) as Hne'.
  { rewrite Hacc. intros E%(f_equal length).
    rewrite length_imap in E. by destruct ps. }
  assert (none_limited (accounts (construct parseMulti parseSingle auth)))
    as Hnone.
  { apply Forall_lookup. intros i a. rewrite Hacc, list_lookup_imap.
    destruct (ps !! i); [|done]. csimpl. by intros [= <-]. }
  assert (currentIndex (construct parseMulti parseSingle auth) = 0%nat)
    as Hcur by (unfold construct; by destruct (0 <? _)%nat).
  split; [done|]. split; [done|]. split; [|split; [done|]].
  - intros i a. rewrite Hacc, list_lookup_imap.
    destruct (ps !! i); [|done]. csimpl. by intros [= <-].
  - intros now. rewrite (getNext_none_limited _ _ Hnone Hne'), Hcur. simpl.
    f_equal. apply Nat.Div0.mod_0_l.
Qed.

(** X8. Writing the pool out with [toAuthDetails] and constructing a
    manager from the result keeps the accounts, their order and their
    refresh parts, provided the pool is not empty and the refresh string
    written for it parses back to the same parts.  Everything else is
    reset: the rate-limit flags, the windows and the times of last use are
    cleared, the cursor is 0, and only the first account keeps its access
    token and expiry. *)
Theorem construct_toAuthDetails
    (parseMulti : jsstring → list RefreshParts)
    (parseSingle : jsstring → RefreshParts)
    (formatMulti : list RefreshParts → jsstring)
    (m : AccountManager) :
  accounts m ≠ [] →
  parseMulti (formatMulti (parts <$> accounts m)) = parts <$> accounts m →
  construct parseMulti parseSingle (toAuthDetails formatMulti m) =
    {| accounts :=
         imap (λ i a,
                 freshAccount i (parts a)
                   (if bool_decide (i = 0%nat) then access a else None)
                   (if bool_decide (i = 0%nat) then expires a else None))
              (accounts m);
       currentIndex := 0 |}.
Proof.
  intros Hne Hcodec. unfold construct, toAuthDetails. simpl.
  rewrite Hcodec, length_fmap.
  destruct (accounts m) as [|a l] eqn:E; [done|]. simpl. f_equal.
  rewrite imap_fmap. reflexivity.
Qed.

Lemma construct_toAuthDetails_witness :
  accounts usedPool ≠ [] ∧
  Auth.parseMultiAccountRefresh
    (Auth.formatMultiAccountRefresh (parts <$> accounts usedPool))
  = parts <$> accounts usedPool ∧
  construct Auth.parseMultiAccountRefresh Auth.parseRefreshParts
    (toAuthDetails Auth.formatMultiAccountRefresh usedPool) =
  {| accounts :=
       [ freshAccount 0 (Auth.mkParts "r1" (Some "p1") None)
           (Some (lit "a1")) (Some 1000);
         freshAccount 1 (Auth.mkParts "r2" (Some "p2") (Some "m2"))
           None None ];
     currentIndex := 0 |}.
Proof.
  split; [done|]. split; [reflexivity|].
  rewrite (construct_toAuthDetails Auth.parseMultiAccountRefresh
             Auth.parseRefreshParts Auth.formatMultiAccountRefresh
             usedPool); [reflexivity | done | reflexivity].
Defined.

End AccountOpsFacts.

(** ** The line-by-line transformer *)
Module LineStreamFacts.
Import JsString JsStringFacts Runtime Request RequestFacts LineStream.

Lemma removelast_fmap {A B} (f : A → B) (l : list A) :
  removelast (f <$> l) = f <$> removelast l.
Proof.
  induction l as [|x l IH]; [done|]. destruct l as [|y l]; [done|].
  change (removelast (f x :: (f <$> y :: l)) = f x :: (f <$> removelast (y :: l))).
  by rewrite <- IH.
Qed.

Lemma last_fmap {A B} (f : A → B) (l : list A) :
  last (f <$> l) = f <$> last l.
Proof.
  induction l as [|x l IH]; [done|]. destruct l as [|y l]; [done|].
  exact IH.
Qed.

(** Joining pieces is appending every piece but the last with the
    separator, and then the last piece. *)
Lemma join_pieces (l : list jsstring) sep :
  join l sep =
    concat ((λ x, x ++ sep) <$> removelast l) ++ default [] (last l).
Proof.
  induction l as [|x l IH]; [done|]. destruct l as [|y l].
  - simpl. done.
  - change (join (x :: y :: l) sep) with (x ++ sep ++ join (y :: l) sep).
    rewrite IH.
    change (removelast (x :: y :: l)) with (x :: removelast (y :: l)).
    change (last (x :: y :: l)) with (last (y :: l)).
    csimpl. by rewrite <- !app_assoc.
Qed.

Section Lines.
Context {platform : Platform} {helpers : RequestHelpers}.

Lemma transformLine_empty : transformLine [] = [].
Proof. reflexivity. Qed.

Lemma linePieces_concat text :
  concat (linePieces text) = transformStreamingPayload text.
Proof.
  unfold linePieces, transformStreamingPayload.
  rewrite join_pieces, removelast_fmap, last_fmap, concat_app.
  rewrite <- list_fmap_compose. f_equal.
  destruct (last (split text [LF])) as [rest|]; simpl.
  - destruct rest; simpl; [|by rewrite app_nil_r].
    by rewrite transformLine_empty.
  - done.
Qed.

Lemma lineTransform_spec st chunk pre :
  buffer st = default [] (last (split pre [LF])) →
  lineTransform st chunk =
    let '(d, text) := decodeChunk (decoder st) chunk in
    ({| decoder := d;
        buffer := default [] (last (split (pre ++ text) [LF])) |},
     (λ line, encode (transformLine line ++ [LF])) <$>
       removelast (split (buffer st ++ text) [LF])).
Proof.
  intros Hb. unfold lineTransform, pop.
  destruct (decodeChunk (decoder st) chunk) as [d text].
  f_equal. f_equal. rewrite Hb.
  rewrite (split_app [LF] ltac:(done) pre text).
  destruct (split (default [] (last (split pre [LF])) ++ text) [LF])
    as [|x l] eqn:E using rev_ind.
  - by apply split_not_nil in E.
  - by rewrite app_assoc, !last_snoc.
Qed.

Lemma linePipe_spec chunks : ∀ st pre,
  buffer st = default [] (last (split pre [LF])) →
  ((λ line, encode (transformLine line ++ [LF])) <$>
     removelast (split pre [LF])) ++ linePipe st chunks =
    let '(d, text) := decodeChunk (decoder st) (concat chunks) in
    encode <$> linePieces (pre ++ text).
Proof.
  induction chunks as [|chunk chunks IH]; intros st pre Hb.
  - simpl. rewrite app_nil_r. unfold lineFlush, linePieces.
    rewrite fmap_app, <- list_fmap_compose, Hb.
    by destruct (truthy _).
  - cbn [linePipe concat]. rewrite (lineTransform_spec _ _ _ Hb).
    rewrite decodeChunk_app.
    destruct (decodeChunk (decoder st) chunk) as [d1 t1].
    rewrite app_assoc, <- fmap_app.
    assert (removelast (split pre [LF]) ++
            removelast (split (buffer st ++ t1) [LF])
            = removelast (split (pre ++ t1) [LF])) as ->.
    { rewrite Hb, (split_app [LF] ltac:(done) pre t1).
      symmetry. apply removelast_app, split_not_nil. }
    rewrite (IH {| decoder := d1;
                   buffer := default [] (last (split (pre ++ t1) [LF])) |}
                (pre ++ t1) eq_refl).
    simpl. destruct (decodeChunk d1 (concat chunks)) as [d2 t2].
    by rewrite app_assoc.
Qed.

(** X9. Whatever the cutting of the body into chunks, the line-by-line
    transformer enqueues one chunk for every finished line of the decoded
    text (the transformed line and its line feed) and, at the end, one for
    the unfinished rest unless it is empty; put together, the enqueued
    texts are what [transformStreamingPayload] makes of the whole text.
    Bytes of an incomplete character at the end of the body are dropped:
    [flush] does not flush the decoder. *)
Theorem createStreamingTransformer_spec (chunks : list (list Byte.byte)) :
  createStreamingTransformer chunks =
    encode <$> linePieces (decoded (concat chunks))
  ∧ concat (linePieces (decoded (concat chunks))) =
    transformStreamingPayload (decoded (concat chunks)).
Proof.
  split; [|apply linePieces_concat].
  unfold createStreamingTransformer, decoded.
  pose proof (linePipe_spec chunks streamInit [] eq_refl) as H.
  simpl in H. destruct (decodeChunk decoderInit (concat chunks)). exact H.
Qed.

End Lines.

End LineStreamFacts.

(** ** The event transformer of [transformAntigravityResponse] *)
Module EventStreamFacts.
Import JsString JsStringFacts Runtime Request RequestFacts LineStream Samples
  StreamSamples.

(** *** [split] and [join] *)

Lemma startsWith_prefix s p :
  startsWith s p = true → s = p ++ drop (length p) s.
Proof.
  revert s; induction p as [|a p IH]; intros [|b s]; simpl; try done.
  intros [->%bool_decide_eq_true ?%IH]%andb_true_iff. by f_equal.
Qed.

Lemma indexOf_Some s sep : ∀ i,
  indexOf s sep = Some i → s = take i s ++ sep ++ drop (i + length sep) s.
Proof.
  induction s as [|c s IH]; intros i; simpl.
  - destruct (startsWith [] sep) eqn:E; [|done]. intros [= <-].
    by apply startsWith_prefix in E.
  - destruct (startsWith (c :: s) sep) eqn:E.
    + intros [= <-]. by apply startsWith_prefix in E.
    + destruct (indexOf s sep) as [j|] eqn:Ej; simpl; [|done].
      intros [= <-]. simpl. f_equal. by apply IH.
Qed.

(** Joining the pieces of a split gives the string back. *)
Lemma join_split sep : sep ≠ [] → ∀ s, join (split s sep) sep = s.
Proof.
  intros Hsep s. remember (length s) as n eqn:Hn.
  revert s Hn. induction (lt_wf n) as [n _ IH]. intros s ->.
  rewrite (split_unfold s) by done.
  destruct (indexOf s sep) as [i|] eqn:E; [|done].
  pose proof (indexOf_bound _ _ _ E) as Hb.
  assert (0 < length sep)%nat by (destruct sep; [done|simpl; lia]).
  pose proof (split_not_nil (drop (i + length sep) s) sep) as Hne.
  destruct (split (drop (i + length sep) s) sep) as [|x l] eqn:Es; [done|].
  change (join (take i s :: x :: l) sep)
    with (take i s ++ sep ++ join (x :: l) sep).
  rewrite <- Es.
  rewrite (IH (length (drop (i + length sep) s))); [|rewrite length_drop; lia|done].
  symmetry. by apply indexOf_Some.
Qed.

Section Events.
Context {platform : Platform} {helpers : RequestHelpers}.

Lemma transformLine_untouched line : untouched line → transformLine line = line.
Proof.
  unfold transformLine. intros [H|[H|(v & H1 & H2)]].
  - by rewrite H.
  - destruct (negb _); [done|]. destruct (negb _); [done|]. by rewrite H.
  - destruct (negb _); [done|]. destruct (negb _); [done|].
    by rewrite H1, H2.
Qed.

(** X11. A payload all of whose lines are comments, fields other than
    [data:], or [data:] lines that carry no JSON value with a [response]
    property, goes through [transformStreamingPayload] unchanged, line
    feeds included. *)
Theorem transformStreamingPayload_untouched (payload : jsstring) :
  Forall untouched (split payload [LF]) →
  transformStreamingPayload payload = payload.
Proof.
  intros H. unfold transformStreamingPayload.
  assert (transformLine <$> split payload [LF] = split payload [LF]) as ->.
  { rewrite <- (list_fmap_id (split payload [LF])) at 2.
    apply list_fmap_ext. intros i line Hl. simpl.
    apply transformLine_untouched.
    by apply (proj1 (Forall_lookup _ _) H i). }
  by apply join_split.
Qed.

(** *** A source that fails *)

Lemma pipeChunks_failing_spec chunks : ∀ st pre,
  buffer st = unfinished pre →
  forwardEvents (complete pre) ++ pipeChunks true st chunks =
    forwardEvents (complete (pre ++ (decodeChunk (decoder st) (concat chunks)).2)).
Proof.
  induction chunks as [|chunk chunks IH]; intros st pre Hb.
  - simpl. by rewrite !app_nil_r.
  - cbn [pipeChunks concat]. rewrite (transform_spec _ _ _ Hb).
    rewrite decodeChunk_app.
    destruct (decodeChunk (decoder st) chunk) as [d1 t1].
    rewrite app_assoc, <- forwardEvents_app, <- complete_app.
    rewrite (IH {| decoder := d1; buffer := unfinished (pre ++ t1) |}
                (pre ++ t1) eq_refl).
    simpl. destruct (decodeChunk d1 (concat chunks)) as [d2 t2].
    simpl. by rewrite app_assoc.
Qed.

(** X10. A successful event-stream response read in streaming mode comes
    back with its status, status text and headers unchanged, and with a
    body that delivers one chunk for every complete, non-blank event of
    the decoded text.  If the source ends, the unfinished rest follows
    (unless blank); if the source fails in mid-stream, the rest is not
    delivered and the body fails as the source did. *)
Theorem transformAntigravityResponse_streams (response : Response)
    (meta : RequestMeta) (chunks : list (list Byte.byte)) (fails : bool) :
  ok response = true →
  includes (default [] (hget "content-type" (headers response)))
           (lit "text/event-stream") = true →
  body response = BodyStream chunks fails →
  isNullBodyStatus (status response) = false →
  transformAntigravityResponse response true meta =
    ret {| status := status response;
           statusText := statusText response;
           headers := headers response;
           body :=
             BodyStream
               (forwardEvents (complete (decoded (concat chunks))) ++
                (if fails then []
                 else flushed
                        (unfinished (decoded (concat chunks)) ++
                         decodeEnd (decodeChunk decoderInit (concat chunks)).1)))
               fails |}.
Proof.
  intros Hok Hct Hbody Hnull.
  unfold transformAntigravityResponse. rewrite Hct, Hok.
  unfold hasBody. rewrite Hbody. rewrite andb_false_r. cbn [negb andb].
  unfold ret at 1. cbn [bind].
  unfold new_Response. rewrite Hnull.
  assert ((200 <=? status response) && (status response <=? 599) = true) as ->.
  { unfold ok in Hok. apply andb_true_iff in Hok as [H1 H2].
    apply andb_true_iff. split; [done|].
    apply Z.leb_le in H2. apply Z.leb_le. lia. }
  cbn [negb andb]. unfold ret. do 3 f_equal. unfold decoded.
  destruct fails.
  - pose proof (pipeChunks_failing_spec chunks streamInit [] eq_refl) as H.
    simpl in H. by rewrite app_nil_r.
  - pose proof (pipeChunks_spec chunks streamInit [] eq_refl) as H.
    simpl in H. by destruct (decodeChunk decoderInit (concat chunks)).
Qed.

End Events.

Lemma transformStreamingPayload_untouched_witness :
  Forall (untouched (platform := samplePlatform)) (split keepAlive [LF]) ∧
  transformStreamingPayload (platform := samplePlatform)
    (helpers := sampleHelpers) keepAlive = keepAlive.
Proof.
  assert (Forall (untouched (platform := samplePlatform))
                 (split keepAlive [LF])) as H.
  { let l := eval vm_compute in (split keepAlive [LF]) in
    change (split keepAlive [LF]) with l.
    repeat apply Forall_cons_2; try apply Forall_nil_2;
      first [ by left | by (right; left) ]. }
  split; [exact H|].
  exact (transformStreamingPayload_untouched (platform := samplePlatform)
           (helpers := sampleHelpers) keepAlive H).
Defined.

Lemma transformAntigravityResponse_streams_witness :
  transformAntigravityResponse (platform := samplePlatform)
    (helpers := sampleHelpers) interruptedStream true sampleMeta =
  ret {| status := 200; statusText := lit "OK";
         headers := eventStreamHeaders;
         body := BodyStream [bytes (lit "data: one" ++ [LF; LF])] true |}.
Proof.
  rewrite (transformAntigravityResponse_streams (platform := samplePlatform)
             (helpers := sampleHelpers) interruptedStream sampleMeta
             [bytes (lit "data: one" ++ [LF]); bytes ([LF] ++ lit "data: tw")]
             true); reflexivity.
Defined.

End EventStreamFacts.

(** ** Request preparation, continued *)
Module PrepareMoreFacts.
Import JsString JsStringFacts Runtime Request RequestFacts EventStreamFacts
  PrepareMore Samples.

(** *** The URL pattern *)

Lemma takeWhile_dropWhile f s : takeWhile f s ++ dropWhile f s = s.
Proof.
  induction s as [|c s IH]; simpl; [done|].
  destruct (f c); simpl; [by rewrite IH|done].
Qed.

Lemma takeWhile_Forall f s : Forall (λ c, f c = true) (takeWhile f s).
Proof.
  induction s as [|c s IH]; simpl; [constructor|].
  destruct (f c) eqn:E; by constructor.
Qed.

Lemma takeWhile_greedy f s :
  match drop (length (takeWhile f s)) s with
  | [] => True
  | c :: _ => f c = false
  end.
Proof.
  induction s as [|c s IH]; simpl; [done|].
  destruct (f c) eqn:E; simpl; done.
Qed.

Lemma matchHere_sound s model action :
  matchHere s = Some (model, action) →
  ∃ post, s = lit "/models/" ++ model ++ [":"%char] ++ action ++ post ∧
    model ≠ [] ∧ Forall (λ c, c ≠ ":"%char) model ∧
    action ≠ [] ∧ Forall (λ c, isWordChar c = true) action ∧
    match post with [] => True | c :: _ => isWordChar c = false end.
Proof.
  unfold matchHere. destruct (startsWith s (lit "/models/")) eqn:Hs; [|done].
  apply startsWith_prefix in Hs.
  change (length (lit "/models/")) with 8%nat in Hs.
  set (rest := drop 8 s) in *.
  pose proof (takeWhile_dropWhile notColon rest) as Hsplit.
  pose proof (takeWhile_Forall notColon rest) as Hmodel.
  destruct (takeWhile notColon rest) as [|m0 m] eqn:Em; [done|].
  destruct (dropWhile notColon rest) as [|c tail] eqn:Ed; [done|].
  destruct (decide (c = ":"%char)) as [->|Hc].
  2:{ destruct c as [[] [] [] [] [] [] [] []]; try done. }
  pose proof (takeWhile_dropWhile isWordChar tail) as Hsplit2.
  pose proof (takeWhile_Forall isWordChar tail) as Haction.
  pose proof (takeWhile_greedy isWordChar tail) as Hgreedy.
  destruct (takeWhile isWordChar tail) as [|a0 a] eqn:Ea; [done|].
  intros [= <- <-].
  exists (dropWhile isWordChar tail).
  split.
  { rewrite Hs, <- Hsplit. rewrite <- Hsplit2 at 1.
    by rewrite <- ?app_assoc. }
  split; [done|]. split.
  { eapply Forall_impl; [exact Hmodel|]. intros x Hx ->. done. }
  split; [done|]. split; [done|].
  rewrite <- Hsplit2 in Hgreedy.
  by rewrite drop_app_length in Hgreedy.
Qed.

(** X13. When the URL pattern [/models/([^:]+):(\w+)] is found, the URL
    reads: anything, [/models/], the model, a colon, the action,
    anything.  The model is not empty and holds no colon; the action is
    not empty, consists of word characters, and is not followed by a word
    character. *)
Theorem matchModelAction_sound (url model action : jsstring) :
  matchModelAction url = Some (model, action) →
  ∃ pre post,
    url = pre ++ lit "/models/" ++ model ++ [":"%char] ++ action ++ post ∧
    model ≠ [] ∧ Forall (λ c, c ≠ ":"%char) model ∧
    action ≠ [] ∧ Forall (λ c, isWordChar c = true) action ∧
    match post with [] => True | c :: _ => isWordChar c = false end.
Proof.
  induction url as [|c url IH]; cbn [matchModelAction].
  - destruct (matchHere []) as [[m a]|] eqn:E; [|done].
    intros [= -> ->]. apply matchHere_sound in E as (post & ? & ?).
    exists [], post. done.
  - destruct (matchHere (c :: url)) as [[m a]|] eqn:E.
    + intros [= -> ->]. apply matchHere_sound in E as (post & ? & ?).
      exists [], post. done.
    + intros (pre & post & -> & ?)%IH. exists (c :: pre), post. done.
Qed.

Lemma matchModelAction_sound_witness :
  matchModelAction sampleStreamUrl =
    Some (lit "gemini-3-pro-high", lit "streamGenerateContent") ∧
  ∃ pre post,
    sampleStreamUrl =
      pre ++ lit "/models/" ++ lit "gemini-3-pro-high" ++ [":"%char] ++
      lit "streamGenerateContent" ++ post.
Proof.
  split; [reflexivity|].
  destruct (matchModelAction_sound sampleStreamUrl (lit "gemini-3-pro-high")
              (lit "streamGenerateContent") eq_refl)
    as (pre & post & E & _).
  by exists pre, post.
Defined.

(** *** Tool names *)

Lemma replaced_valid c :
  isToolNameChar (if isToolNameChar c then c else "_"%char) = true.
Proof. destruct (isToolNameChar c) eqn:E; [done|reflexivity]. Qed.

Lemma replaced_id c :
  isToolNameChar c = true → (if isToolNameChar c then c else "_"%char) = c.
Proof. by intros ->. Qed.

Lemma sanitizeToolName_valid name :
  Forall (λ c, isToolNameChar c = true) (sanitizeToolName name).
Proof.
  unfold sanitizeToolName. apply Forall_take, Forall_fmap, Forall_forall.
  intros c _. apply replaced_valid.
Qed.

Lemma sanitizeToolName_length name :
  length (sanitizeToolName name) = (length name `min` 64)%nat.
Proof. unfold sanitizeToolName. rewrite length_take, length_fmap. lia. Qed.

Lemma replaced_all_id (s : jsstring) :
  Forall (λ c, isToolNameChar c = true) s →
  (λ c, if isToolNameChar c then c else "_"%char) <$> s = s.
Proof.
  intros Hs. rewrite <- (list_fmap_id s) at 2.
  apply list_fmap_ext. intros i c Hc. simpl. apply replaced_id.
  by apply (proj1 (Forall_lookup _ _) Hs i).
Qed.

(** X14. The sanitised name of a tool is at most 64 characters long and
    consists of letters, digits, underscores and hyphens only; it is the
    name itself exactly when the name already is of that form; sanitising
    twice is sanitising once. *)
Theorem sanitizeToolName_spec (name : jsstring) :
  length (sanitizeToolName name) = (length name `min` 64)%nat
  ∧ Forall (λ c, isToolNameChar c = true) (sanitizeToolName name)
  ∧ sanitizeToolName (sanitizeToolName name) = sanitizeToolName name
  ∧ (sanitizeToolName name = name ↔
     (length name ≤ 64)%nat ∧ Forall (λ c, isToolNameChar c = true) name).
Proof.
  pose proof (sanitizeToolName_valid name) as Hvalid.
  pose proof (sanitizeToolName_length name) as Hlen.
  split; [done|]. split; [done|]. split; [|split].
  - unfold sanitizeToolName at 1. rewrite (replaced_all_id _ Hvalid).
    apply take_ge. rewrite Hlen. lia.
  - intros E. rewrite <- E. split; [rewrite Hlen; lia|done].
  - intros [Hl Hv]. unfold sanitizeToolName. rewrite (replaced_all_id _ Hv).
    by apply take_ge.
Qed.

(** *** Headers *)

Section Frame.
Context {constants : Constants} {rewriter : BodyRewriter}.

Lemma hset_frame (name : string) (v : jsstring) (hs : Headers)
    (k : jsstring) :
  k ≠ toLowerCase (lit name) → hset name v hs !! k = hs !! k.
Proof. intros H. unfold hset. by rewrite lookup_insert_ne. Qed.

Lemma hdelete_frame (name : string) (hs : Headers) (k : jsstring) :
  k ≠ toLowerCase (lit name) → hdelete name hs !! k = hs !! k.
Proof. intros H. unfold hdelete. by rewrite lookup_delete_ne. Qed.

(** X12. Whenever [prepareAntigravityRequest] returns, it has left every
    header of the caller alone except the seven it manages.  For a
    request that is not watched even those are left alone, and the
    request goes out as it came: the access token is attached to watched
    requests only.  For a watched request the [Authorization] header is
    the bearer token and there is no [x-api-key] header, whether or not
    the URL names a model. *)
Theorem prepareAntigravityRequest_header_frame (input : RequestInfo)
    (init0 : option RequestInit) (accessToken : jsstring)
    (projectId endpointOverride : option jsstring) (p : Prepared) :
  prepareAntigravityRequest input init0 accessToken projectId
    endpointOverride = ret p →
  (∀ k, k ∉ managedHeaders →
        initHeaders (init p) !! k = from_option initHeaders ∅ init0 !! k)
  ∧ (isGenerativeLanguageRequest input = false →
       initHeaders (init p) = from_option initHeaders ∅ init0 ∧
       request p = input ∧ initBody (init p) = init0 ≫= initBody)
  ∧ (isGenerativeLanguageRequest input = true →
       hget "Authorization" (initHeaders (init p)) =
         Some (lit "Bearer " ++ accessToken) ∧
       hget "x-api-key" (initHeaders (init p)) = None).
Proof.
  unfold prepareAntigravityRequest.
  destruct (isGenerativeLanguageRequest input) eqn:Hw; cbn [negb].
  2:{ intros [= <-]. simpl. done. }
  set (headers1 := hdelete "x-api-key" (hset "Authorization" _ _)).
  assert (∀ k, k ∉ managedHeaders →
            headers1 !! k = from_option initHeaders ∅ init0 !! k) as Hframe1.
  { intros k Hk. unfold managedHeaders in Hk. cbn [fmap list_fmap] in Hk.
    rewrite !not_elem_of_cons in Hk. destruct Hk as (? & ? & _).
    unfold headers1. by rewrite hdelete_frame, hset_frame. }
  assert (hget "Authorization" headers1 = Some (lit "Bearer " ++ accessToken)
          ∧ hget "x-api-key" headers1 = None) as Hauth1.
  { unfold headers1, hget, hset, hdelete.
    rewrite lookup_delete_ne by (vm_compute; congruence).
    by rewrite lookup_insert_eq, lookup_delete_eq. }
  destruct (matchModelAction _) as [[rawModel rawAction]|].
  2:{ intros [= <-]. simpl. done. }
  match goal with |- bind ?c _ = _ → _ => destruct c as [e|rewritten] end;
    [done|].
  cbn [bind]. intros [= <-]. cbn [init initHeaders request initBody].
  split; [|split; [done|intros _]].
  - intros k Hk. pose proof (Hframe1 k Hk) as H1.
    unfold managedHeaders in Hk. cbn [fmap list_fmap] in Hk.
    rewrite !not_elem_of_cons in Hk.
    destruct Hk as (? & ? & ? & ? & ? & ? & ? & _).
    destruct (0 <? _); destruct (bool_decide (rawAction = STREAM_ACTION));
      by rewrite !hset_frame.
  - destruct Hauth1 as [Ha Hx].
    unfold hget in *.
    destruct (0 <? _); destruct (bool_decide (rawAction = STREAM_ACTION));
      unfold hset;
      rewrite !lookup_insert_ne by (vm_compute; congruence); done.
Qed.

End Frame.

Lemma prepareAntigravityRequest_header_frame_witness :
  ∃ p,
    prepareAntigravityRequest (constants := sampleConstants)
      (rewriter := sampleRewriter)
      (UrlString (lit "https://api.example/v1/chat"))
      (Some {| method := Some (lit "POST");
               initHeaders := hset "x-api-key" (lit "secret") ∅;
               initBody := Some (BodyString (lit "{}")) |})
      (lit "token") None None = ret p ∧
    hget "Authorization" (initHeaders (init p)) = None ∧
    hget "x-api-key" (initHeaders (init p)) = Some (lit "secret") ∧
    request p = UrlString (lit "https://api.example/v1/chat").
Proof.
  eexists. split; [reflexivity|].
  destruct (prepareAntigravityRequest_header_frame
              (constants := sampleConstants) (rewriter := sampleRewriter)
              (UrlString (lit "https://api.example/v1/chat"))
              (Some {| method := Some (lit "POST");
                       initHeaders := hset "x-api-key" (lit "secret") ∅;
                       initBody := Some (BodyString (lit "{}")) |})
              (lit "token") None None _ eq_refl) as (_ & H & _).
  destruct (H eq_refl) as (Hh & Hr & _).
  rewrite Hh. split; [reflexivity|]. split; [reflexivity|exact Hr].
Defined.

(** *** What the response normaliser keeps *)

Section ResponseFrame.
Context {platform : Platform} {helpers : RequestHelpers}.

Lemma errorBlock_inv response text hs meta res :
  errorBlock response text hs meta = ret res →
  match res with
  | inl r => status r = status response ∧
             statusText r = statusText response ∧ headers r = hs
  | inr hs1 => hs1 = hs
  end.
Proof.
  intros H. pose proof (errorBlock_headers _ _ _ _ _ H) as Hh.
  destruct res as [r|hs1]; [|done].
  unfold errorBlock in H.
  destruct (optProp (Some _) (lit "error")) as [e|] eqn:Ee.
  - destruct (truthyJson e) eqn:Et.
    + apply bind_ret_inv in H as (e1 & _ & Hk).
      apply bind_ret_inv in Hk as (b1 & _ & Hk).
      apply bind_ret_inv in Hk as (r' & Hr & Hk).
      injection Hk as <-. by apply new_Response_inv in Hr as (? & ? & _ & _).
    + rewrite retryHeaders_falsy in H by done. done.
  - rewrite retryHeaders_falsy in H by done. done.
Qed.

Lemma normalise_inv response streaming isEventStream meta r :
  (normalise response streaming isEventStream meta).1 = ret r →
  status r = status response ∧ statusText r = statusText response ∧
  ∃ usage, headers r = usageHeaders usage (headers response).
Proof.
  unfold normalise, response_text. cbn [fst].
  intros (text & _ & Hk)%bind_ret_inv.
  apply bind_ret_inv in Hk as (early & Hearly & Hk).
  assert (match early with
          | inl r0 => status r0 = status response ∧
                      statusText r0 = statusText response ∧
                      headers r0 = headers response
          | inr hs1 => hs1 = headers response
          end) as Hinv.
  { destruct (negb (ok response)).
    - by apply errorBlock_inv in Hearly.
    - by injection Hearly as <-. }
  destruct early as [r0|hs1].
  { injection Hk as <-. destruct Hinv as (? & ? & ?).
    split; [done|]. split; [done|]. by exists None. }
  subst hs1.
  apply bind_ret_inv in Hk as (usageFromSse & _ & Hk).
  apply bind_ret_inv in Hk as (parsed & _ & Hk).
  apply bind_ret_inv in Hk as (patched & _ & Hk).
  apply bind_ret_inv in Hk as (usage & _ & Hk).
  assert (∀ b, new_Response (BodyText b) (status response)
                 (statusText response)
                 (usageHeaders usage (headers response)) = ret r →
               status r = status response ∧
               statusText r = statusText response ∧
               ∃ usage, headers r = usageHeaders usage (headers response))
    as Hnew.
  { intros b (? & ? & ? & _)%new_Response_inv.
    split; [done|]. split; [done|]. by exists usage. }
  destruct parsed as [p|]; [|by eapply Hnew].
  destruct (optProp _ (lit "response")) as [inner|].
  { apply bind_ret_inv in Hk as (t & _ & Hk). by eapply Hnew. }
  destruct patched; by eapply Hnew.
Qed.

Lemma usageHeaders_frame (usage : option Usage) (hs : Headers)
    (k : jsstring) :
  k ∉ usageHeaderNames → usageHeaders usage hs !! k = hs !! k.
Proof.
  intros Hk. unfold usageHeaderNames in Hk. cbn [fmap list_fmap] in Hk.
  rewrite !not_elem_of_cons in Hk. destruct Hk as (? & ? & ? & ? & _).
  unfold usageHeaders, setCount.
  destruct usage as [[[c|] [t|] [p|] [d|]]|]; simpl;
    unfold hset; rewrite ?lookup_insert_ne by done; done.
Qed.

(** The normaliser never changes the status. *)
Lemma transformAntigravityResponse_status (response : Response)
    (streaming : bool) (meta : RequestMeta) (r : Response) :
  transformAntigravityResponse response streaming meta = ret r →
  status r = status response.
Proof.
  unfold transformAntigravityResponse.
  destruct (negb _ && negb _); [by intros [= <-]|].
  destruct (_ && hasBody response).
  { intros (b & _ & (? & _)%new_Response_inv)%bind_ret_inv. done. }
  match goal with
  | |- context [normalise ?rs ?st ?es ?mt] =>
      pose proof (normalise_object rs st es mt) as Hobj;
      pose proof (normalise_inv rs st es mt) as Hres;
      destruct (normalise rs st es mt) as [[e|r0] response1]
  end; cbn [fst snd] in *; intros [= <-]; simpl.
  - rewrite Hobj. by destruct (afterRead_frame response) as (-> & _).
  - by destruct (Hres r0 eq_refl) as (? & _).
Qed.

(** X15. Whatever [transformAntigravityResponse] returns has the status
    and the status text of the upstream response, and its headers except
    possibly the four token-count headers.  A response that is neither
    JSON nor an event stream is returned as it is. *)
Theorem transformAntigravityResponse_frame (response : Response)
    (streaming : bool) (meta : RequestMeta) (r : Response) :
  transformAntigravityResponse response streaming meta = ret r →
  status r = status response
  ∧ statusText r = statusText response
  ∧ (∀ k, k ∉ usageHeaderNames → headers r !! k = headers response !! k)
  ∧ (includes (default [] (hget "content-type" (headers response)))
              (lit "application/json") = false →
     includes (default [] (hget "content-type" (headers response)))
              (lit "text/event-stream") = false →
     r = response).
Proof.
  unfold transformAntigravityResponse.
  destruct (includes _ (lit "application/json")) eqn:Ej;
    destruct (includes _ (lit "text/event-stream")) eqn:Es; cbn [negb andb].
  4:{ by intros [= <-]. }
  all: destruct (_ && hasBody response);
    [ intros (b & _ & (? & ? & -> & _)%new_Response_inv)%bind_ret_inv;
      done |].
  all: match goal with
       | |- context [normalise ?rs ?st ?es ?mt] =>
           pose proof (normalise_object rs st es mt) as Hobj;
           pose proof (normalise_inv rs st es mt) as Hres;
           destruct (normalise rs st es mt) as [[e|r0] response1]
       end;
    cbn [fst snd] in *; intros [= <-]; simpl.
  all: try (rewrite Hobj;
            destruct (afterRead_frame response) as (-> & -> & ->);
            by repeat split).
  all: destruct (Hres r0 eq_refl) as (? & ? & usage & Hh);
    repeat split; try done;
    intros k Hk; rewrite Hh; by apply usageHeaders_frame.
Qed.

End ResponseFrame.

Lemma transformAntigravityResponse_frame_witness :
  ∃ r, transformAntigravityResponse (platform := samplePlatform)
         (helpers := sampleHelpers) rateLimitedResponse false sampleMeta
       = ret r ∧
       status r = 429 ∧ statusText r = lit "Too Many Requests".
Proof.
  eexists. split; [vm_compute; reflexivity|].
  destruct (transformAntigravityResponse_frame (platform := samplePlatform)
              (helpers := sampleHelpers) rateLimitedResponse false sampleMeta
              _ eq_refl) as (H1 & H2 & _).
  split; [exact H1|exact H2].
Defined.

End PrepareMoreFacts.

(** ** The dispatch loop, continued *)
Module PluginMoreFacts.
Import JsString Accounts AccountsFacts Runtime Request RequestFacts Plugin
  PluginFacts AccountOps AccountOpsFacts PrepareMore PrepareMoreFacts
  PluginMore Samples PluginSamples Loader LoaderSamples.

Section Loop.
Context {platform : Platform} {helpers : RequestHelpers}
  {constants : Constants} {rewriter : BodyRewriter} {auth : AuthHelpers}
  {world : World}.
Variable input : RequestInfo.
Variable init0 : option RequestInit.

(** *** The endpoint loop *)

(** X16. With at least one endpoint to try, the loop over the endpoints
    never runs out: it ends by returning or throwing, or by the [break]
    after a 429.  What the code does after a loop that ran out (the
    return of the last response, the throw of the last error) is
    therefore not reached. *)
Theorem tryEndpoints_never_runs_out (attempt account : nat)
    (accessToken : jsstring) (effectiveProjectId : option jsstring)
    (endpoints : list jsstring) :
  endpoints ≠ [] →
  ∀ i lastResponse lastError,
    match (tryEndpoints input init0 attempt account accessToken
             effectiveProjectId i endpoints lastResponse lastError).1 with
    | Fell _ _ => False
    | _ => True
    end.
Proof.
  induction endpoints as [|ep rest IH]; [done|]. intros _ i lastR lastE.
  cbn [tryEndpoints].
  destruct rest as [|ep' rest].
  - rewrite bool_decide_eq_true_2 by done. cbn [negb].
    destruct (prepareAntigravityRequest _ _ _ _ _) as [e|p]; [done|].
    destruct (upstream attempt i p) as [e|resp]; [done|].
    destruct (status resp =? 429); [done|].
    by rewrite andb_false_r.
  - rewrite bool_decide_eq_false_2 by done. cbn [negb].
    assert (ep' :: rest ≠ []) as Hne by done.
    destruct (prepareAntigravityRequest _ _ _ _ _) as [e|p]; [by apply IH|].
    destruct (upstream attempt i p) as [e|resp].
    { specialize (IH Hne (S i) lastR (Some e)).
      by destruct (tryEndpoints _ _ _ _ _ _ _ _ _ _). }
    destruct (status resp =? 429); [done|].
    destruct (shouldRetryEndpoint resp && true); [|done].
    specialize (IH Hne (S i) (Some resp) lastE).
    by destruct (tryEndpoints _ _ _ _ _ _ _ _ _ _).
Qed.

(** *** The loop over the accounts, step by step *)

(** One more attempt, after the events [evs]. *)
Lemma dispatch_unfold remaining attempt m :
  dispatch input init0 (S remaining) attempt m =
    let continue (m' : AccountManager) (evs : list Event) :=
      let '(exit, m'', evs') :=
        dispatch input init0 remaining (S attempt) m' in
      (exit, m'', evs ++ evs') in
    let '(selected, m1) := getNext (clockSelect attempt) m in
    match selected with
    | None => (NoAccount (getMinWaitTime (clockSelect attempt) m1), m1, [])
    | Some r =>
        match freshCredentials attempt r m1 with
        | Unusable cleared =>
            continue m1 (if cleared then [Cleared attempt r] else [])
        | Rejected cleared error =>
            (Returned (throw error), m1,
             if cleared then [Cleared attempt r] else [])
        | Usable authRecord m2 =>
            match authAccess authRecord with
            | Some accessToken =>
                if truthy accessToken then
                  match ensureProjectContext authRecord with
                  | inl error => (Returned (throw error), m2, [])
                  | inr effectiveProjectId =>
                      let '(res, evs) :=
                        tryEndpoints input init0 attempt r accessToken
                          effectiveProjectId 0 ANTIGRAVITY_ENDPOINT_FALLBACKS
                          None None in
                      match res with
                      | Done outcome => (Returned outcome, m2, evs)
                      | HitRateLimit retryAfterMs =>
                          continue
                            (markRateLimited r retryAfterMs
                               (clockMark attempt) m2)
                            (evs ++ [Marked attempt r retryAfterMs])
                      | Fell lastResponse lastError =>
                          (Returned
                             (afterEndpoints input init0 accessToken
                                effectiveProjectId lastResponse lastError),
                           m2, evs)
                      end
                  end
                else continue m2 []
            | None => continue m2 []
            end
        end
    end.
Proof. reflexivity. Qed.

(** A property of the runs of the loop holds of all of them when it holds
    of the loop that has run out, of every way an attempt ends the call,
    and is kept by every way an attempt hands over to the next one.  The
    pool an attempt starts from satisfies [I]. *)
Section LoopInduction.
Variable I : nat → AccountManager → Prop.
Variable P : nat → nat → AccountManager →
             LoopExit * AccountManager * list Event → Prop.

Hypothesis out_of_attempts : ∀ attempt m,
  I attempt m → P 0 attempt m (OutOfAttempts, m, []).

Hypothesis no_account : ∀ remaining attempt m m1,
  I attempt m →
  getNext (clockSelect attempt) m = (None, m1) →
  P (S remaining) attempt m
    (NoAccount (getMinWaitTime (clockSelect attempt) m1), m1, []).

Hypothesis refresh_throws : ∀ remaining attempt m r m1 cleared error,
  I attempt m →
  getNext (clockSelect attempt) m = (Some r, m1) →
  freshCredentials attempt r m1 = Rejected cleared error →
  P (S remaining) attempt m
    (Returned (throw error), m1,
     if cleared then [Cleared attempt r] else []).

Hypothesis leaves : ∀ remaining attempt m r m1 authRecord m2 tok,
  I attempt m →
  getNext (clockSelect attempt) m = (Some r, m1) →
  freshCredentials attempt r m1 = Usable authRecord m2 →
  authAccess authRecord = Some tok → truthy tok = true →
  match ensureProjectContext authRecord with
  | inl error => P (S remaining) attempt m (Returned (throw error), m2, [])
  | inr pid =>
      ∀ res evs,
        tryEndpoints input init0 attempt r tok pid 0
          ANTIGRAVITY_ENDPOINT_FALLBACKS None None = (res, evs) →
        match res with
        | Done outcome => P (S remaining) attempt m (Returned outcome, m2, evs)
        | HitRateLimit _ => True
        | Fell lastR lastE =>
            P (S remaining) attempt m
              (Returned (afterEndpoints input init0 tok pid lastR lastE),
               m2, evs)
        end
  end.

Hypothesis hands_over : ∀ remaining attempt m m' evs exit m'' evs',
  I attempt m →
  HandsOver input init0 attempt m m' evs →
  I (S attempt) m' ∧
  (P remaining (S attempt) m' (exit, m'', evs') →
   P (S remaining) attempt m (exit, m'', evs ++ evs')).

Lemma dispatch_ind remaining : ∀ attempt m,
  I attempt m →
  P remaining attempt m (dispatch input init0 remaining attempt m).
Proof.
  induction remaining as [|remaining IH]; intros attempt m Hm.
  { by apply out_of_attempts. }
  assert (∀ m' evs, HandsOver input init0 attempt m m' evs →
    P (S remaining) attempt m
      (let '(exit, m'', evs') :=
         dispatch input init0 remaining (S attempt) m' in
       (exit, m'', evs ++ evs'))) as Hcontinue.
  { intros m' evs Hover.
    specialize (IH (S attempt) m').
    destruct (dispatch input init0 remaining (S attempt) m')
      as [[exit m''] evs'].
    destruct (hands_over remaining attempt m m' evs exit m'' evs' Hm Hover)
      as [Hm' Hstep].
    by apply Hstep, IH. }
  rewrite dispatch_unfold. cbv zeta.
  destruct (getNext (clockSelect attempt) m) as [[r|] m1] eqn:Hsel.
  2:{ by apply no_account. }
  destruct (freshCredentials attempt r m1)
    as [authRecord m2|cleared|cleared error] eqn:Hcred.
  2:{ apply Hcontinue. by eapply refresh_failed. }
  2:{ by eapply refresh_throws. }
  destruct (authAccess authRecord) as [tok|] eqn:Htok.
  2:{ apply Hcontinue. eapply no_token; [done|done|]. by rewrite Htok. }
  destruct (truthy tok) eqn:Htr.
  2:{ apply Hcontinue. eapply no_token; [done|done|]. by rewrite Htok. }
  pose proof (leaves remaining attempt m r m1 authRecord m2 tok
                Hm Hsel Hcred Htok Htr) as Hleave.
  destruct (ensureProjectContext authRecord) as [e|pid] eqn:Hproj; [done|].
  specialize (Hleave _ _ (surjective_pairing _)).
  destruct (tryEndpoints _ _ _ _ _ _ _ _ _ _) as [res evs] eqn:Hrun.
  cbn [fst snd] in Hleave.
  destruct res as [outcome|retryAfterMs|lastR lastE]; [done| |done].
  apply Hcontinue. by eapply rate_limited.
Qed.

End LoopInduction.

(** What a hand-over does to the pool. *)
Lemma getNext_length now m :
  length (accounts (getNext now m).2) = length (accounts m).
Proof.
  unfold getNext. case_bool_decide; simpl; [by rewrite length_fmap|].
  destruct (available _ _ !! _); simpl;
    by rewrite ?length_alter, length_fmap.
Qed.

Lemma freshCredentials_length attempt r m1 authRecord m2 :
  freshCredentials attempt r m1 = Usable authRecord m2 →
  length (accounts m2) = length (accounts m1).
Proof.
  intros H%freshCredentials_flags%(f_equal length).
  by rewrite !length_fmap in H.
Qed.

Lemma HandsOver_length attempt m m' evs :
  HandsOver input init0 attempt m m' evs →
  length (accounts m') = length (accounts m).
Proof.
  intros [r m1 cleared Hsel _|r m1 authRecord m2 Hsel Hcred _
         |r m1 authRecord m2 tok pid ms evs0 Hsel Hcred _ _ _ _].
  - rewrite <- (getNext_length (clockSelect attempt) m). by rewrite Hsel.
  - rewrite (freshCredentials_length _ _ _ _ _ Hcred).
    rewrite <- (getNext_length (clockSelect attempt) m). by rewrite Hsel.
  - simpl. rewrite length_alter.
    rewrite (freshCredentials_length _ _ _ _ _ Hcred).
    rewrite <- (getNext_length (clockSelect attempt) m). by rewrite Hsel.
Qed.

(** *** No 429 reaches the caller *)

Lemma tryEndpoints_not_429 a r tok pid eps : ∀ i lastR lastE,
  (∀ resp, lastR = Some resp → status resp ≠ 429) →
  match (tryEndpoints input init0 a r tok pid i eps lastR lastE).1 with
  | Done out => ∀ resp, out = ret resp → status resp ≠ 429
  | HitRateLimit _ => True
  | Fell lastR' _ => ∀ resp, lastR' = Some resp → status resp ≠ 429
  end.
Proof.
  induction eps as [|ep rest IH]; intros i lastR lastE HlastR;
    cbn [tryEndpoints]; [done|].
  destruct (prepareAntigravityRequest _ _ _ _ _) as [e|p].
  { destruct (negb _); [by apply IH|done]. }
  destruct (upstream a i p) as [e|resp].
  { destruct (negb _); [|done].
    specialize (IH (S i) lastR (Some e) HlastR).
    by destruct (tryEndpoints _ _ _ _ _ _ _ _ _ _). }
  destruct (status resp =? 429) eqn:E429; [done|].
  apply Z.eqb_neq in E429.
  destruct (shouldRetryEndpoint resp && _).
  - assert (∀ resp', Some resp = Some resp' → status resp' ≠ 429) as H
      by (by intros ? [= <-]).
    specialize (IH (S i) (Some resp) lastE H).
    by destruct (tryEndpoints _ _ _ _ _ _ _ _ _ _).
  - simpl. intros r' Hr'.
    apply transformAntigravityResponse_status in Hr' as ->. done.
Qed.

Lemma dispatch_not_429 remaining attempt m resp :
  (dispatch input init0 remaining attempt m).1.1 = Returned (ret resp) →
  status resp ≠ 429.
Proof.
  revert resp.
  apply (dispatch_ind (λ _ _, True)
           (λ _ _ _ res, ∀ resp, res.1.1 = Returned (ret resp) →
                                 status resp ≠ 429)); try done.
  - intros _ a m0 r m1 authRecord m2 tok _ _ _ _ _.
    destruct (ensureProjectContext authRecord) as [e|pid]; [done|].
    intros res evs Hrun.
    pose proof (tryEndpoints_not_429 a r tok pid
                  ANTIGRAVITY_ENDPOINT_FALLBACKS 0 None None) as H.
    rewrite Hrun in H. simpl in H.
    destruct res as [outcome|ms|lastR lastE]; [|done|].
    + intros resp [= ->]. by apply H.
    + intros resp [= Hout]. unfold afterEndpoints in Hout.
      destruct lastR as [response|]; [|done].
      apply bind_ret_inv in Hout as (p & _ & Hr).
      apply transformAntigravityResponse_status in Hr as ->. by apply H.
Qed.

(** X17. A 429 reaches the caller of [fetch] only on a call that the
    plugin hands on untouched (a request that is not for the watched API,
    or credentials that are not OAuth credentials): it is then the answer
    to the caller's own request.  On a call the plugin handles, a 429 from
    the upstream marks the account and moves on, and the responses that
    are returned keep their status through the normaliser. *)
Theorem fetch_never_returns_429 (resp : Response) :
  (fetch input init0).1.1 = ret resp → status resp = 429 →
  forward = ret resp ∧ (fetch input init0).1.2 = None ∧
  (fetch input init0).2 = [].
Proof.
  unfold fetch.
  destruct (negb (isGenerativeLanguageRequest input));
    [simpl; by intros ->|].
  destruct getAuth as [e|[latestAuth|]]; [done| |simpl; by intros ->].
  unfold intercept.
  pose proof (dispatch_not_429
                (getAccountCount (newAccountManager latestAuth)) 0
                (newAccountManager latestAuth) resp) as H.
  destruct (dispatch _ _ _ _ _) as [[exit m] evs]. simpl in *.
  destruct exit as [outcome| |]; simpl; [|done..].
  intros -> Hst. by destruct (H eq_refl).
Qed.

(** *** An account is always found *)

Lemma flagged_flags l l' :
  isRateLimited <$> l = isRateLimited <$> l' → flagged l = flagged l'.
Proof.
  unfold flagged. revert l'. induction l as [|x l IH]; intros [|y l'] H;
    try done.
  injection H as Hx H. simpl. rewrite Hx.
  destruct (isRateLimited y); simpl; by rewrite (IH l' H).
Qed.

Lemma flagged_alter_le (f : ManagedAccount → ManagedAccount) r l :
  (flagged (alter f r l) ≤ S (flagged l))%nat.
Proof.
  unfold flagged. revert r. induction l as [|x l IH]; intros r; [simpl; lia|].
  destruct r as [|r].
  - change (alter f 0%nat (x :: l)) with (f x :: l). simpl.
    destruct (isRateLimited (f x)), (isRateLimited x); simpl; lia.
  - change (alter f (S r) (x :: l)) with (x :: alter f r l). simpl.
    specialize (IH r). destruct (isRateLimited x); simpl; lia.
Qed.

Lemma flagged_alter_keep (f : ManagedAccount → ManagedAccount) r l :
  (∀ a, isRateLimited (f a) = isRateLimited a) →
  flagged (alter f r l) = flagged l.
Proof.
  intros Hf. apply flagged_flags. apply list_eq. intros i.
  rewrite !list_lookup_fmap.
  destruct (decide (r = i)) as [->|Hne].
  - rewrite list_lookup_alter_eq. destruct (l !! i); [|done]. simpl.
    by rewrite Hf.
  - by rewrite list_lookup_alter_ne.
Qed.

Lemma flagged_swept now l :
  (flagged ((λ a, (sweep now a).2) <$> l) ≤ flagged l)%nat.
Proof.
  unfold flagged. induction l as [|x l IH]; [done|].
  rewrite fmap_cons. cbn [List.filter].
  destruct (isRateLimited (sweep now x).2) eqn:E1,
           (isRateLimited x) eqn:E2; cbn [length]; try lia.
  rewrite (sweep_not_limited _ _ E2) in E1. simpl in E1. congruence.
Qed.

Lemma flagged_some_free l :
  (flagged l < length l)%nat → ∃ a, a ∈ l ∧ isRateLimited a = false.
Proof.
  unfold flagged. induction l as [|x l IH]; simpl; [lia|].
  destruct (isRateLimited x) eqn:E; simpl; intros Hlt.
  - destruct IH as (a & Ha & ?); [lia|]. exists a.
    split; [by apply list_elem_of_further|done].
  - exists x. split; [apply list_elem_of_here|done].
Qed.

Lemma getNext_flagged now m :
  (flagged (accounts (getNext now m).2) ≤ flagged (accounts m))%nat.
Proof.
  unfold getNext. case_bool_decide; simpl; [apply flagged_swept|].
  destruct (available _ _ !! _); simpl; [|apply flagged_swept].
  rewrite flagged_alter_keep by done. apply flagged_swept.
Qed.

(** With an account that carries no flag, [getNext] finds one. *)
Lemma getNext_finds now m :
  (flagged (accounts m) < length (accounts m))%nat →
  (getNext now m).1 ≠ None.
Proof.
  intros (a & Ha & Hf)%flagged_some_free H.
  apply getNext_None in H.
  pose proof (proj1 (available_nil _ _) H a Ha) as E.
  unfold eligible in E. by rewrite (sweep_not_limited _ _ Hf) in E.
Qed.

(** Every hand-over flags at most one more account. *)
Lemma HandsOver_flagged attempt m m' evs :
  HandsOver input init0 attempt m m' evs →
  (flagged (accounts m') ≤ S (flagged (accounts m)))%nat.
Proof.
  intros Hover.
  assert (∀ r m1, getNext (clockSelect attempt) m = (Some r, m1) →
                  (flagged (accounts m1) ≤ flagged (accounts m))%nat) as Hsel1.
  { intros r m1 E. pose proof (getNext_flagged (clockSelect attempt) m) as H.
    by rewrite E in H. }
  destruct Hover as [r m1 cleared Hsel _|r m1 authRecord m2 Hsel Hcred _
                    |r m1 authRecord m2 tok pid ms evs0 Hsel Hcred _ _ _ _].
  - specialize (Hsel1 _ _ Hsel). lia.
  - rewrite (flagged_flags _ _ (freshCredentials_flags _ _ _ _ _ Hcred)).
    specialize (Hsel1 _ _ Hsel). lia.
  - simpl. etrans; [apply flagged_alter_le|].
    rewrite (flagged_flags _ _ (freshCredentials_flags _ _ _ _ _ Hcred)).
    specialize (Hsel1 _ _ Hsel). lia.
Qed.

Lemma inCall_HandsOver n attempt m m' evs :
  inCall n attempt m → HandsOver input init0 attempt m m' evs →
  inCall n (S attempt) m'.
Proof.
  intros [Hlen Hfl] Hover. split.
  - by rewrite (HandsOver_length _ _ _ _ Hover).
  - pose proof (HandsOver_flagged _ _ _ _ Hover). lia.
Qed.

Lemma dispatch_finds n remaining attempt m :
  inCall n attempt m → (attempt + remaining ≤ n)%nat →
  match (dispatch input init0 remaining attempt m).1.1 with
  | NoAccount _ => False
  | _ => True
  end.
Proof.
  apply (dispatch_ind (inCall n)
           (λ remaining attempt _ res,
              (attempt + remaining ≤ n)%nat →
              match res.1.1 with NoAccount _ => False | _ => True end)).
  - done.
  - intros remaining0 a m0 m1 [Hlen Hfl] Hsel Hle. simpl.
    apply (getNext_finds (clockSelect a) m0); [lia|]. by rewrite Hsel.
  - done.
  - intros remaining0 a m0 r m1 authRecord m2 tok _ _ _ _ _.
    destruct (ensureProjectContext authRecord) as [e|pid]; [done|].
    intros res evs _. by destruct res.
  - intros remaining0 a m0 m' evs exit m'' evs' Hm Hover.
    split; [by eapply inCall_HandsOver|].
    simpl. intros H Hle. apply H. lia.
Qed.

(** The pool [fetch] builds is not empty and carries no flag. *)
Lemma newAccountManager_inCall latestAuth :
  accounts (newAccountManager latestAuth) ≠ [] ∧
  none_limited (accounts (newAccountManager latestAuth)) ∧
  currentIndex (newAccountManager latestAuth) = 0%nat ∧
  inCall (getAccountCount (newAccountManager latestAuth)) 0
    (newAccountManager latestAuth).
Proof.
  unfold newAccountManager.
  destruct (construct_accounts parseMultiAccountRefresh parseRefreshParts
              latestAuth) as (ps & Hne & Hacc & _).
  assert (none_limited (accounts (construct parseMultiAccountRefresh
                                    parseRefreshParts latestAuth))) as Hnone.
  { apply Forall_lookup. intros i a. rewrite Hacc, list_lookup_imap.
    destruct (ps !! i); [|done]. csimpl. by intros [= <-]. }
  split; [|split; [done|split]].
  - rewrite Hacc. intros E%(f_equal length).
    rewrite length_imap in E. by destruct ps.
  - unfold construct. by destruct (_ <? _)%nat.
  - split; [done|]. unfold flagged.
    rewrite (proj2 (filter_nil_iff _ _)); [done|].
    intros a Ha. by apply (proj1 (Forall_forall _ _) Hnone).
Qed.

(** X18. In a call of [fetch], [getNext] never returns null: the pool is
    built anew for the call with no account rate-limited, an attempt marks
    at most the one account it selected, and there are no more attempts
    than accounts, so at every attempt an account without flag is left.
    The loop over the accounts therefore never ends in the throw of the
    error that tells how long to wait ([All N account(s) are
    rate-limited ...]). *)
Theorem fetch_always_finds_account (latestAuth : OAuthAuthDetails) :
  match (intercept input init0 latestAuth).1.1 with
  | NoAccount _ => False
  | _ => True
  end.
Proof.
  unfold intercept. cbv zeta.
  destruct (newAccountManager_inCall latestAuth) as (_ & _ & _ & Hin).
  by apply (dispatch_finds _ _ _ _ Hin).
Qed.

(** *** The shape of the log *)

Lemma Forall_removelast {A} (P : A → Prop) (l : list A) :
  Forall P l → Forall P (removelast l).
Proof.
  induction 1 as [|x l Hx Hl IH]; [constructor|].
  destruct l; [constructor|]. by constructor.
Qed.

Lemma removelast_app_Forall {A} (P : A → Prop) (l l' : list A) :
  Forall P l → Forall P (removelast l') → Forall P (removelast (l ++ l')).
Proof.
  intros Hl Hl'. destruct l' as [|x l'].
  - rewrite app_nil_r. by apply Forall_removelast.
  - rewrite removelast_app by done. by apply Forall_app.
Qed.

(** What the endpoint loop logs: answers of its attempt, and at most one
    save, which then is the last event and ends the call. *)
Lemma tryEndpoints_log a r tok pid eps : ∀ i lastR lastE,
  Forall (λ ev, attemptOf ev = a ∧ (isAuthSet ev = true → isSaved ev = true))
    (tryEndpoints input init0 a r tok pid i eps lastR lastE).2 ∧
  Forall (λ ev, isSaved ev = false)
    (removelast (tryEndpoints input init0 a r tok pid i eps lastR lastE).2) ∧
  match (tryEndpoints input init0 a r tok pid i eps lastR lastE).1 with
  | Done _ => True
  | _ => Forall (λ ev, isSaved ev = false)
           (tryEndpoints input init0 a r tok pid i eps lastR lastE).2
  end.
Proof.
  induction eps as [|ep rest IH]; intros i lastR lastE; cbn [tryEndpoints].
  { simpl. repeat split; constructor. }
  destruct (prepareAntigravityRequest _ _ _ _ _) as [e|p].
  { destruct (negb _); [by apply IH|]. simpl. repeat split; constructor. }
  destruct (upstream a i p) as [e|resp].
  { destruct (negb _).
    - destruct (IH (S i) lastR (Some e)) as (H1 & H2 & H3).
      destruct (tryEndpoints _ _ _ _ _ _ _ _ _ _) as [res evs].
      simpl in *. split; [by constructor|].
      split.
      + destruct evs; [constructor|]. by constructor.
      + destruct res; [done|by constructor..].
    - simpl. repeat split; repeat constructor; done. }
  destruct (status resp =? 429).
  { simpl. repeat split; repeat constructor; done. }
  destruct (shouldRetryEndpoint resp && _).
  - destruct (IH (S i) (Some resp) lastE) as (H1 & H2 & H3).
    destruct (tryEndpoints _ _ _ _ _ _ _ _ _ _) as [res evs].
    simpl in *. split; [by constructor|].
    split.
    + destruct evs; [constructor|]. by constructor.
    + destruct res; [done|by constructor..].
  - simpl. repeat split; repeat constructor; done.
Qed.

Lemma authSets_app a l l' : authSets a (l ++ l') = authSets a l ++ authSets a l'.
Proof. unfold authSets. apply List.filter_app. Qed.

Lemma authSets_other a l :
  Forall (λ ev, attemptOf ev ≠ a) l → authSets a l = [].
Proof.
  unfold authSets. induction 1 as [|ev l Hev _ IH]; [done|]. simpl.
  rewrite (proj2 (Nat.eqb_neq _ _) Hev), andb_false_r. done.
Qed.

Lemma authSets_none a l :
  Forall (λ ev, isAuthSet ev = false) l → authSets a l = [].
Proof.
  unfold authSets. induction 1 as [|ev l Hev _ IH]; [done|]. simpl.
  by rewrite Hev.
Qed.

(** At most one save, and no other call of [client.auth.set]. *)
Lemma authSets_last a l :
  Forall (λ ev, isAuthSet ev = true → isSaved ev = true) l →
  Forall (λ ev, isSaved ev = false) (removelast l) →
  (length (authSets a l) ≤ 1)%nat.
Proof.
  intros Hall Hlast. destruct l as [|x l] using rev_ind; [simpl; lia|].
  clear IHl. rewrite removelast_last in Hlast.
  apply Forall_app in Hall as [Hall _].
  rewrite authSets_app, length_app, authSets_none.
  - unfold authSets. simpl. destruct (_ && _); simpl; lia.
  - rewrite Forall_forall in *. intros ev Hev.
    specialize (Hall ev Hev). specialize (Hlast ev Hev).
    destruct (isAuthSet ev); [|done]. by rewrite Hall in Hlast.
Qed.

(** What a hand-over logs: events of its attempt, no save, and at most one
    call of [client.auth.set]. *)
Lemma HandsOver_log attempt m m' evs :
  HandsOver input init0 attempt m m' evs →
  Forall (λ ev, attemptOf ev = attempt) evs ∧
  Forall (λ ev, isSaved ev = false) evs ∧
  (length (authSets attempt evs) ≤ 1)%nat.
Proof.
  intros [r m1 cleared _ _|r m1 authRecord m2 _ _ _
         |r m1 authRecord m2 tok pid ms evs0 _ _ _ _ _ Hrun].
  - destruct cleared.
    + split; [by repeat constructor|]. split; [by repeat constructor|].
      unfold authSets. cbn [List.filter isAuthSet attemptOf andb].
      rewrite Nat.eqb_refl. simpl. lia.
    + split; [constructor|]. split; [constructor|]. simpl. lia.
  - split; [constructor|]. split; [constructor|]. simpl. lia.
  - destruct (tryEndpoints_log attempt r tok pid
                ANTIGRAVITY_ENDPOINT_FALLBACKS 0 None None) as (H1 & H2 & H3).
    rewrite Hrun in H1, H2, H3. simpl in *.
    split; [|split].
    + apply Forall_app. split; [|by repeat constructor].
      eapply Forall_impl; [exact H1|]. by intros ev [? _].
    + apply Forall_app. split; [done|by repeat constructor].
    + rewrite authSets_app, length_app.
      replace (authSets attempt [Marked attempt r ms]) with (@nil Event)
        by (unfold authSets; simpl; done).
      rewrite authSets_none; [simpl; lia|].
      rewrite Forall_forall in *. intros ev Hev.
      destruct (H1 ev Hev) as [_ Hset]. specialize (H3 ev Hev).
      destruct (isAuthSet ev); [|done]. by rewrite Hset in H3.
Qed.

Lemma dispatch_log remaining attempt m :
  Forall (λ ev, attempt ≤ attemptOf ev < attempt + remaining)%nat
    (dispatch input init0 remaining attempt m).2 ∧
  Forall (λ ev, isSaved ev = false)
    (removelast (dispatch input init0 remaining attempt m).2) ∧
  (∀ a, (length (authSets a (dispatch input init0 remaining attempt m).2)
         ≤ 1)%nat) ∧
  length (accounts (dispatch input init0 remaining attempt m).1.2) =
    length (accounts m).
Proof.
  apply (dispatch_ind (λ _ _, True)
    (λ remaining attempt m res,
       Forall (λ ev, attempt ≤ attemptOf ev < attempt + remaining)%nat res.2 ∧
       Forall (λ ev, isSaved ev = false) (removelast res.2) ∧
       (∀ a, (length (authSets a res.2) ≤ 1)%nat) ∧
       length (accounts res.1.2) = length (accounts m))); [| | | | |done].
  - intros a m0 _. simpl. repeat split; try constructor. simpl. lia.
  - intros remaining0 a m0 m1 _ Hsel. simpl.
    repeat split; try constructor; [simpl; lia|].
    rewrite <- (getNext_length (clockSelect a) m0). by rewrite Hsel.
  - intros remaining0 a m0 r m1 cleared error _ Hsel _. simpl.
    assert (length (accounts m1) = length (accounts m0)) as Hlen.
    { rewrite <- (getNext_length (clockSelect a) m0). by rewrite Hsel. }
    destruct cleared.
    + split; [repeat constructor; simpl; lia|]. split; [constructor|].
      split; [|done]. intros a'. unfold authSets. simpl.
      destruct (a =? a')%nat; simpl; lia.
    + split; [constructor|]. split; [constructor|].
      split; [|done]. intros a'. simpl. lia.
  - intros remaining0 a m0 r m1 authRecord m2 tok _ Hsel Hcred _ _.
    assert (length (accounts m2) = length (accounts m0)) as Hlen.
    { rewrite (freshCredentials_length _ _ _ _ _ Hcred).
      rewrite <- (getNext_length (clockSelect a) m0). by rewrite Hsel. }
    destruct (ensureProjectContext authRecord) as [e|pid].
    { simpl. repeat split; try constructor; [simpl; lia|done]. }
    intros res evs Hrun.
    destruct (tryEndpoints_log a r tok pid ANTIGRAVITY_ENDPOINT_FALLBACKS
                0 None None) as (H1 & H2 & _).
    rewrite Hrun in H1, H2. simpl in H1, H2.
    assert (Forall (λ ev, a ≤ attemptOf ev < a + S remaining0)%nat evs
            ∧ Forall (λ ev, isSaved ev = false) (removelast evs)
            ∧ (∀ a', (length (authSets a' evs) ≤ 1)%nat)) as Hevs.
    { split; [|split; [done|]].
      - eapply Forall_impl; [exact H1|]. intros ev [-> _]. lia.
      - intros a'. apply authSets_last; [|done].
        eapply Forall_impl; [exact H1|]. by intros ev [_ ?]. }
    destruct Hevs as (G1 & G2 & G3).
    destruct res as [outcome|ms|lastR lastE]; [|done|]; simpl; done.
  - intros remaining0 a m0 m' evs exit m'' evs' _ Hover.
    split; [done|]. simpl. intros (G1 & G2 & G3 & G4).
    destruct (HandsOver_log _ _ _ _ Hover) as (H1 & H2 & H3).
    split; [|split; [|split]].
    + apply Forall_app. split.
      * eapply Forall_impl; [exact H1|]. intros ev ->. lia.
      * eapply Forall_impl; [exact G1|]. intros ev ?. simpl in *. lia.
    + by apply removelast_app_Forall.
    + intros a'. rewrite authSets_app, length_app.
      destruct (decide (a' = a)) as [->|Hne].
      * rewrite (authSets_other a evs'); [simpl; lia|].
        eapply Forall_impl; [exact G1|]. intros ev ?. simpl in *. lia.
      * rewrite (authSets_other a' evs); [simpl; apply G3|].
        eapply Forall_impl; [exact H1|]. intros ev ->. done.
    + rewrite G4. by apply (HandsOver_length _ _ _ _ Hover).
Qed.

(** X19. In the log of a call that [fetch] handles, every event belongs to
    an attempt below the number of accounts (so at most that many accounts
    are tried); [client.auth.set] is called at most once per attempt; the
    pool's credentials are saved at most once, and if they are, that is
    the last thing the call does before it returns; the pool has as many
    accounts at the end as when it was built. *)
Theorem fetch_log_shape (latestAuth : OAuthAuthDetails) :
  Forall (λ ev, attemptOf ev < getAccountCount (newAccountManager latestAuth))%nat
    (intercept input init0 latestAuth).2
  ∧ (∀ a, (length (authSets a (intercept input init0 latestAuth).2) ≤ 1)%nat)
  ∧ Forall (λ ev, isSaved ev = false)
      (removelast (intercept input init0 latestAuth).2)
  ∧ getAccountCount (intercept input init0 latestAuth).1.2 =
      getAccountCount (newAccountManager latestAuth).
Proof.
  unfold intercept. cbv zeta.
  destruct (dispatch_log (getAccountCount (newAccountManager latestAuth)) 0
              (newAccountManager latestAuth)) as (H1 & H2 & H3 & H4).
  split; [|done]. eapply Forall_impl; [exact H1|]. intros ev ?. simpl in *. lia.
Qed.

(** *** Every account answered 429 *)

Lemma tryEndpoints_first_429 a r tok pid ep rest p resp :
  prepareAntigravityRequest input init0 tok pid (Some ep) = ret p →
  upstream a 0 p = ret resp → status resp = 429 →
  tryEndpoints input init0 a r tok pid 0 (ep :: rest) None None =
    (HitRateLimit (rateLimitWindow resp), [Answered a r 0 p (inr resp)]).
Proof.
  intros Hp Hup Hst. cbn [tryEndpoints]. unfold ret in *.
  by rewrite Hp, Hup, Hst.
Qed.

(** X24. Suppose no refresh throws, the project context always resolves,
    the request can be prepared for the first endpoint, and the upstream
    answers 429 to whatever it is sent.  Then a call that [fetch] handles
    ends in the
    throw after the loop, [Failed to complete request with any account],
    the throw the code marks as never reached: only the first endpoint was
    ever tried, and nothing was saved. *)
Theorem fetch_every_account_rate_limited (latestAuth : OAuthAuthDetails)
    (ep : jsstring) (rest : list jsstring) :
  isGenerativeLanguageRequest input = true →
  getAuth = ret (Some latestAuth) →
  (∀ attempt auth cleared error,
     refreshAccessToken attempt auth ≠ RefreshThrows cleared error) →
  (∀ auth, ∃ pid, ensureProjectContext auth = ret pid) →
  ANTIGRAVITY_ENDPOINT_FALLBACKS = ep :: rest →
  (∀ tok pid, ∃ p,
     prepareAntigravityRequest input init0 tok pid (Some ep) = ret p) →
  (∀ attempt i p, ∃ resp,
     upstream attempt i p = ret resp ∧ status resp = 429) →
  (fetch input init0).1.1 = throw noAccountLeft
  ∧ Forall (λ ev, match ev with
                  | Answered _ _ i _ (inr resp) => i = 0%nat ∧ status resp = 429
                  | Answered _ _ _ _ (inl _) | Saved _ => False
                  | _ => True
                  end) (fetch input init0).2.
Proof.
  intros Hwatched Hauth Hrefresh Hproj Heps Hprep H429.
  unfold fetch. rewrite Hwatched. cbn [negb]. unfold ret in Hauth.
  rewrite Hauth. unfold intercept. cbv zeta.
  destruct (newAccountManager_inCall latestAuth) as (_ & _ & _ & Hin).
  set (n := getAccountCount (newAccountManager latestAuth)) in *.
  set (shape := λ ev, match ev with
                      | Answered _ _ i _ (inr resp) =>
                          i = 0%nat ∧ status resp = 429
                      | Answered _ _ _ _ (inl _) | Saved _ => False
                      | _ => True
                      end).
  assert (∀ remaining attempt m,
    inCall n attempt m → (attempt + remaining ≤ n)%nat →
    (dispatch input init0 remaining attempt m).1.1 = OutOfAttempts ∧
    Forall shape (dispatch input init0 remaining attempt m).2) as Hloop.
  { intros remaining attempt m.
    apply (dispatch_ind (inCall n)
      (λ remaining attempt _ res,
         (attempt + remaining ≤ n)%nat →
         res.1.1 = OutOfAttempts ∧ Forall shape res.2)).
    - intros a m0 _ _. simpl. split; [done|constructor].
    - intros remaining0 a m0 m1 [Hlen Hfl] Hsel Hle. exfalso.
      apply (getNext_finds (clockSelect a) m0); [lia|]. by rewrite Hsel.
    - intros remaining0 a m0 r m1 cleared error _ _ Hcred. exfalso.
      unfold freshCredentials in Hcred.
      destruct (accessTokenExpired _); [|done].
      destruct (refreshAccessToken _ _) eqn:E; try done.
      injection Hcred as -> ->. by apply Hrefresh in E.
    - intros remaining0 a m0 r m1 authRecord m2 tok _ _ _ _ _.
      destruct (Hproj authRecord) as [pid Hpid]. unfold ret in Hpid.
      rewrite Hpid. intros res evs. rewrite Heps.
      destruct (Hprep tok pid) as [p Hp].
      destruct (H429 a 0%nat p) as (resp & Hup & Hst).
      rewrite (tryEndpoints_first_429 a r tok pid ep rest p resp Hp Hup Hst).
      by intros [= <- <-].
    - intros remaining0 a m0 m' evs exit m'' evs' Hm Hover.
      split; [by eapply inCall_HandsOver|].
      simpl. intros H Hle. destruct H as [H1 H2]; [lia|].
      split; [done|]. apply Forall_app. split; [|done].
      destruct Hover as [r m1 cleared _ _|r m1 authRecord m2 _ _ _
                        |r m1 authRecord m2 tok pid ms evs0 _ _ _ _ _ Hrun].
      + destruct cleared; by repeat constructor.
      + constructor.
      + rewrite Heps in Hrun.
        destruct (Hprep tok pid) as [p Hp].
        destruct (H429 a 0%nat p) as (resp & Hup & Hst).
        rewrite (tryEndpoints_first_429 a r tok pid ep rest p resp Hp Hup Hst)
          in Hrun.
        injection Hrun as <- <-. by repeat constructor. }
  destruct (Hloop n 0%nat (newAccountManager latestAuth) Hin ltac:(lia))
    as [Hexit Hlog].
  destruct (dispatch input init0 n 0 (newAccountManager latestAuth))
    as [[exit m] evs]. simpl in *. by subst exit.
Qed.

(** *** The first endpoint answers *)

(** X29. On a call that [fetch] handles, the first account is the one that
    holds the stored access token.  If that token has not expired, the
    project context resolves, the request can be prepared for the first
    endpoint, and that endpoint answers with a status that is not 429 and
    (unless it is the only endpoint) not one of 403, 404, 5xx, then
    [fetch] sends this one request, saves the credentials, and returns
    the answer as [transformAntigravityResponse] normalises it; the pool
    is left as the first [getNext] left it: the cursor at 1, the first
    account stamped, nobody marked. *)
Theorem fetch_first_endpoint_answers (latestAuth : OAuthAuthDetails)
    (a0 : ManagedAccount) (tok : jsstring) (pid : option jsstring)
    (ep : jsstring) (rest : list jsstring) (p : Prepared)
    (response : Response) :
  isGenerativeLanguageRequest input = true →
  getAuth = ret (Some latestAuth) →
  accounts (newAccountManager latestAuth) !! 0%nat = Some a0 →
  accessTokenExpired (accountToAuth a0) = false →
  authAccess latestAuth = Some tok → truthy tok = true →
  ensureProjectContext (accountToAuth a0) = ret pid →
  ANTIGRAVITY_ENDPOINT_FALLBACKS = ep :: rest →
  prepareAntigravityRequest input init0 tok pid (Some ep) = ret p →
  upstream 0 0 p = ret response →
  status response ≠ 429 →
  shouldRetryEndpoint response = false ∨ rest = [] →
  fetch input init0 =
    (transformAntigravityResponse response (streaming p) (meta p),
     Some {| accounts := alter (set_lastUsed (clockSelect 0)) 0%nat
                           (accounts (newAccountManager latestAuth));
             currentIndex := 1 |},
     [Answered 0 0 0 p (inr response); Saved 0]).
Proof.
  intros Hwatched Hauth Ha0 Hvalid Htok Htr Hproj Heps Hp Hup H429 Hretry.
  unfold fetch. rewrite Hwatched. cbn [negb]. unfold ret in Hauth.
  rewrite Hauth. unfold intercept. cbv zeta.
  destruct (newAccountManager_inCall latestAuth)
    as (Hne & Hnone & Hcur & _).
  unfold getAccountCount.
  destruct (length (accounts (newAccountManager latestAuth))) as [|n] eqn:Hlen.
  { by destruct (accounts (newAccountManager latestAuth)). }
  rewrite dispatch_unfold. cbv zeta.
  rewrite (getNext_none_limited _ _ Hnone Hne), Hcur, Hlen.
  rewrite Nat.Div0.mod_0_l.
  assert (access a0 = authAccess latestAuth) as Hacc.
  { unfold newAccountManager in Ha0.
    destruct (construct_accounts parseMultiAccountRefresh parseRefreshParts
                latestAuth) as (ps & _ & Hps & _).
    rewrite Hps, list_lookup_imap in Ha0.
    destruct (ps !! 0%nat); [|done]. by injection Ha0 as <-. }
  unfold freshCredentials. cbn [accounts].
  rewrite (list_lookup_total_correct _ _ (set_lastUsed (clockSelect 0) a0))
    by (by rewrite list_lookup_alter_eq, Ha0).
  change (accountToAuth (set_lastUsed (clockSelect 0) a0))
    with (accountToAuth a0).
  rewrite Hvalid. cbn [authAccess accountToAuth]. rewrite Hacc, Htok, Htr.
  unfold ret in Hproj. rewrite Hproj, Heps.
  cbn [tryEndpoints]. unfold ret in Hp, Hup. rewrite Hp, Hup.
  rewrite (proj2 (Z.eqb_neq _ _) H429).
  assert (shouldRetryEndpoint response && negb (bool_decide (rest = []))
          = false) as ->.
  { destruct Hretry as [-> | ->]; [done|].
    rewrite bool_decide_eq_true_2 by done. apply andb_false_r. }
  done.
Qed.

End Loop.

Lemma tryEndpoints_never_runs_out_witness :
  ANTIGRAVITY_ENDPOINT_FALLBACKS (Constants := sampleConstants) ≠ [] ∧
  match (tryEndpoints (platform := samplePlatform) (helpers := sampleHelpers)
           (constants := sampleConstants) (rewriter := sampleRewriter)
           (world := notFoundThenOk) (UrlString sampleUrl) None 0 0
           (lit "token") None 0
           (ANTIGRAVITY_ENDPOINT_FALLBACKS (Constants := sampleConstants))
           None None).1 with
  | Fell _ _ => False
  | _ => True
  end.
Proof.
  split; [done|].
  by apply (tryEndpoints_never_runs_out (platform := samplePlatform)
              (helpers := sampleHelpers) (constants := sampleConstants)
              (rewriter := sampleRewriter) (world := notFoundThenOk)).
Defined.

Lemma fetch_never_returns_429_witness :
  (fetch (platform := samplePlatform) (helpers := sampleHelpers)
     (constants := sampleConstants) (rewriter := sampleRewriter)
     (auth := sampleAuthHelpers) (world := limitedElsewhere)
     (UrlString otherUrl) None).1.1 = ret (plainResponse 429 ∅)
  ∧ (fetch (platform := samplePlatform) (helpers := sampleHelpers)
       (constants := sampleConstants) (rewriter := sampleRewriter)
       (auth := sampleAuthHelpers) (world := limitedElsewhere)
       (UrlString otherUrl) None).1.2 = None.
Proof.
  split; [reflexivity|].
  by destruct (fetch_never_returns_429 (platform := samplePlatform)
                 (helpers := sampleHelpers) (constants := sampleConstants)
                 (rewriter := sampleRewriter) (auth := sampleAuthHelpers)
                 (world := limitedElsewhere) (UrlString otherUrl) None
                 (plainResponse 429 ∅) eq_refl eq_refl) as (_ & H & _).
Defined.

(** On the watched URL the same upstream answer never comes back: the
    first account is marked, the second one is refreshed and answered. *)
Example fetch_moves_on :
  (sampleFetch rateLimitedThenOk).1.1 = ret (plainResponse 200 ∅).
Proof. vm_compute. reflexivity. Qed.

(** A call in which [client.auth.set] is called by the refresh: the first
    account is answered 429, the refresh token of the second one has been
    revoked.  The call ends in the throw after the loop. *)
Example fetch_revoked :
  ∃ p m,
    sampleFetch (revoked (λ _ _, ret (plainResponse 429 ∅))) =
      (throw noAccountLeft, Some m,
       [Answered 0 0 0 p (inr (plainResponse 429 ∅)); Marked 0 0 60000;
        Cleared 1 1]).
Proof. eexists _, _. vm_compute. reflexivity. Qed.

Lemma fetch_every_account_rate_limited_witness :
  (sampleFetch alwaysRateLimited).1.1 = throw noAccountLeft ∧
  length (sampleFetch alwaysRateLimited).2 = 4%nat.
Proof.
  destruct (fetch_every_account_rate_limited (platform := samplePlatform)
              (helpers := sampleHelpers) (constants := sampleConstants)
              (rewriter := sampleRewriter) (auth := sampleAuthHelpers)
              (world := alwaysRateLimited)
              (UrlString sampleUrl) None storedAuth
              (lit "https://daily.example")
              [lit "https://autopush.example"; lit "https://prod.example"])
    as (H1 & _).
  - reflexivity.
  - reflexivity.
  - done.
  - intros auth. eexists. reflexivity.
  - reflexivity.
  - intros tok pid. eexists. reflexivity.
  - intros attempt i p. eexists. split; reflexivity.
  - split; [exact H1|]. vm_compute. reflexivity.
Defined.

Lemma fetch_first_endpoint_answers_witness :
  ∃ p,
    prepareAntigravityRequest (constants := sampleConstants)
      (rewriter := sampleRewriter) (UrlString sampleUrl) None
      (lit "access-r1") (Some (lit "proj")) (Some (lit "https://daily.example"))
      = ret p ∧
    sampleFetch alwaysOk =
      (transformAntigravityResponse (platform := samplePlatform)
         (helpers := sampleHelpers) (plainResponse 200 ∅) (streaming p)
         (meta p),
       Some {| accounts := alter (set_lastUsed 1000) 0%nat (accounts samplePool);
               currentIndex := 1 |},
       [Answered 0 0 0 p (inr (plainResponse 200 ∅)); Saved 0]).
Proof.
  eexists. split; [reflexivity|].
  apply (fetch_first_endpoint_answers (platform := samplePlatform)
           (helpers := sampleHelpers) (constants := sampleConstants)
           (rewriter := sampleRewriter) (auth := sampleAuthHelpers)
           (world := alwaysOk)
           (UrlString sampleUrl) None storedAuth
           (freshAccount 0 (Auth.mkParts "r1" (Some "proj") None)
              (Some (lit "access-r1")) (Some 9999999))
           (lit "access-r1") (Some (lit "proj")) (lit "https://daily.example")
           [lit "https://autopush.example"; lit "https://prod.example"]);
    try reflexivity; try done.
  by left.
Defined.

End PluginMoreFacts.

(** ** OAuth error payloads *)
Module TokenFacts.
Import JsString Runtime Token.

Section ParseFacts.
Context {platform : Platform}.


End ParseFacts.

End TokenFacts.

(** ** The storage-backed account pool *)
Module StoredAccountsFacts.
Import JsString Accounts AccountsFacts Plugin AccountOps AccountOpsFacts
  StoredAccounts.

(** X21. Loading what [save] wrote for a non-empty pool gives back the
    accounts in order with their refresh parts, e-mail addresses, times of
    last use and switch reasons, and the cursor reduced modulo the number
    of accounts.  The rate-limit flags and windows are not stored: every
    account comes back eligible.  The access token and expiry are those of
    the credentials passed to the constructor, on the first account only.
    When no account was rate-limited, [getNext] picks the same account
    after the reload as before. *)
Theorem load_save
    (parseMulti : jsstring → list RefreshParts)
    (parseSingle : jsstring → RefreshParts)
    (auth : OAuthAuthDetails) (now : Z) (m : StoredAccountManager) :
  managed m ≠ [] →
  load parseMulti parseSingle auth (Some (save now m)) =
    {| managed := imap (λ i a, reloaded i auth a) (managed m);
       cursor := (cursor m mod length (managed m))%nat;
       currentAccountIndex := -1 |}
  ∧ none_limited
      (accounts (pool (load parseMulti parseSingle auth (Some (save now m)))))
  ∧ (none_limited (accounts (pool m)) →
     ∀ t, (getNext t (pool (load parseMulti parseSingle auth
                              (Some (save now m))))).1
          = (getNext t (pool m)).1).
Proof.
  intros Hne.
  assert (0 < length (managed m))%nat as Hlen
    by (destruct (managed m); [done|simpl; lia]).
  assert (load parseMulti parseSingle auth (Some (save now m)) =
    {| managed := imap (λ i a, reloaded i auth a) (managed m);
       cursor := (cursor m mod length (managed m))%nat;
       currentAccountIndex := -1 |}) as E.
  { unfold load, save. cbn [storedAccounts activeIndex].
    rewrite length_fmap.
    rewrite (proj2 (Nat.ltb_lt _ _) Hlen).
    rewrite imap_fmap. f_equal.
    - apply imap_ext. intros i a _. simpl. unfold reloaded.
      by destruct (parts (common a)).
    - f_equal. lia. }
  split; [exact E|]. rewrite E.
  assert (none_limited (accounts (pool
            {| managed := imap (λ i a, reloaded i auth a) (managed m);
               cursor := (cursor m mod length (managed m))%nat;
               currentAccountIndex := -1 |}))) as Hnone.
  { apply Forall_lookup. intros i a. simpl.
    rewrite list_lookup_fmap, list_lookup_imap.
    destruct (managed m !! i); [|done]. csimpl. by intros [= <-]. }
  split; [exact Hnone|].
  intros Hm t.
  rewrite !getNext_none_limited; try done.
  - simpl. rewrite !length_fmap, length_imap. f_equal.
    apply Nat.Div0.mod_mod.
  - simpl. intros E'%(f_equal length). rewrite length_fmap in E'.
    simpl in E'. lia.
  - simpl. intros E'%(f_equal length).
    rewrite length_fmap, length_imap in E'. simpl in E'. lia.
Qed.

Lemma load_save_witness :
  managed storedPool ≠ [] ∧
  cursor (load Auth.parseMultiAccountRefresh Auth.parseRefreshParts
            {| refresh := lit "unused"; authAccess := Some (lit "tok");
               authExpires := Some 7 |}
            (Some (save 99 storedPool))) = 1%nat ∧
  (email <$> managed (load Auth.parseMultiAccountRefresh
                        Auth.parseRefreshParts
                        {| refresh := lit "unused";
                           authAccess := Some (lit "tok");
                           authExpires := Some 7 |}
                        (Some (save 99 storedPool))))
  = [Some (lit "a@example.com"); None].
Proof.
  split; [done|].
  destruct (load_save Auth.parseMultiAccountRefresh Auth.parseRefreshParts
              {| refresh := lit "unused"; authAccess := Some (lit "tok");
                 authExpires := Some 7 |} 99 storedPool) as (E & _ & _);
    [done|].
  rewrite E. split; reflexivity.
Defined.

(** X22. On a pool whose accounts carry their positions as [index],
    [markSwitched] makes the given account the current one:
    [getCurrentAccount] then returns it, with the reason recorded on it,
    and nothing that [getNext] looks at has changed.  A freshly loaded
    manager has no current account. *)
Theorem markSwitched_getCurrentAccount (m : StoredAccountManager) (r : nat)
    (reason : SwitchReason) :
  well_indexed (accounts (pool m)) →
  (r < length (managed m))%nat →
  getCurrentAccount (markSwitched r reason m) = Some r
  ∧ (lastSwitchReason <$> managed (markSwitched r reason m) !! r)
    = Some (Some reason)
  ∧ pool (markSwitched r reason m) = pool m.
Proof.
  intros Hwi Hr. unfold markSwitched.
  destruct (lookup_lt_is_Some_2 _ _ Hr) as [a Ha]. rewrite Ha.
  assert (index (common a) = r) as Hidx.
  { apply Hwi. simpl. by rewrite list_lookup_fmap, Ha. }
  split; [|split].
  - unfold getCurrentAccount. simpl. rewrite length_alter, Hidx.
    rewrite (proj2 (Z.leb_le _ _)) by lia.
    rewrite (proj2 (Z.ltb_lt _ _)) by lia.
    simpl. by rewrite Nat2Z.id.
  - simpl. by rewrite list_lookup_alter_eq, Ha.
  - unfold pool. simpl. f_equal.
    apply list_eq. intros i. rewrite !list_lookup_fmap.
    destruct (decide (r = i)) as [->|Hne].
    + by rewrite list_lookup_alter_eq, Ha.
    + by rewrite list_lookup_alter_ne.
Qed.

Lemma markSwitched_getCurrentAccount_witness :
  well_indexed (accounts (pool storedPool)) ∧
  getCurrentAccount storedPool = None ∧
  getCurrentAccount (markSwitched 1 Rotation storedPool) = Some 1%nat.
Proof.
  assert (well_indexed (accounts (pool storedPool))) as H.
  { intros [|[|i]] a; simpl; intros [= <-]; reflexivity. }
  split; [exact H|]. split; [reflexivity|].
  apply (markSwitched_getCurrentAccount storedPool 1 Rotation H).
  simpl. lia.
Defined.

End StoredAccountsFacts.

(** ** Tool schemas *)
Module SchemaFacts.
Import JsString Runtime Plugin Schema.

(** *** Induction on the size of a value *)




(** *** Array keys *)







(** *** What [sanitizeSchema] returns *)










(** On the sample schema: the combinators at the root, under a property
    and under [items] go; the one under [not] stays. *)
Example sanitizeSchema_sample :
  sanitizeSchema sampleSchema =
    JObj [(lit "type", JStr (lit "object"));
          (lit "properties",
           JObj [(lit "tags",
                  JObj [(lit "type", JStr (lit "array"));
                        (lit "items", JObj [])]);
                 (lit "mode",
                  JObj [(lit "description", JStr (lit "how"))])]);
          (lit "not", JObj [(lit "anyOf", JArr [JObj []])])].
Proof. reflexivity. Qed.

End SchemaFacts.

(** ** The cached-content block *)
Module PayloadFacts.
Import JsString Runtime Token Payload.

Lemma assoc_delAssoc_eq k props : assoc k (delAssoc k props) = None.
Proof.
  unfold delAssoc. induction props as [|[k' v] rest IH]; [done|].
  simpl. case_bool_decide as E; simpl; [done|].
  by rewrite bool_decide_eq_false_2.
Qed.

Lemma assoc_delAssoc_ne k k' props :
  k ≠ k' → assoc k (delAssoc k' props) = assoc k props.
Proof.
  intros Hne. unfold delAssoc.
  induction props as [|[k0 v] rest IH]; [done|].
  simpl. case_bool_decide as E; simpl.
  - subst k0. by rewrite bool_decide_eq_false_2.
  - by rewrite IH.
Qed.

Lemma assoc_setAssoc_ne k k' v props :
  k ≠ k' → assoc k (setAssoc k' v props) = assoc k props.
Proof.
  intros Hne. induction props as [|[k0 v0] rest IH]; simpl.
  - by rewrite bool_decide_eq_false_2.
  - case_bool_decide as E; simpl.
    + subst k0. by rewrite !bool_decide_eq_false_2.
    + by rewrite IH.
Qed.

Lemma assoc_setAssoc_eq k v props : assoc k (setAssoc k v props) = Some v.
Proof.
  induction props as [|[k0 v0] rest IH]; simpl.
  - by rewrite bool_decide_eq_true_2.
  - case_bool_decide as E; simpl.
    + by rewrite bool_decide_eq_true_2.
    + by rewrite bool_decide_eq_false_2.
Qed.

(** X25. After the cached-content block the payload carries no
    [cached_content] and no [cachedContent] property, whatever the
    request named as its cache and wherever (the value the block has
    just stored under [cachedContent] is deleted by the next statements);
    an [extra_body] that is left is not empty and carries neither
    property; every other property of the payload is as before. *)
Theorem cachedContentBlock_spec (requestPayload : list (jsstring * Json)) :
  assoc (lit "cached_content") (cachedContentBlock requestPayload) = None
  ∧ assoc (lit "cachedContent") (cachedContentBlock requestPayload) = None
  ∧ (∀ k, k ∉ cacheKeys →
       assoc k (cachedContentBlock requestPayload) = assoc k requestPayload)
  ∧ match assoc (lit "extra_body") (cachedContentBlock requestPayload) with
    | Some (JObj extra) =>
        extra ≠ [] ∧ assoc (lit "cached_content") extra = None ∧
        assoc (lit "cachedContent") extra = None
    | Some (JArr items) => items ≠ []
    | _ => True
    end.
Proof.
  unfold cachedContentBlock.
  set (cachedContent := nullish _ _).
  set (payload1 := match cachedContent with Some _ => _ | None => _ end).
  set (payload2 := delAssoc (lit "cachedContent") _).
  assert (assoc (lit "cached_content") payload2 = None) as H1.
  { unfold payload2. rewrite assoc_delAssoc_ne by done.
    apply assoc_delAssoc_eq. }
  assert (assoc (lit "cachedContent") payload2 = None) as H2
    by apply assoc_delAssoc_eq.
  assert (∀ k, k ∉ cacheKeys → assoc k payload2 = assoc k requestPayload)
    as H3.
  { intros k Hk. unfold cacheKeys in Hk. rewrite !not_elem_of_cons in Hk.
    destruct Hk as (? & ? & ? & _).
    unfold payload2. rewrite !assoc_delAssoc_ne by done.
    unfold payload1. destruct cachedContent as [c|]; [|done].
    destruct (truthyJson c); [|done]. by rewrite assoc_setAssoc_ne. }
  assert (∀ k, k ∉ cacheKeys →
            assoc k (delAssoc (lit "extra_body") payload2)
            = assoc k requestPayload) as H3d.
  { intros k Hk. rewrite <- (H3 k Hk). apply assoc_delAssoc_ne.
    unfold cacheKeys in Hk. rewrite !not_elem_of_cons in Hk. tauto. }
  destruct (assoc (lit "extra_body") payload2) as [[| | | |items|extra]|] eqn:E;
    try (rewrite E; done).
  - case_bool_decide as Hlen.
    + rewrite !assoc_delAssoc_ne by done. rewrite assoc_delAssoc_eq. done.
    + rewrite E. repeat split; try done. intros ->. done.
  - case_bool_decide as Hlen.
    + rewrite !assoc_delAssoc_ne by done. rewrite assoc_delAssoc_eq. done.
    + rewrite !assoc_setAssoc_ne by done. rewrite assoc_setAssoc_eq.
      split; [done|]. split; [done|]. split.
      * intros k Hk. rewrite <- (H3 k Hk). apply assoc_setAssoc_ne.
        unfold cacheKeys in Hk. rewrite !not_elem_of_cons in Hk. tauto.
      * split; [intros E0; by rewrite E0 in Hlen|]. split.
        -- rewrite assoc_delAssoc_ne by done. apply assoc_delAssoc_eq.
        -- apply assoc_delAssoc_eq.
Qed.

Example cachedContentBlock_sample :
  cachedContentBlock cachingPayload = [(lit "contents", JArr [])].
Proof. reflexivity. Qed.

End PayloadFacts.

(** ** Collecting accounts *)
Module AuthorizeFacts.
Import JsString Accounts Plugin AccountOps AccountOpsFacts Authorize.

Lemma collect_full (rounds : list Round) (accounts : list Authenticated) :
  (length accounts ≤ 10)%nat → (length accounts <? 10)%nat = false →
  ∃ more,
    accounts = accounts ++ more ∧
    more `prefix_of` successes rounds ∧
    (length accounts ≤ 10)%nat ∧
    ((length accounts < 10)%nat →
     ∃ consumed rest,
       rounds = consumed ++ Decline :: rest ∧ successes consumed = more).
Proof.
  intros Hlen E%Nat.ltb_ge. exists [].
  split; [by rewrite app_nil_r|]. split; [apply prefix_nil|].
  split; [done|]. lia.
Qed.

Lemma collect_spec rounds : ∀ accounts out,
  collect accounts rounds = Some out →
  (length accounts ≤ 10)%nat →
  ∃ more,
    out = accounts ++ more ∧
    more `prefix_of` successes rounds ∧
    (length out ≤ 10)%nat ∧
    ((length out < 10)%nat →
     ∃ consumed rest,
       rounds = consumed ++ Decline :: rest ∧ successes consumed = more).
Proof.
  induction rounds as [|round rounds IH]; intros accounts out Hrun Hlen.
  - simpl in Hrun. destruct (length accounts <? 10)%nat eqn:E; [done|].
    injection Hrun as <-. by apply collect_full.
  - cbn [collect] in Hrun.
    destruct (length accounts <? 10)%nat eqn:E.
    2:{ injection Hrun as <-. by apply collect_full. }
    apply Nat.ltb_lt in E.
    destruct round as [|[nextAccount|]].
    + injection Hrun as <-. exists [].
      split; [by rewrite app_nil_r|]. split; [apply prefix_nil|].
      split; [lia|]. intros _. by exists [], rounds.
    + destruct (IH _ _ Hrun) as (more & -> & Hpre & Hle & Hstop).
      { rewrite length_app. simpl. lia. }
      exists (nextAccount :: more).
      split; [by rewrite <- app_assoc|]. split.
      { unfold successes. csimpl. by apply prefix_cons. }
      split; [done|].
      intros Hlt. destruct (Hstop Hlt) as (consumed & rest & -> & Hs).
      exists (Accept (Some nextAccount) :: consumed), rest.
      split; [done|]. unfold successes in *. csimpl. by rewrite Hs.
    + destruct (IH _ _ Hrun Hlen) as (more & -> & Hpre & Hle & Hstop).
      exists more. split; [done|]. split; [done|]. split; [done|].
      intros Hlt. destruct (Hstop Hlt) as (consumed & rest & -> & Hs).
      by exists (Accept None :: consumed), rest.
Qed.

Lemma parts_imap (l : list RefreshParts) :
  ∀ g : nat → RefreshParts → ManagedAccount,
    (∀ i p, parts (g i p) = p) → parts <$> imap g l = l.
Proof.
  induction l as [|p l IH]; intros g Hg; [done|].
  csimpl. rewrite Hg. f_equal. apply IH. intros i q. apply Hg.
Qed.

(** X26. When [authorize] ends with success, the credentials it returns
    are those of the first account together with, in order, the accounts
    authenticated successfully in the rounds played, at most nine of
    them; a failed authentication is skipped, and with fewer than ten
    accounts the loop was ended by the user declining.  The access token,
    the expiry, the e-mail address and the project id returned are the
    first account's.  If the combined refresh string parses back to the
    parts it was made of, a manager constructed from the returned
    credentials has exactly these accounts, in this order. *)
Theorem authorize_accounts
    (formatMulti : list RefreshParts → jsstring)
    (first : option Authenticated) (rounds : list Round)
    (refresh access : jsstring) (expires : Z) (email : option jsstring)
    (projectId : jsstring) :
  authorize formatMulti first rounds =
    Success refresh access expires email projectId →
  ∃ firstAccount more,
    first = Some firstAccount ∧
    more `prefix_of` successes rounds ∧
    (length more ≤ 9)%nat ∧
    ((length more < 9)%nat →
     ∃ consumed rest,
       rounds = consumed ++ Decline :: rest ∧ successes consumed = more) ∧
    refresh = formatMulti (toParts <$> firstAccount :: more) ∧
    access = authAccessToken firstAccount ∧
    expires = authExpiry firstAccount ∧
    email = authEmail firstAccount ∧
    projectId = authProjectId firstAccount ∧
    ∀ parseMulti parseSingle,
      parseMulti refresh = toParts <$> firstAccount :: more →
      parts <$> accounts (construct parseMulti parseSingle
                            {| Plugin.refresh := refresh;
                               authAccess := Some access;
                               authExpires := Some expires |})
      = toParts <$> firstAccount :: more.
Proof.
  unfold authorize. destruct first as [firstAccount|]; [|done].
  destruct (collect [firstAccount] rounds) as [out|] eqn:E; [|done].
  intros [= <- <- <- <- <-].
  destruct (collect_spec _ _ _ E) as (more & -> & Hpre & Hle & Hstop);
    [simpl; lia|].
  change ([firstAccount] ++ more) with (firstAccount :: more) in *.
  exists firstAccount, more. simpl in Hle.
  split; [done|]. split; [done|]. split; [lia|]. split.
  { intros Hlt. apply Hstop. simpl. lia. }
  repeat split; try done.
  intros parseMulti parseSingle Hcodec. unfold construct.
  cbn [Plugin.refresh authAccess authExpires]. rewrite Hcodec.
  rewrite fmap_cons. cbn [length Nat.ltb Nat.leb accounts].
  by apply parts_imap.
Qed.

Lemma authorize_accounts_witness :
  authorize Auth.formatMultiAccountRefresh (Some (signedIn "r1" "p1"))
    [Accept None; Accept (Some (signedIn "r2" "p2")); Decline;
     Accept (Some (signedIn "r3" "p3"))]
  = Success (lit "r1|p1||r2|p2") (lit "access-r1") 3600 None (lit "p1")
  ∧ ∃ more, more `prefix_of`
              successes [Accept None; Accept (Some (signedIn "r2" "p2"));
                         Decline; Accept (Some (signedIn "r3" "p3"))]
            ∧ lit "r1|p1||r2|p2" =
              Auth.formatMultiAccountRefresh
                (toParts <$> signedIn "r1" "p1" :: more).
Proof.
  split; [reflexivity|].
  destruct (authorize_accounts Auth.formatMultiAccountRefresh
              (Some (signedIn "r1" "p1"))
              [Accept None; Accept (Some (signedIn "r2" "p2")); Decline;
               Accept (Some (signedIn "r3" "p3"))]
              (lit "r1|p1||r2|p2") (lit "access-r1") 3600 None (lit "p1")
              eq_refl)
    as (firstAccount & more & [= <-] & Hpre & _ & _ & Hr & _).
  by exists more.
Defined.

End AuthorizeFacts.

(** ** Tools for Claude models *)
Module ToolsFacts.
Import JsString Runtime Request RequestFacts PrepareMore PrepareMoreFacts
  Schema SchemaFacts Token Tools.

Section ToolsFacts.
Context {platform : Platform}.







End ToolsFacts.

(** The sample tools: two declarations gathered, the built-in after them. *)
Example normalizeClaudeTools_sample :
  ∃ st,
    normalizeClaudeTools (platform := Samples.samplePlatform) sampleTools =
    ret ([JObj [(lit "functionDeclarations",
                 JArr [JObj [(lit "name", JStr (lit "read_file"));
                             (lit "description", JStr (lit "Reads a file"));
                             (lit "parameters", sanitizeSchema sampleSchema)];
                       JObj [(lit "name", JStr (lit "ping"));
                             (lit "description", JStr []);
                             (lit "parameters",
                              JObj [(lit "type", JStr (lit "object"))])]])];
          JObj [(lit "codeExecution", JObj [])]], st) ∧
    missing st = 1.
Proof. eexists. split; reflexivity. Qed.

End ToolsFacts.

(** ** Ids of function calls *)
Module CallIdsFacts.
Import JsString Runtime Schema Payload PayloadFacts CallIds.

Lemma truthyField_withField_eq part field v :
  truthyJson v = true → truthyField (withField part field v) field = Some v.
Proof.
  intros Hv. unfold truthyField, withField.
  by rewrite assoc_setAssoc_eq, Hv.
Qed.

Lemma truthyField_withField_ne props field field' v :
  lit field ≠ lit field' →
  truthyField (withField (JObj props) field' v) field
  = truthyField (JObj props) field.
Proof.
  intros Hne. unfold truthyField, withField. simpl.
  by rewrite assoc_setAssoc_ne.
Qed.

Lemma assignCallId_call st part :
  match truthyField part "functionCall" with
  | Some functionCall =>
      ∃ functionCall',
        truthyField (assignCallId st part).2 "functionCall"
          = Some functionCall' ∧
        callKept functionCall functionCall'
  | None => (assignCallId st part).2 = part
  end.
Proof.
  unfold assignCallId.
  destruct (truthyField part "functionCall") as [functionCall|] eqn:E;
    [|done].
  destruct (truthyOpt (assoc (lit "id") (spread functionCall))) eqn:Eid.
  - eexists. split; [by apply truthyField_withField_eq|].
    split; [exact Eid|]. split; [done|]. done.
  - eexists. split; [by apply truthyField_withField_eq|].
    split; [|split; [|by rewrite Eid]].
    + simpl. by rewrite assoc_setAssoc_eq.
    + intros k Hk. simpl. by rewrite assoc_setAssoc_ne.
Qed.

Lemma matchResponse_call pending part :
  truthyField (matchResponse pending part).2 "functionCall"
  = truthyField part "functionCall".
Proof.
  unfold matchResponse.
  destruct (truthyField part "functionResponse") as [functionResponse|] eqn:E;
    [|done].
  destruct part as [| | | | |props]; try done.
  destruct (if truthyOpt _ then _ else _) as [pending1 resp1].
  by apply truthyField_withField_ne.
Qed.

(** A content and its [parts] go through a pass alike. *)
Lemma eachContent_parts {S} (f : S → Json → S * Json) st content :
  (eachContent f st content).1 = (mapWith f st (partsOf content)).1 ∧
  partsOf (eachContent f st content).2 = (mapWith f st (partsOf content)).2.
Proof.
  unfold eachContent, partsOf.
  destruct content as [| | | | |props]; try done.
  destruct (assoc (lit "parts") props) as [[| | | |ps|]|] eqn:E;
    try (cbn [fst snd mapWith]; by rewrite E).
  destruct (mapWith f st ps) as [st1 newParts]. cbn [fst snd].
  by rewrite assoc_setAssoc_eq.
Qed.

Lemma pass1_parts parts : ∀ st,
  Forall2 callKept (callsOfParts parts)
          (callsOfParts (mapWith assignCallId st parts).2).
Proof.
  induction parts as [|part parts IH]; intros st; [constructor|].
  cbn [mapWith]. pose proof (assignCallId_call st part) as H.
  destruct (assignCallId st part) as [st1 part'].
  specialize (IH st1). destruct (mapWith assignCallId st1 parts) as [st2 ys].
  unfold callsOfParts in *. csimpl. simpl in H, IH.
  destruct (truthyField part "functionCall") as [functionCall|] eqn:E.
  - destruct H as (functionCall' & -> & Hk). by constructor.
  - by rewrite H, E.
Qed.

Lemma pass2_parts parts : ∀ pending,
  callsOfParts (mapWith matchResponse pending parts).2 = callsOfParts parts.
Proof.
  induction parts as [|part parts IH]; intros pending; [done|].
  cbn [mapWith]. pose proof (matchResponse_call pending part) as H.
  destruct (matchResponse pending part) as [pending1 part'].
  specialize (IH pending1).
  destruct (mapWith matchResponse pending1 parts) as [pending2 ys].
  unfold callsOfParts in *. csimpl. simpl in H, IH. by rewrite H, IH.
Qed.

Lemma pass1_contents contents : ∀ st,
  Forall2 callKept (callsOf contents)
          (callsOf (mapWith (eachContent assignCallId) st contents).2).
Proof.
  induction contents as [|content contents IH]; intros st; [constructor|].
  cbn [mapWith].
  destruct (eachContent_parts assignCallId st content) as [H1 H2].
  pose proof (pass1_parts (partsOf content) st) as Hp.
  destruct (eachContent assignCallId st content) as [st1 content'].
  specialize (IH st1).
  destruct (mapWith (eachContent assignCallId) st1 contents) as [st2 ys].
  unfold callsOf in *. cbn [fst snd] in *. rewrite !bind_cons.
  apply Forall2_app; [|done]. by rewrite H2.
Qed.

Lemma pass2_contents contents : ∀ pending,
  callsOf (mapWith (eachContent matchResponse) pending contents).2
  = callsOf contents.
Proof.
  induction contents as [|content contents IH]; intros pending; [done|].
  cbn [mapWith].
  destruct (eachContent_parts matchResponse pending content) as [H1 H2].
  pose proof (pass2_parts (partsOf content) pending) as Hp.
  destruct (eachContent matchResponse pending content) as [pending1 content'].
  specialize (IH pending1).
  destruct (mapWith (eachContent matchResponse) pending1 contents)
    as [pending2 ys].
  unfold callsOf in *. cbn [fst snd] in *. rewrite !bind_cons.
  by rewrite H2, Hp, IH.
Qed.

(** X28. After the two passes, the conversation has the same function
    calls in the same order, each of them an object with a truthy [id]:
    a call that had one is kept as it was, a call that had none is given
    one, and nothing else of a call is changed.  The pass over the
    responses does not touch the calls. *)
Theorem assignIds_calls (contents : list Json) :
  Forall2 callKept (callsOf contents) (callsOf (assignIds contents)).
Proof.
  unfold assignIds.
  pose proof (pass1_contents contents noIds) as H1.
  destruct (mapWith (eachContent assignCallId) noIds contents)
    as [st1 contents1].
  simpl in H1. by rewrite pass2_contents.
Qed.

(** On the sample conversation: the calls of [read] get the first and the
    second generated id, and the answers take the ids of the calls of
    their name in the order of the calls; the third answer of [read]
    finds no call left. *)
Example assignIds_sample :
  assignIds sampleContents =
  [JObj [(lit "role", JStr (lit "model"));
         (lit "parts",
          JArr [JObj [(lit "functionCall",
                       JObj [(lit "name", JStr (lit "read"));
                             (lit "id", JStr (lit "tool-call-1"))])];
                JObj [(lit "functionCall",
                       JObj [(lit "name", JStr (lit "write"));
                             (lit "id", JStr (lit "w-1"))])];
                JObj [(lit "functionCall",
                       JObj [(lit "name", JStr (lit "read"));
                             (lit "id", JStr (lit "tool-call-2"))])]])];
   JObj [(lit "role", JStr (lit "user"));
         (lit "parts",
          JArr [JObj [(lit "functionResponse",
                       JObj [(lit "name", JStr (lit "read"));
                             (lit "id", JStr (lit "tool-call-1"))])];
                JObj [(lit "functionResponse",
                       JObj [(lit "name", JStr (lit "write"));
                             (lit "id", JStr (lit "w-1"))])];
                JObj [(lit "functionResponse",
                       JObj [(lit "name", JStr (lit "read"));
                             (lit "id", JStr (lit "tool-call-2"))])];
                JObj [(lit "functionResponse",
                       JObj [(lit "name", JStr (lit "read"))])]])]].
Proof. vm_compute. reflexivity. Qed.

End CallIdsFacts.

